(** * Indb: a verification model of the IndexedDB wrapper [src/indb.js]

    The development embeds the query engine of the [Indb] class
    ([filter], [tokens], [search], [select], [count], [remove], [query])
    as executable Rocq functions and proves properties about them.

    The class is a thin layer over the browser's IndexedDB.  The parts of
    IndexedDB the class calls ([IDBKeyRange], object stores, indexes,
    cursors, transactions) are modelled in [Module IDB] after the
    Indexed Database API 3.0 standard; the functions of the class itself
    are in [Module Indb] and follow the JavaScript source line by line. *)

From Stdlib Require Import ZArith NArith List Bool Lia String Ascii Sorted Permutation.
From stdpp Require Import base option list gmap strings.
Import ListNotations.

Local Open Scope Z_scope.
Set Warnings "-register-all".

(** ** JavaScript values used by the engine *)

(** A JavaScript string: the sequence of its UTF-16 code units. *)
Definition jsstring := list N.

(** The code units of an ASCII literal, for readable examples. *)
Definition cps (s : string) : jsstring :=
  map N_of_ascii (list_ascii_of_string s).

(** The code points of a string, as a regular expression with the [u]
    flag reads them: a high surrogate followed by a low surrogate is one
    code point above U+FFFF, any other code unit is a code point of its
    own. *)
Definition high_surrogate (u : N) : bool := ((55296 <=? u) && (u <=? 56319))%N.
Definition low_surrogate (u : N) : bool := ((56320 <=? u) && (u <=? 57343))%N.

Fixpoint code_points (s : jsstring) : list N :=
  match s with
  | [] => []
  | h :: rest =>
      match rest with
      | l :: rest' =>
          if high_surrogate h && low_surrogate l
          then (65536 + (h - 55296) * 1024 + (l - 56320))%N :: code_points rest'
          else h :: code_points rest
      | [] => [h]
      end
  end.

(** The code units of a code point, and of a sequence of code points. *)
Definition code_units (c : N) : jsstring :=
  if (65536 <=? c)%N
  then [55296 + (c - 65536) / 1024; 56320 + (c - 65536) mod 1024]%N
  else [c].
Definition units (w : list N) : jsstring := flat_map code_units w.

(** Exceptions and rejection reasons that the modelled code can produce. *)
Inductive error : Type :=
| NotFoundError                          (* DOMException: unknown object store *)
| DataError                              (* DOMException: invalid key range *)
| TypeError                              (* e.g. [advance(0)] *)
| IndexNotFound (index table : string).  (* the message built by [search] *)

(** Result of a synchronous call: a value or a thrown exception. *)
Inductive completion (A : Type) : Type :=
| Return (a : A)
| Throw (e : error).
Arguments Return {A} a.
Arguments Throw {A} e.

(** State of the promise returned by an asynchronous method once the
    transaction it opened has finished.  [Pending e] is a promise that is
    never settled: exception [e] escaped an event handler, which aborts
    the transaction without calling [ok] or [error]. *)
Inductive promise (A : Type) : Type :=
| Fulfilled (a : A)
| Rejected (e : error)
| Pending (e : error).
Arguments Fulfilled {A} a.
Arguments Rejected {A} e.
Arguments Pending {A} e.

(** A value that is offered as a key: a valid key, or a value that
    IndexedDB does not accept as a key ([null], a boolean, [NaN], an
    object that is no array of keys). *)
Inductive offered (K : Type) : Type :=
| Valid (k : K)
| Invalid.
Arguments Valid {K} k.
Arguments Invalid {K}.

(** A JavaScript value as the engine inspects it with [typeof] and
    [=== undefined]: what [tokens] receives as [string] and what a query
    descriptor holds in [value].  The numbers are the integers and [NaN].
    An object is seen through its [start] and [end] properties only
    ([None] is [undefined]); the type of the valid keys is declared with
    the substrate below. *)
Inductive jsval (K : Type) : Type :=
| JUndefined
| JNull
| JBool (b : bool)
| JNumber (n : Z)
| JNaN
| JString (s : jsstring)
| JObject (v_start v_end : option (offered K)).
Arguments JUndefined {K}.
Arguments JNull {K}.
Arguments JBool {K} b.
Arguments JNumber {K} n.
Arguments JNaN {K}.
Arguments JString {K} s.
Arguments JObject {K} v_start v_end.

(** [new Set(l)] read back in insertion order, as [[...new Set(l)]] does:
    the first occurrence of every element, for the equality [eqb]. *)
Fixpoint set_from {A} (eqb : A -> A -> bool) (seen l : list A) : list A :=
  match l with
  | [] => []
  | x :: l' =>
      if existsb (eqb x) seen then set_from eqb seen l'
      else x :: set_from eqb (x :: seen) l'
  end.
Definition new_Set {A} (eqb : A -> A -> bool) (l : list A) : list A :=
  set_from eqb [] l.

(** [set.has(x)] *)
Definition has {A} (eqb : A -> A -> bool) (set : list A) (x : A) : bool :=
  existsb (eqb x) set.

Definition jsstring_eqb (a b : jsstring) : bool :=
  bool_decide (a = b).

(** ** The IndexedDB substrate *)

Module IDB.

(** Valid keys: numbers, strings and arrays of keys (dates and binary keys
    are not used by the engine).  Numbers are integers here. *)
Inductive key : Type :=
| KNum (n : Z)
| KStr (s : jsstring)
| KArr (ks : list key).

Section key_induction.
Variable P : key -> Prop.
Hypothesis HNum : forall n, P (KNum n).
Hypothesis HStr : forall s, P (KStr s).
Hypothesis HArr : forall ks, Forall P ks -> P (KArr ks).

Fixpoint key_nested_ind (k : key) : P k :=
    match k with
    | KNum n => HNum n
    | KStr s => HStr s
    | KArr ks =>
        HArr ks ((fix all (l : list key) : Forall P l :=
                    match l with
                    | [] => @List.Forall_nil key P
                    | x :: l' => @List.Forall_cons key P x l' (key_nested_ind x) (all l')
                    end) ks)
    end.
End key_induction.

(** Strings compare as the sequences of their code units. *)
Fixpoint str_cmp (a b : jsstring) : comparison :=
  match a, b with
  | [], [] => Eq
  | [], _ :: _ => Lt
  | _ :: _, [] => Gt
  | x :: a', y :: b' =>
      match N.compare x y with
      | Eq => str_cmp a' b'
      | c => c
      end
  end.

(** "Compare two keys" of the standard: Number < String < Array, arrays
    compared element by element and then by length. *)
Fixpoint key_cmp (a b : key) : comparison :=
  match a, b with
  | KNum x, KNum y => Z.compare x y
  | KNum _, _ => Lt
  | KStr _, KNum _ => Gt
  | KStr x, KStr y => str_cmp x y
  | KStr _, KArr _ => Lt
  | KArr _, KNum _ => Gt
  | KArr _, KStr _ => Gt
  | KArr xs, KArr ys =>
      (fix arr_cmp (xs ys : list key) {struct xs} : comparison :=
         match xs, ys with
         | [], [] => Eq
         | [], _ :: _ => Lt
         | _ :: _, [] => Gt
         | x :: xs', y :: ys' =>
             match key_cmp x y with
             | Eq => arr_cmp xs' ys'
             | c => c
             end
         end) xs ys
  end.

Definition key_eqb (a b : key) : bool :=
  match key_cmp a b with Eq => true | _ => false end.
Definition key_leb (a b : key) : bool :=
  match key_cmp a b with Gt => false | _ => true end.
Definition key_ltb (a b : key) : bool :=
  match key_cmp a b with Lt => true | _ => false end.

(** [a <= b] and [a < b] in the key order. *)
Definition key_le (a b : key) : Prop := key_cmp a b <> Gt.
Definition key_lt (a b : key) : Prop := key_cmp a b = Lt.

(** *** Key ranges *)

Record IDBKeyRange : Type := mkRange {
  lower : option key;
  upper : option key;
  lowerOpen : bool;
  upperOpen : bool
}.

(** The constructors of a range convert their arguments to keys and
    throw a DataError for a value that is not a valid key. *)

(** [IDBKeyRange.only(value)] *)
Definition only (v : offered key) : completion IDBKeyRange :=
  match v with
  | Valid k => Return (mkRange (Some k) (Some k) false false)
  | Invalid => Throw DataError
  end.

(** [IDBKeyRange.lowerBound(lower, open)] *)
Definition lowerBound (l : offered key) (open : bool) : completion IDBKeyRange :=
  match l with
  | Valid k => Return (mkRange (Some k) None open true)
  | Invalid => Throw DataError
  end.

(** [IDBKeyRange.upperBound(upper, open)] *)
Definition upperBound (u : offered key) (open : bool) : completion IDBKeyRange :=
  match u with
  | Valid k => Return (mkRange None (Some k) true open)
  | Invalid => Throw DataError
  end.

(** [IDBKeyRange.bound(lower, upper, lowerOpen, upperOpen)]: the standard
    also throws a DataError when [lower] is greater than [upper], or
    equal to it with an open end. *)
Definition bound (l u : offered key) (lo uo : bool) : completion IDBKeyRange :=
  match l, u with
  | Valid l, Valid u =>
      match key_cmp l u with
      | Gt => Throw DataError
      | Eq => if lo || uo then Throw DataError
              else Return (mkRange (Some l) (Some u) lo uo)
      | Lt => Return (mkRange (Some l) (Some u) lo uo)
      end
  | _, _ => Throw DataError
  end.

(** "A key is in a key range". *)
Definition includes (r : IDBKeyRange) (k : key) : bool :=
  match lower r with
  | None => true
  | Some l => if lowerOpen r then key_ltb l k else key_leb l k
  end
  &&
  match upper r with
  | None => true
  | Some u => if upperOpen r then key_ltb k u else key_leb k u
  end.

(** A query argument of [count] and [openCursor]: a key range, or [null] or
    [undefined], both of which select every record. *)
Inductive query_arg : Type :=
| Null
| Undefined
| Range (r : IDBKeyRange).

Definition in_query (q : query_arg) (k : key) : bool :=
  match q with
  | Range r => includes r k
  | Null | Undefined => true
  end.

(** *** Object stores and indexes *)

(** A stored record: its primary key and its fields (only fields that hold
    valid keys matter to the engine). *)
Record record : Type := mkRecord {
  r_id : key;
  r_fields : list (string * key)
}.

Fixpoint get_field (name : string) (fs : list (string * key)) : option key :=
  match fs with
  | [] => None
  | (n, v) :: fs' => if String.eqb n name then Some v else get_field name fs'
  end.

(** An index as [createIndex(name, keyPath, {unique, multiEntry})] makes it. *)
Record index_def : Type := mkIndex {
  keyPath : string;
  unique : bool;
  multiEntry : bool
}.

(** An object store: its records in ascending order of primary key, and
    its indexes by name ([store.indexNames]). *)
Record objectStore : Type := mkStore {
  records : list record;
  indexes : gmap string index_def
}.

(** The database connection: object stores by name ([db.objectStoreNames]). *)
Definition database : Type := gmap string objectStore.

(** An entry of a source: for an object store the key is the primary key,
    for an index it is the index key; [e_rec] is the referenced record. *)
Record entry : Type := mkEntry {
  e_key : key;
  e_rec : record
}.
Definition e_pk (e : entry) : key := r_id (e_rec e).

(** Duplicate elements removed, first occurrences kept. *)
Definition dedup_keys (l : list key) : list key := set_from key_eqb [] l.

(** The index keys one record contributes to an index: the value at the
    key path; for a multiEntry index over an array, one key per distinct
    element. *)
Definition index_keys (ix : index_def) (r : record) : list key :=
  match get_field (keyPath ix) (r_fields r) with
  | None => []
  | Some (KArr ks) => if multiEntry ix then dedup_keys ks else [KArr ks]
  | Some k => [k]
  end.

(** Entries of an index are ordered by index key, then by primary key. *)
Definition entry_leb (a b : entry) : bool :=
  match key_cmp (e_key a) (e_key b) with
  | Lt => true
  | Gt => false
  | Eq => key_leb (e_pk a) (e_pk b)
  end.

Fixpoint insert_entry (e : entry) (l : list entry) : list entry :=
  match l with
  | [] => [e]
  | x :: l' => if entry_leb e x then e :: l else x :: insert_entry e l'
  end.

Definition sort_entries (l : list entry) : list entry :=
  fold_right insert_entry [] l.

Definition store_entries (s : objectStore) : list entry :=
  map (fun r => mkEntry (r_id r) r) (records s).

Definition index_entries (s : objectStore) (ix : index_def) : list entry :=
  sort_entries
    (flat_map (fun r => map (fun k => mkEntry k r) (index_keys ix r)) (records s)).

(** What a request iterates or counts: the store itself or one of its
    indexes. *)
Inductive source : Type :=
| SStore
| SIndex (name : string) (ix : index_def).

Definition source_entries (s : objectStore) (src : source) : list entry :=
  match src with
  | SStore => store_entries s
  | SIndex _ ix => index_entries s ix
  end.

(** [source.count(query)] *)
Definition count_entries (s : objectStore) (src : source) (q : query_arg) : Z :=
  Z.of_nat (length (List.filter (fun e => in_query q (e_key e)) (source_entries s src))).

(** [index.getAllKeys(key)]: the primary keys of the entries whose index
    key is [k]. *)
Definition getAllKeys (s : objectStore) (ix : index_def) (k : key) : list key :=
  map e_pk (List.filter (fun e => key_eqb (e_key e) k) (index_entries s ix)).

(** [store.get(id)]: [None] stands for [undefined]. *)
Definition get (s : objectStore) (id : key) : option record :=
  find (fun r => key_eqb (r_id r) id) (records s).

(** [store.delete(id)], also what [cursor.delete()] does to the store. *)
Definition delete_record (id : key) (s : objectStore) : objectStore :=
  mkStore (List.filter (fun r => negb (key_eqb (r_id r) id)) (records s)) (indexes s).

(** *** Cursors *)

Inductive direction : Type := next | nextunique | prev | prevunique.

Definition is_unique (d : direction) : bool :=
  match d with
  | nextunique | prevunique => true
  | next | prev => false
  end.

(** The entries of the range in the order in which the cursor meets them. *)
Definition in_direction (d : direction) (l : list entry) : list entry :=
  match d with
  | next | nextunique => l
  | prev | prevunique => rev l
  end.

Definition candidates (s : objectStore) (src : source) (q : query_arg)
    (d : direction) : list entry :=
  in_direction d (List.filter (fun e => in_query q (e_key e)) (source_entries s src)).

Definition same_key (e x : entry) : bool := key_eqb (e_key x) (e_key e).

Fixpoint take_while {A} (p : A -> bool) (l : list A) : list A :=
  match l with
  | [] => []
  | x :: l' => if p x then x :: take_while p l' else []
  end.

Fixpoint drop_while {A} (p : A -> bool) (l : list A) : list A :=
  match l with
  | [] => []
  | x :: l' => if p x then drop_while p l' else l
  end.

(** A cursor that points at an entry: the entry, and the entries of the
    source that lie beyond it in the direction of the iteration.  The
    cursor request delivers [None] ([null]) when the iteration is over. *)
Definition cursor : Type := entry * list entry.

(** Position a cursor on the first of the entries [l] that lie ahead.  In
    direction [prevunique] the standard picks, among the entries that
    share the key found, the one with the lowest primary key. *)
Definition settle (d : direction) (l : list entry) : option cursor :=
  match l with
  | [] => None
  | e :: rest =>
      match d with
      | prevunique => Some (List.last (take_while (same_key e) rest) e, rest)
      | _ => Some (e, rest)
      end
  end.

(** [source.openCursor(query, direction)] *)
Definition openCursor (s : objectStore) (src : source) (q : query_arg)
    (d : direction) : option cursor :=
  settle d (candidates s src q d).

(** The entries a cursor may still reach: the unique directions skip the
    entries that share the current key. *)
Definition beyond (d : direction) (c : cursor) : list entry :=
  if is_unique d then drop_while (same_key (fst c)) (snd c) else snd c.

(** [cursor.continue()] *)
Definition continue (d : direction) (c : cursor) : option cursor :=
  settle d (beyond d c).

Fixpoint iterate (n : nat) (d : direction) (c : cursor) : option cursor :=
  match n with
  | O => Some c
  | S n' =>
      match continue d c with
      | None => None
      | Some c' => iterate n' d c'
      end
  end.

(** [cursor.advance(count)]: [count] is an [EnforceRange unsigned long],
    and the standard throws a TypeError when it is 0. *)
Definition advance (d : direction) (count : Z) (c : cursor)
    : completion (option cursor) :=
  if (0 <? count) && (count <=? 4294967295)
  then Return (iterate (Z.to_nat count) d c)
  else Throw TypeError.

(** [cursor.delete()]: the record under the cursor leaves the store, and
    with it every entry that refers to it; the cursor keeps its position. *)
Definition cursor_delete (s : objectStore) (c : cursor) : objectStore * cursor :=
  let id := e_pk (fst c) in
  (delete_record id s,
   (fst c, List.filter (fun x => negb (key_eqb (e_pk x) id)) (snd c))).

(** *** Transactions and the log of requests *)

Inductive mode : Type := readonly | readwrite.

(** The calls made on the substrate, in the order they are made. *)
Inductive call : Type :=
| CTransaction (table : string) (m : mode)
| CCount (src : source) (q : query_arg)
| COpenCursor (src : source) (q : query_arg) (d : direction)
| CAdvance (n : Z)
| CContinue
| CDelete (id : key)
| CGetAllKeys (index : string) (k : key)
| CGet (id : key).

(** [db.transaction(table, mode).objectStore(table)]: a NotFoundError when
    the database has no such object store. *)
Definition transaction (db : database) (table : string) : completion objectStore :=
  match db !! table with
  | Some s => Return s
  | None => Throw NotFoundError
  end.

End IDB.

(** ** The class [Indb] *)

Module Indb.
Import IDB.

(** What an asynchronous method leaves behind: the state of the promise it
    returned, the database once its transaction has finished, and the
    calls it made on the substrate. *)
Record run (A : Type) : Type := mkRun {
  settled : promise A;
  db_after : database;
  calls : list call
}.
Arguments mkRun {A} settled db_after calls.
Arguments settled {A} r.
Arguments db_after {A} r.
Arguments calls {A} r.

(** *** [filter(value)] *)

(** The five [if]s of the source in order; falling off the end of the
    function returns [undefined].  [typeof NaN] is ["number"], so [NaN]
    goes to [IDBKeyRange.only]; [typeof null] is ["object"], so [null]
    reaches [value.start], which throws. *)
Definition filter (value : jsval key) : completion query_arg :=
  match value with
  | JUndefined => Return Null
  | JString s =>
      match only (Valid (KStr s)) with Return r => Return (Range r) | Throw e => Throw e end
  | JNumber n =>
      match only (Valid (KNum n)) with Return r => Return (Range r) | Throw e => Throw e end
  | JNaN =>
      match only Invalid with Return r => Return (Range r) | Throw e => Throw e end
  | JNull => Throw TypeError
  | JObject (Some s) (Some e) =>
      match bound s e false false with
      | Return r => Return (Range r)
      | Throw err => Throw err
      end
  | JObject (Some s) None =>
      match lowerBound s false with Return r => Return (Range r) | Throw e => Throw e end
  | JObject None (Some e) =>
      match upperBound e false with Return r => Return (Range r) | Throw e => Throw e end
  | JObject None None => Return Undefined
  | JBool _ => Return Undefined
  end.

Section Engine.

(** The Unicode tables of the JavaScript engine: the properties [\p{L}]
    and [\p{N}] of a code point, and [String.prototype.toLowerCase]. *)
Variable is_L : N -> bool.
Variable is_N : N -> bool.
Variable toLowerCase : jsstring -> jsstring.

(** *** [tokens(string)] *)

Definition word_char (c : N) : bool := is_L c || is_N c.

(** All matches of [/[\p{L}\p{N}]+/gu] in a sequence of code points, left
    to right: the maximal runs of letters and numbers.  [run] is the
    match in progress. *)
Fixpoint scan (run : list N) (s : list N) : list (list N) :=
  match s with
  | [] => match run with [] => [] | _ => [run] end
  | c :: s' =>
      if word_char c then scan (run ++ [c]) s'
      else match run with
           | [] => scan [] s'
           | _ => run :: scan [] s'
           end
  end.

(** [string.match(re)] with a global expression: the matched substrings,
    [None] ([null]) when there is no match. *)
Definition match_words (s : jsstring) : option (list jsstring) :=
  match scan [] (code_points s) with
  | [] => None
  | ws => Some (map units ws)
  end.

Definition tokens (string : jsval key) : list jsstring :=
  match string with
  | JString [] => []                       (* [!string] *)
  | JString s =>
      match match_words (toLowerCase s) with
      | Some words => new_Set jsstring_eqb words
      | None => []
      end
  | _ => []                                (* [typeof string !== "string"] *)
  end.

(** *** [search(table, index, query, op)] *)

(** [Set] compares with SameValueZero: numbers and strings by value, two
    arrays (objects) never. *)
Definition same_value_zero (a b : key) : bool :=
  match a, b with
  | KNum x, KNum y => Z.eqb x y
  | KStr x, KStr y => jsstring_eqb x y
  | _, _ => false
  end.

(** The loop of the "and" branch over [resultsArray[1..]]. *)
Fixpoint intersect (finalIds : list key) (rest : list (list key)) : list key :=
  match rest with
  | [] => finalIds
  | r :: rest' =>
      let currentSet := new_Set same_value_zero r in
      let finalIds' := List.filter (has same_value_zero currentSet) finalIds in
      match finalIds' with
      | [] => []                           (* [break] *)
      | _ => intersect finalIds' rest'
      end
  end.

Definition combine (op : string) (resultsArray : list (list key)) : list key :=
  if String.eqb op "or" then
    new_Set same_value_zero (concat resultsArray)
  else
    match resultsArray with
    | [] => []
    | first :: rest => intersect first rest
    end.

Definition search (db : database) (table index : string) (query : jsval key)
    (op : string) : run (list (option record)) :=
  let words := tokens query in
  match words with
  | [] => mkRun (Fulfilled []) db []
  | _ =>
      let log := [CTransaction table readonly] in
      match transaction db table with
      | Throw e => mkRun (Rejected e) db log
      | Return store =>
          match indexes store !! index with
          | None => mkRun (Rejected (IndexNotFound index table)) db log
          | Some i =>
              let resultsArray := map (fun word => getAllKeys store i (KStr word)) words in
              let log := log ++ map (fun word => CGetAllKeys index (KStr word)) words in
              let finalIds := combine op resultsArray in
              match finalIds with
              | [] => mkRun (Fulfilled []) db log
              | _ =>
                  mkRun (Fulfilled (map (get store) finalIds)) db
                        (log ++ map CGet finalIds)
              end
          end
      end
  end.

End Engine.

(** *** [query(input)] and its three entry points *)

(** What [query] makes of [input.type]: it deletes when the type is
    ["delete"], counts when it is ["count"], and collects records for any
    other type. *)
Inductive qtype : Type := TSelect | TCount | TDelete.

(** The query descriptor, the rest of the properties of [input]; [None]
    is an absent ([undefined]) property. *)
Record descriptor : Type := mkDescriptor {
  table : string;
  index : option string;
  value : jsval key;
  offset : option Z;
  limit : option Z;
  direction : option IDB.direction
}.

(** What [ok] is called with: the array [data] or the number [count]. *)
Inductive answer : Type :=
| Records (data : list record)
| Number (count : Z).

(** The variables the cursor handler closes over. *)
Record closure : Type := mkClosure {
  count_var : Z;
  data_var : list record;
  advanceFlag : bool
}.

Definition result (ty : qtype) (st : closure) : answer :=
  match ty with
  | TDelete => Number (count_var st)
  | _ => Records (data_var st)
  end.

Definition is_delete (ty : qtype) : bool :=
  match ty with TDelete => true | _ => false end.

(** [request.onsuccess], called with the cursor ([None] is [null]).  Every
    call the handler makes on the cursor re-enters it with the next cursor;
    [fuel] bounds the number of entries into the handler.  An exception
    that leaves the handler leaves the promise pending. *)
Fixpoint onsuccess (fuel : nat) (ty : qtype) (input : descriptor) (dir : IDB.direction)
    (store : objectStore) (st : closure) (log : list call) (cur : option cursor)
    : option (promise answer * objectStore * list call) :=
  match fuel with
  | O => None
  | S fuel' =>
      match cur with
      | None => Some (Fulfilled (result ty st), store, log)
      | Some c =>
          match offset input, advanceFlag st with
          | Some off, false =>
              let st := mkClosure (count_var st) (data_var st) true in
              let log := log ++ [CAdvance off] in
              match advance dir off c with
              | Throw e => Some (Pending e, store, log)
              | Return cur' => onsuccess fuel' ty input dir store st log cur'
              end
          | _, _ =>
              let '(store, c, data, log) :=
                if is_delete ty then
                  let '(store', c') := cursor_delete store c in
                  (store', c', data_var st, log ++ [CDelete (e_pk (fst c))])
                else
                  (store, c, data_var st ++ [e_rec (fst c)], log) in
              let st := mkClosure (count_var st + 1) data (advanceFlag st) in
              match limit input with
              | Some lim =>
                  if count_var st >=? lim
                  then Some (Fulfilled (result ty st), store, log)
                  else onsuccess fuel' ty input dir store st (log ++ [CContinue])
                                 (continue dir c)
              | None =>
                  onsuccess fuel' ty input dir store st (log ++ [CContinue])
                            (continue dir c)
              end
          end
      end
  end.

(** Entries into the handler that an iteration over [l] entries can need. *)
Definition enough (l : list entry) : nat := S (S (length l)).

(** The transaction commits when the promise is settled; a handler that
    throws aborts it, which undoes its deletions. *)
Definition finish (db : database) (table : string)
    (r : promise answer * objectStore * list call) : run answer :=
  let '(p, store, log) := r in
  match p with
  | Pending _ => mkRun p db log
  | _ => mkRun p (<[table := store]> db) log
  end.

(** [None] would mean that the handler was entered more than [enough]
    times; [query_returns] shows that it never is. *)
Definition query (db : database) (ty : qtype) (input : descriptor)
    : option (run answer) :=
  let mode := if is_delete ty then readwrite else readonly in
  let log := [CTransaction (table input) mode] in
  match transaction db (table input) with
  | Throw e => Some (mkRun (Rejected e) db log)
  | Return store =>
      let source :=
        match index input with
        | Some name =>
            match indexes store !! name with
            | Some i => SIndex name i
            | None => SStore
            end
        | None => SStore
        end in
      match ty with
      | TCount =>
          match filter (value input) with
          | Throw e => Some (mkRun (Rejected e) db log)
          | Return q =>
              Some (mkRun (Fulfilled (Number (count_entries store source q))) db
                          (log ++ [CCount source q]))
          end
      | _ =>
          let dir := match direction input with Some d => d | None => next end in
          match filter (value input) with
          | Throw e => Some (mkRun (Rejected e) db log)
          | Return q =>
              match onsuccess (enough (candidates store source q dir)) ty input dir
                              store (mkClosure 0 [] false)
                              (log ++ [COpenCursor source q dir])
                              (openCursor store source q dir) with
              | Some r => Some (finish db (table input) r)
              | None => None
              end
          end
      end
  end.

(** What a caller passes to [select], [count] and [remove]: the
    properties of a descriptor, and possibly a [type] of its own
    ([given_type] is [None] for an object without the property).  [query]
    compares [input.type] with ["delete"] and ["count"] by [==]; a value
    that is not a string behaves as the string it converts to. *)
Record query_input : Type := mkInput {
  given_type : option string;
  properties : descriptor
}.

(** An object with the properties of a descriptor and no [type]. *)
Definition plain (d : descriptor) : query_input := mkInput None d.
Coercion plain : descriptor >-> query_input.

(** [{type: written, ...input}]: the properties of [input] come last, so
    a [type] of [input] replaces the one written. *)
Definition spread (written : string) (input : query_input) : string :=
  match given_type input with
  | Some type => type
  | None => written
  end.

(** The three ways [query] goes, by the tests [input.type == "delete"]
    and [input.type == "count"]. *)
Definition type_of (type : string) : qtype :=
  if String.eqb type "delete" then TDelete
  else if String.eqb type "count" then TCount
  else TSelect.

Definition select (db : database) (input : query_input) :=
  query db (type_of (spread "select" input)) (properties input).
Definition count (db : database) (input : query_input) :=
  query db (type_of (spread "count" input)) (properties input).
Definition remove (db : database) (input : query_input) :=
  query db (type_of (spread "delete" input)) (properties input).

End Indb.

(** ** Vocabulary of the statements *)

Module Vocabulary.
Import IDB Indb.

(** A descriptor with one property replaced. *)
Definition with_value (d : descriptor) (v : jsval key) : descriptor :=
  mkDescriptor (table d) (index d) v (offset d) (limit d) (direction d).
Definition with_index (d : descriptor) (i : option string) : descriptor :=
  mkDescriptor (table d) i (value d) (offset d) (limit d) (direction d).
Definition with_page (d : descriptor) (off lim : option Z) : descriptor :=
  mkDescriptor (table d) (index d) (value d) off lim (direction d).

(** An input with the properties of [d] and the property [type]. *)
Definition with_type (d : descriptor) (type : string) : query_input :=
  mkInput (Some type) d.

(** A key matches a [value] in the words of the specification: every key
    when the value is absent, the key itself for a text or a number, the
    keys from [start] on, up to [end], or between the two for an object
    with these properties. *)
Definition matches (v : jsval key) (k : key) : bool :=
  match v with
  | JNumber n => key_eqb k (KNum n)
  | JString s => key_eqb k (KStr s)
  | JObject (Some (Valid s)) (Some (Valid e)) => key_leb s k && key_leb k e
  | JObject (Some (Valid s)) None => key_leb s k
  | JObject None (Some (Valid e)) => key_leb k e
  | _ => true
  end.

(** A run of letters and numbers as text: what a token is. *)
Definition word (is_L is_N : N -> bool) (w : jsstring) : Prop :=
  w <> [] /\ exists run, w = units run /\ run <> []
                         /\ forallb (word_char is_L is_N) run = true.

(** [{table}] *)
Definition whole_table (t : string) : descriptor :=
  mkDescriptor t None JUndefined None None None.

(** A descriptor with [offset] and [limit] removed. *)
Definition unpaged (d : descriptor) : descriptor := with_page d None None.

(** The direction a descriptor asks for ([input.direction || "next"]). *)
Definition direction_of (d : descriptor) : IDB.direction :=
  match direction d with Some x => x | None => next end.

(** The source a descriptor resolves to on a store. *)
Definition source_of (store : objectStore) (d : descriptor) : source :=
  match index d with
  | Some name =>
      match indexes store !! name with
      | Some i => SIndex name i
      | None => SStore
      end
  | None => SStore
  end.

Definition map_promise {A B} (f : A -> B) (p : promise A) : promise B :=
  match p with
  | Fulfilled a => Fulfilled (f a)
  | Rejected e => Rejected e
  | Pending e => Pending e
  end.

(** The size of an answer: the length of the array or the number itself. *)
Definition size_of (a : answer) : Z :=
  match a with
  | Records l => Z.of_nat (length l)
  | Number n => n
  end.

(** The entries a cursor request can still deliver, the current one
    included. *)
Definition cursor_size (cur : option cursor) : nat :=
  match cur with
  | None => O
  | Some c => S (length (snd c))
  end.

(** The entries a cursor stops on when it is continued until it is
    exhausted and nothing is deleted meanwhile. *)
Fixpoint walk (fuel : nat) (d : IDB.direction) (cur : option cursor) : list entry :=
  match fuel with
  | O => []
  | S fuel' =>
      match cur with
      | None => []
      | Some c => fst c :: walk fuel' d (continue d c)
      end
  end.
Definition walk_all (d : IDB.direction) (cur : option cursor) : list entry :=
  walk (cursor_size cur) d cur.

(** The part of the entries ahead that the handler acts on when [count]
    actions are done already: it acts, then compares with the limit. *)
Definition quota {A} (lim : option Z) (count : Z) (l : list A) : list A :=
  match lim with
  | None => l
  | Some n => firstn (Z.to_nat (Z.max 1 (n - count))) l
  end.

(** The argument [cursor.advance] accepts. *)
Definition valid_count (n : Z) : bool := (0 <? n) && (n <=? 4294967295).

(** The entries of a page: [off] entries skipped, then the quota. *)
Definition page {A} (off lim : option Z) (all : list A) : list A :=
  quota lim 0 (match off with
               | None => all
               | Some n => skipn (Z.to_nat n) all
               end).

(** The entries a descriptor iterates over on a store, in the order in
    which a read-only cursor stops on them. *)
Definition visited (store : objectStore) (d : descriptor) (q : query_arg) : list entry :=
  walk_all (direction_of d) (openCursor store (source_of store d) q (direction_of d)).

(** The store once the records with the primary keys [ids] are deleted. *)
Definition delete_all (ids : list key) (s : objectStore) : objectStore :=
  fold_left (fun s id => delete_record id s) ids s.

(** The store without the records whose primary key is among [ids]. *)
Definition without (ids : list key) (s : objectStore) : objectStore :=
  mkStore (List.filter (fun r => negb (existsb (key_eqb (r_id r)) ids)) (records s))
          (indexes s).

(** What a run shows to the caller and leaves in the database. *)
Definition effect {A} (r : option (run A)) : option (promise A * database) :=
  option_map (fun r => (settled r, db_after r)) r.

(** A call that writes to the database. *)
Definition writes (c : call) : bool :=
  match c with
  | CDelete _ => true
  | CTransaction _ readwrite => true
  | _ => false
  end.

(** A call that fetches a record. *)
Definition is_get (c : call) : bool :=
  match c with CGet _ => true | _ => false end.

(** A primary key that is a number or a string. *)
Definition scalar (k : key) : bool :=
  match k with KArr _ => false | _ => true end.


(** The per-token key sets of a search. *)
Definition key_sets (store : objectStore) (ix : index_def) (words : list jsstring)
    : list (list key) :=
  map (fun w => getAllKeys store ix (KStr w)) words.

(** The keys of [first] that are in every one of the sets [rest]. *)
Definition in_all (first : list key) (rest : list (list key)) : list key :=
  List.filter (fun id => forallb (fun r => existsb (key_eqb id) r) rest) first.

(** A call that walks a cursor. *)
Definition iterates (c : call) : bool :=
  match c with
  | COpenCursor _ _ _ | CAdvance _ | CContinue | CDelete _ => true
  | _ => false
  end.

(** The Unicode tables on the ASCII range: letters, digits, lower case. *)
Definition ascii_upper (c : N) : bool := ((65 <=? c) && (c <=? 90))%N.
Definition ascii_is_L (c : N) : bool :=
  (ascii_upper c || ((97 <=? c) && (c <=? 122)))%N.
Definition ascii_is_N (c : N) : bool := ((48 <=? c) && (c <=? 57))%N.
Definition ascii_toLowerCase (s : jsstring) : jsstring :=
  map (fun c => if ascii_upper c then (c + 32)%N else c) s.
Definition ascii_lower (c : N) : N := if ascii_upper c then (c + 32)%N else c.
Definition is_ascii (s : jsstring) : Prop := Forall (fun c => (c < 128)%N) s.

(** Tables that are the Unicode tables on the ASCII range. *)
Definition agrees_with_ascii (is_L is_N : N -> bool)
    (toLowerCase : jsstring -> jsstring) : Prop :=
  (forall c, (c < 128)%N -> is_L c = ascii_is_L c)
  /\ (forall c, (c < 128)%N -> is_N c = ascii_is_N c)
  /\ (forall s, is_ascii s -> toLowerCase s = ascii_toLowerCase s).

(** *** The tokenizer in the words of the specification

    "Splits on runs of non-letter/non-digit characters, lowercases, and
    removes duplicates while preserving first-occurrence order." *)

Definition separator (is_L is_N : N -> bool) (c : N) : bool :=
  negb (is_L c || is_N c).

(** The pieces of a sequence of code points between the separators, one
    more than there are separators. *)
Fixpoint split_at (sep : N -> bool) (s : list N) : list (list N) :=
  match s with
  | [] => [[]]
  | c :: s' =>
      if sep c then [] :: split_at sep s'
      else match split_at sep s' with
           | p :: ps => (c :: p) :: ps
           | [] => [[c]]
           end
  end.

Definition nonempty (s : list N) : bool :=
  match s with [] => false | _ => true end.

(** Splitting a string on runs of separators leaves the pieces that are
    not empty. *)
Definition split_on_runs (sep : N -> bool) (s : jsstring) : list jsstring :=
  map units (List.filter nonempty (split_at sep (code_points s))).

(** The elements of [l] that do not occur earlier in [l]. *)
Definition first_occurrences (l : list jsstring) : list jsstring :=
  map snd (List.filter
             (fun iw => negb (existsb (jsstring_eqb (snd iw)) (firstn (fst iw) l)))
             (List.combine (seq 0 (length l)) l)).

(** The words of the specification in their order: split, lower-case
    the pieces, keep the first occurrences. *)
Definition spec_tokens (is_L is_N : N -> bool) (toLowerCase : jsstring -> jsstring)
    (s : jsstring) : list jsstring :=
  first_occurrences (map toLowerCase (split_on_runs (separator is_L is_N) s)).

(** The same steps with the lower-casing first: the string is lower-cased
    as a whole and then split. *)
Definition lowered_tokens (is_L is_N : N -> bool) (toLowerCase : jsstring -> jsstring)
    (s : jsstring) : list jsstring :=
  first_occurrences (split_on_runs (separator is_L is_N) (toLowerCase s)).

(** Tables that are the Unicode tables on ASCII and on U+0130, the
    capital I with a dot above: it is a letter, and its lower case is [i]
    followed by the combining dot U+0307, which is a mark, not a letter. *)
Definition dotted_is_L (c : N) : bool := (ascii_is_L c || (c =? 304))%N.
Definition dotted_toLowerCase (s : jsstring) : jsstring :=
  flat_map (fun c => if (c =? 304)%N then [105; 775]%N
                     else if ascii_upper c then [(c + 32)%N] else [c]) s.

(** *** A sample database: a table of songs

    [title] holds the token array of the song's title and is indexed by
    the multiEntry index ["title"]; [shop] is indexed by ["shop"]. *)
Definition song (id : Z) (title : list string) (shop : string) : record :=
  mkRecord (KNum id)
    [("title"%string, KArr (map (fun w => KStr (cps w)) title));
     ("shop"%string, KStr (cps shop))].

Definition song1 : record := song 1 ["my"; "song"]%string "a".
Definition song2 : record := song 2 ["my"; "super"; "song"]%string "a".
Definition song3 : record := song 3 ["rock"]%string "b".

Definition songs : objectStore :=
  mkStore [song1; song2; song3]
    (<["title"%string := mkIndex "title" false true]>
       (<["shop"%string := mkIndex "shop" false false]> ∅)).

Definition sample_db : database := <["songs"%string := songs]> ∅.


(** [{table: "songs"}] *)
Definition all_songs : descriptor :=
  mkDescriptor "songs" None JUndefined None None None.

(** [{table: "songs", index: "title", value: {start: "my", end: "song"},
    offset: 1, limit: 1, direction: "prev"}] *)
Definition some_songs : descriptor :=
  mkDescriptor "songs" (Some "title"%string)
    (JObject (Some (Valid (KStr (cps "my")))) (Some (Valid (KStr (cps "song")))))
    (Some 1) (Some 1) (Some prev).

(** [{table: "songs", index: "title", direction: "nextunique"}] *)
Definition songs_by_word : descriptor :=
  mkDescriptor "songs" (Some "title"%string) JUndefined None None (Some nextunique).

End Vocabulary.

(** ** More of the substrate: reads by key, writes and the key generator *)

Module IDBData.
Import IDB.

(** What the data methods of the class fail with: the exceptions of
    [error], a ConstraintError of the substrate, and the strings the
    class throws itself. *)
Inductive exn : Type :=
| DOM (e : error)
| ConstraintError
| NotObject                          (* "not object" *)
| NotIndex (table index : string)    (* `not index. table ${table}. index: ${index}` *)
| NotDate (table : string) (id : key).  (* `not date. table: ${table}. number: ${id}` *)

(** A request or a promise that has finished. *)
Inductive outcome (A : Type) : Type :=
| Resolved (a : A)
| Failed (e : exn).
Arguments Resolved {A} a.
Arguments Failed {A} e.

(** The value of a record: a JavaScript object, as its properties in
    order (properties that hold valid keys). *)
Definition item : Type := list (string * key).

(** The key generator of an object store and the key path the store was
    created with ([createObjectStore(table, {keyPath: data.increment,
    autoIncrement: true})]; [None] when [increment] is not given). *)
Record keyGenerator : Type := mkGenerator {
  key_path : option string;
  current_number : Z
}.

(** An object store with its generator, and the open connection. *)
Definition stored : Type := objectStore * keyGenerator.
Definition connection : Type := gmap string stored.

(** The object stores of a connection, as [select] and [search] see them. *)
Definition stores (c : connection) : database := fst <$> c.

(** [index.getAll(key)]: the records of the entries with that index key,
    in order of primary key; [index.get(key)]: the first of them. *)
Definition index_getAll (s : objectStore) (ix : index_def) (k : key) : list record :=
  map e_rec (List.filter (fun e => key_eqb (e_key e) k) (index_entries s ix)).
Definition index_get (s : objectStore) (ix : index_def) (k : key) : option record :=
  hd_error (index_getAll s ix k).

(** [store.clear()] *)
Definition clear_store (s : objectStore) : objectStore := mkStore [] (indexes s).

(** The largest number a key generator hands out: 2^53. *)
Definition max_generated : Z := 9007199254740992.

(** "Possibly update the key generator" for an explicit key. *)
Definition possibly_update (g : keyGenerator) (k : key) : keyGenerator :=
  match k with
  | KNum n =>
      let v := Z.min n max_generated in
      if current_number g <=? v then mkGenerator (key_path g) (v + 1) else g
  | _ => g
  end.

(** "Generate a key": a ConstraintError once the generator is used up. *)
Definition generate (g : keyGenerator) : outcome (Z * keyGenerator) :=
  if max_generated <? current_number g then Failed ConstraintError
  else Resolved (current_number g, mkGenerator (key_path g) (current_number g + 1)).

(** Assignment to a property: in place when the object has it, at the end
    otherwise. *)
Fixpoint set_field (n : string) (v : key) (fs : item) : item :=
  match fs with
  | [] => [(n, v)]
  | (m, w) :: fs' =>
      if String.eqb m n then (m, v) :: fs' else (m, w) :: set_field n v fs'
  end.

(** The key under which a value is stored, the value as stored and the
    generator afterwards: the key at the key path when the value has one,
    a generated key otherwise, which is injected at the key path. *)
Definition key_for (g : keyGenerator) (value : item)
    : outcome (key * item * keyGenerator) :=
  match key_path g with
  | Some kp =>
      match get_field kp value with
      | Some k => Resolved (k, value, possibly_update g k)
      | None =>
          match generate g with
          | Resolved (n, g') => Resolved (KNum n, set_field kp (KNum n) value, g')
          | Failed e => Failed e
          end
      end
  | None =>
      match generate g with
      | Resolved (n, g') => Resolved (KNum n, value, g')
      | Failed e => Failed e
      end
  end.

Definition has_key (id : key) (s : objectStore) : bool :=
  existsb (fun r => key_eqb (r_id r) id) (records s).

(** The records stay in ascending order of primary key. *)
Fixpoint insert_record (r : record) (l : list record) : list record :=
  match l with
  | [] => [r]
  | x :: l' => if key_ltb (r_id r) (r_id x) then r :: l else x :: insert_record r l'
  end.

(** A unique index refuses a record one of whose index keys another
    record has already. *)
Definition holds_key (ix : index_def) (k : key) (r : record) : bool :=
  existsb (key_eqb k) (index_keys ix r).
Definition conflicts (ix : index_def) (r : record) (others : list record) : bool :=
  unique ix && existsb (fun k => existsb (holds_key ix k) others) (index_keys ix r).
Definition violates_unique (s : objectStore) (r : record) : bool :=
  existsb (fun p => conflicts (snd p) r (records s)) (map_to_list (indexes s)).

(** "Store a record into an object store": [store.add(value)] with
    [no_overwrite], [store.put(value)] without.  The request succeeds
    with the key or fails with a ConstraintError. *)
Definition store_record (no_overwrite : bool) (sg : stored) (value : item)
    : outcome (key * stored) :=
  match key_for (snd sg) value with
  | Failed e => Failed e
  | Resolved (k, value', g') =>
      if no_overwrite && has_key k (fst sg) then Failed ConstraintError
      else
        let s1 := delete_record k (fst sg) in
        let r := mkRecord k value' in
        if violates_unique s1 r then Failed ConstraintError
        else Resolved (k, (mkStore (insert_record r (records s1)) (indexes s1), g'))
  end.

End IDBData.

(** ** The data methods of the class *)

Module IndbData.
Import IDB IDBData.

(** What a data method leaves behind: how its promise finished and the
    connection once its transaction has committed or aborted. *)
Record after (A : Type) : Type := mkAfter {
  answer_of : outcome A;
  conn_after : connection
}.
Arguments mkAfter {A} answer_of conn_after.
Arguments answer_of {A} a.
Arguments conn_after {A} a.

(** [this.db.transaction([table], mode).objectStore(table)] *)
Definition open_store (c : connection) (table : string) : outcome stored :=
  match c !! table with
  | Some sg => Resolved sg
  | None => Failed (DOM NotFoundError)
  end.

(** The [method] of [write]: ["add"] or ["put"]. *)
Inductive method : Type := Add | Put.
Definition no_overwrite (m : method) : bool :=
  match m with Add => true | Put => false end.

(** The [data] of [write]: one object or an array of objects. *)
Inductive payload : Type :=
| Single (value : item)
| Array (values : list item).

(** What [write] resolves with: the key of the record, or [true]. *)
Inductive written : Type :=
| Key (k : key)
| Completed.

(** [data.forEach(item => store[method](item))]: the requests are carried
    out in order; the first that fails aborts the transaction. *)
Fixpoint write_each (m : method) (sg : stored) (values : list item) : outcome stored :=
  match values with
  | [] => Resolved sg
  | v :: vs =>
      match store_record (no_overwrite m) sg v with
      | Failed e => Failed e
      | Resolved (_, sg') => write_each m sg' vs
      end
  end.

Definition write (c : connection) (table : string) (data : payload) (m : method)
    : after written :=
  match open_store c table with
  | Failed e => mkAfter (Failed e) c
  | Resolved sg =>
      match data with
      | Array values =>
          match write_each m sg values with
          | Resolved sg' => mkAfter (Resolved Completed) (<[table := sg']> c)
          | Failed e => mkAfter (Failed e) c
          end
      | Single value =>
          match store_record (no_overwrite m) sg value with
          | Resolved (k, sg') => mkAfter (Resolved (Key k)) (<[table := sg']> c)
          | Failed e => mkAfter (Failed e) c
          end
      end
  end.

Definition add (c : connection) (table : string) (data : payload) : after written :=
  write c table data Add.

Definition put (c : connection) (table : string) (data : payload) : after written :=
  write c table data Put.

(** [delete(table, id)] resolves with [undefined]. *)
Definition delete (c : connection) (table : string) (id : key) : after unit :=
  match open_store c table with
  | Failed e => mkAfter (Failed e) c
  | Resolved sg =>
      mkAfter (Resolved tt) (<[table := (delete_record id (fst sg), snd sg)]> c)
  end.

Definition deleteMany (c : connection) (table : string) (data : list key) : after bool :=
  match open_store c table with
  | Failed e => mkAfter (Failed e) c
  | Resolved sg =>
      mkAfter (Resolved true)
        (<[table := (fold_left (fun s item => delete_record item s) data (fst sg), snd sg)]> c)
  end.

(** Assignment of the properties of [source] to [target], in order:
    [{...target, ...source}]. *)
Fixpoint merge (target source : item) : item :=
  match source with
  | [] => target
  | (n, v) :: source' => merge (set_field n v target) source'
  end.

Definition update (c : connection) (table : string) (id : key) (data : item)
    : after bool :=
  match open_store c table with
  | Failed e => mkAfter (Failed e) c
  | Resolved sg =>
      match IDB.get (fst sg) id with
      | None => mkAfter (Failed (NotDate table id)) c
      | Some result =>
          let newData := merge (r_fields result) data in
          match store_record false sg newData with
          | Resolved (_, sg') => mkAfter (Resolved true) (<[table := sg']> c)
          | Failed e => mkAfter (Failed e) c
          end
      end
  end.

Definition clear (c : connection) (table : string) : after unit :=
  match open_store c table with
  | Failed e => mkAfter (Failed e) c
  | Resolved sg => mkAfter (Resolved tt) (<[table := (clear_store (fst sg), snd sg)]> c)
  end.

(** [get(table, id)]: [None] is [undefined]. *)
Definition get (c : connection) (table : string) (id : key) : after (option record) :=
  match open_store c table with
  | Failed e => mkAfter (Failed e) c
  | Resolved sg => mkAfter (Resolved (IDB.get (fst sg) id)) c
  end.

(** What [find] resolves with: one record or [undefined], or an array. *)
Inductive found : Type :=
| One (r : option record)
| All (l : list record).

Definition find (c : connection) (table index : string) (value : key)
    (method : string) : after found :=
  match open_store c table with
  | Failed e => mkAfter (Failed e) c
  | Resolved sg =>
      match indexes (fst sg) !! index with
      | None => mkAfter (Failed (NotIndex table index)) c
      | Some i =>
          mkAfter (Resolved (if String.eqb method "by"
                             then One (index_get (fst sg) i value)
                             else All (index_getAll (fst sg) i value))) c
      end
  end.

Definition findBy (c : connection) (table index : string) (value : key) : after found :=
  find c table index value "by".

Definition getAll (c : connection) (table : string) : after (list record) :=
  match open_store c table with
  | Failed e => mkAfter (Failed e) c
  | Resolved sg => mkAfter (Resolved (records (fst sg))) c
  end.

Definition findAll (c : connection) (table index : string) (value : key) : after found :=
  find c table index value "all".

(** [Array.from(this.db.objectStoreNames)] *)
Definition objectStoreNames (c : connection) : list string :=
  map fst (map_to_list c).

(** [exportData()]: the object [data] gets one property per object store. *)
Definition exportData (c : connection) : after (gmap string (list record)) :=
  mkAfter
    (fold_left
       (fun acc name =>
          match acc with
          | Failed e => Failed e
          | Resolved data =>
              match answer_of (getAll c name) with
              | Resolved rows => Resolved (<[name := rows]> data)
              | Failed e => Failed e
              end
          end)
       (objectStoreNames c) (Resolved ∅))
    c.

(** The loop of [importData] over [Object.keys(json)]: every call commits
    on its own, so a failing [put] leaves what was done before it. *)
Fixpoint import_each (c : connection) (entries : list (string * payload))
    (overwrite : bool) : after bool :=
  match entries with
  | [] => mkAfter (Resolved true) c
  | (key, data) :: rest =>
      match c !! key with
      | None => import_each c rest overwrite          (* "not table" is logged *)
      | Some _ =>
          let cleared := if overwrite then clear c key else mkAfter (Resolved tt) c in
          match answer_of cleared with
          | Failed e => mkAfter (Failed e) (conn_after cleared)
          | Resolved _ =>
              let w := put (conn_after cleared) key data in
              match answer_of w with
              | Failed e => mkAfter (Failed e) (conn_after w)
              | Resolved _ => import_each (conn_after w) rest overwrite
              end
          end
      end
  end.

(** The [json] of [importData] as the method inspects it: a value whose
    [typeof] is not ["object"]; [null], whose [typeof] is ["object"]; or
    an object, with its properties in the order of [Object.keys]. *)
Inductive json_value : Type :=
| NotAnObject
| JsonNull
| Object (entries : list (string * payload)).

(** [importData(json, overwrite)]: the method throws "not object" itself;
    for [null] it is [Object.keys(json)] that throws, a TypeError. *)
Definition importData (c : connection) (json : json_value) (overwrite : bool)
    : after bool :=
  match json with
  | NotAnObject => mkAfter (Failed NotObject) c
  | JsonNull => mkAfter (Failed (DOM TypeError)) c
  | Object entries => import_each c entries overwrite
  end.

End IndbData.

(** ** Vocabulary of the statements about the data methods *)

Module DataVocabulary.
Import IDB Indb IDBData IndbData Vocabulary.

Definition keys_of (s : objectStore) : list key := map r_id (records s).

(** The primary keys of the store are strictly ascending (hence unique). *)
Definition ascending (s : objectStore) : Prop :=
  StronglySorted key_lt (keys_of s).

(** No two records share a key of a unique index. *)
Definition unique_respected (s : objectStore) : Prop :=
  forall name ix r r' k,
    indexes s !! name = Some ix -> unique ix = true ->
    In r (records s) -> In r' (records s) ->
    In k (index_keys ix r) -> In k (index_keys ix r') -> r_id r = r_id r'.

(** With a key path, every record holds its primary key at the key path. *)
Definition inline (sg : stored) : Prop :=
  forall kp r, key_path (snd sg) = Some kp -> In r (records (fst sg)) ->
    get_field kp (r_fields r) = Some (r_id r).

(** The generator is ahead of every number that is a primary key. *)
Definition generator_ahead (sg : stored) : Prop :=
  forall n, In (KNum n) (keys_of (fst sg)) ->
    Z.min n max_generated < current_number (snd sg).

(** The state in which the substrate keeps an object store. *)
Definition well_formed (sg : stored) : Prop :=
  ascending (fst sg) /\ unique_respected (fst sg) /\ inline sg /\ generator_ahead sg.

(** Every object store of the connection is well formed. *)
Definition healthy (c : connection) : Prop :=
  forall t sg, c !! t = Some sg -> well_formed sg.

(** A number or string as the [value] of a query descriptor. *)
Definition as_value (k : key) : jsval key :=
  match k with
  | KNum n => JNumber n
  | KStr s => JString s
  | KArr _ => JObject None None
  end.

(** [{table}], [{table, value}] and [{table, index, value}] *)
Definition whole (t : string) : descriptor :=
  mkDescriptor t None JUndefined None None None.
Definition by_key (t : string) (k : key) : descriptor :=
  mkDescriptor t None (as_value k) None None None.
Definition by_index (t i : string) (k : key) : descriptor :=
  mkDescriptor t (Some i) (as_value k) None None None.

Definition option_list {A} (o : option A) : list A :=
  match o with Some a => [a] | None => [] end.

(** The stored record of a value once its key is settled. *)
Definition record_of (k : key) (value : item) : record := mkRecord k value.

(** The JSON that [exportData] produces for a table, as [importData]
    takes it: the array of the values of the records. *)
Definition exported (sg : stored) : payload :=
  Array (map r_fields (records (fst sg))).

(** The rows of every table, as [exportData] collects them. *)
Definition rows_of (sg : stored) : list record := records (fst sg).
Definition all_rows (c : connection) : gmap string (list record) := rows_of <$> c.

(** The object that [exportData] resolves with as the [json] of
    [importData]: per table the array of the values of its records, the
    tables in the order of the properties of the object. *)
Definition as_json (data : gmap string (list record)) : list (string * payload) :=
  map (fun p => (fst p, Array (map r_fields (snd p)))) (map_to_list data).

(** Two connections with the same tables, the tables with the same key
    path and the same indexes. *)
Definition same_schema (c c2 : connection) : Prop :=
  forall t,
    match c !! t, c2 !! t with
    | Some sg, Some sg2 =>
        indexes (fst sg) = indexes (fst sg2) /\ key_path (snd sg) = key_path (snd sg2)
    | None, None => True
    | _, _ => False
    end.

(** Every table was created with [increment]: its keys are in-line. *)
Definition keys_in_line (c : connection) : Prop :=
  forall t sg, c !! t = Some sg -> exists kp, key_path (snd sg) = Some kp.

(** The tables of a connection that [json] names. *)
Definition known (c : connection) (e : string * payload) : bool :=
  match c !! fst e with Some _ => true | None => false end.


(** *** A sample connection: users with in-line keys and a unique e-mail *)
Definition user (id : Z) (name mail : string) : record :=
  mkRecord (KNum id)
    [("id"%string, KNum id); ("name"%string, KStr (cps name));
     ("mail"%string, KStr (cps mail))].

Definition users : stored :=
  (mkStore [user 1 "ann" "ann@x"; user 2 "bob" "bob@x"]
     (<["mail"%string := mkIndex "mail" true false]>
        (<["name"%string := mkIndex "name" false false]> ∅)),
   mkGenerator (Some "id"%string) 3).

(** A store created without [increment]: no key path. *)
Definition notes : stored :=
  (mkStore [mkRecord (KNum 1) [("text"%string, KStr (cps "hello"))]] ∅,
   mkGenerator None 2).

Definition sample_conn : connection :=
  <["users"%string := users]> (<["notes"%string := notes]> ∅).

(** Two databases of the same schema with different users. *)
Definition users_only : connection := <["users"%string := users]> ∅.
Definition other_users : connection :=
  <["users"%string :=
      (mkStore [user 5 "eve" "eve@x"] (indexes (fst users)),
       mkGenerator (Some "id"%string) 9)]> ∅.

End DataVocabulary.

(** * Properties *)

(** [select], [count] and [remove] on an input without a [type] of its
    own. *)
Ltac enter :=
  repeat match goal with
  | |- context [Indb.select ?db (Indb.plain ?d)] =>
      change (Indb.select db (Indb.plain d)) with (Indb.query db Indb.TSelect d)
  | |- context [Indb.count ?db (Indb.plain ?d)] =>
      change (Indb.count db (Indb.plain d)) with (Indb.query db Indb.TCount d)
  | |- context [Indb.remove ?db (Indb.plain ?d)] =>
      change (Indb.remove db (Indb.plain d)) with (Indb.query db Indb.TDelete d)
  end.

(** ** The key order *)

Module KeyFacts.
Import IDB.

Lemma str_cmp_refl (s : jsstring) : str_cmp s s = Eq.
Proof.
  induction s as [|c s IH]; simpl; [reflexivity|].
  now rewrite N.compare_refl.
Qed.

Lemma str_cmp_eq (a b : jsstring) : str_cmp a b = Eq -> a = b.
Proof.
  revert b; induction a as [|x a IH]; intros [|y b]; simpl; try discriminate; auto.
  destruct (N.compare x y) eqn:E; try discriminate.
  apply N.compare_eq in E. intros H. f_equal; auto.
Qed.

Lemma str_cmp_antisym (a b : jsstring) : str_cmp b a = CompOpp (str_cmp a b).
Proof.
  revert b; induction a as [|x a IH]; intros [|y b]; simpl; auto.
  rewrite (N.compare_antisym x y).
  destruct (N.compare x y); simpl; auto.
Qed.

Lemma key_cmp_refl (k : key) : key_cmp k k = Eq.
Proof.
  induction k as [n|s|ks IH] using key_nested_ind; simpl.
  - apply Z.compare_refl.
  - apply str_cmp_refl.
  - induction IH as [|x l Hx _ IHl]; [reflexivity|].
    now rewrite Hx.
Qed.

Lemma key_cmp_eq (a b : key) : key_cmp a b = Eq -> a = b.
Proof.
  revert b; induction a as [n|s|ks IH] using key_nested_ind; intros [m|t|ls]; simpl;
    try discriminate.
  - intros H. apply Z.compare_eq in H. now subst.
  - intros H. apply str_cmp_eq in H. now subst.
  - intros H. f_equal. revert ls H.
    induction IH as [|x l Hx _ IHl]; intros [|y ls]; try discriminate; auto.
    destruct (key_cmp x y) eqn:E; try discriminate.
    intros H. f_equal; auto.
Qed.

Lemma key_cmp_antisym (a b : key) : key_cmp b a = CompOpp (key_cmp a b).
Proof.
  revert b; induction a as [n|s|ks IH] using key_nested_ind; intros [m|t|ls]; simpl; auto.
  - apply Z.compare_antisym.
  - apply str_cmp_antisym.
  - revert ls.
    induction IH as [|x l Hx _ IHl]; intros [|y ls]; auto.
    rewrite (Hx y). destruct (key_cmp x y); simpl; auto.
Qed.

Lemma key_eqb_eq (a b : key) : key_eqb a b = true <-> a = b.
Proof.
  unfold key_eqb. split.
  - destruct (key_cmp a b) eqn:E; try discriminate. intros _. now apply key_cmp_eq.
  - intros ->. now rewrite key_cmp_refl.
Qed.

Lemma key_eqb_refl (a : key) : key_eqb a a = true.
Proof. now apply key_eqb_eq. Qed.

Lemma key_eqb_sym (a b : key) : key_eqb a b = key_eqb b a.
Proof.
  unfold key_eqb. rewrite (key_cmp_antisym a b).
  destruct (key_cmp a b); reflexivity.
Qed.

Lemma key_leb_le (a b : key) : key_leb a b = true <-> key_le a b.
Proof.
  unfold key_leb, key_le. destruct (key_cmp a b); split; congruence.
Qed.

Lemma key_ltb_lt (a b : key) : key_ltb a b = true <-> key_lt a b.
Proof.
  unfold key_ltb, key_lt. destruct (key_cmp a b); split; congruence.
Qed.

Lemma key_le_antisym (a b : key) : key_le a b -> key_le b a -> a = b.
Proof.
  unfold key_le. rewrite (key_cmp_antisym a b).
  destruct (key_cmp a b) eqn:E; simpl; try congruence.
  intros _ _. now apply key_cmp_eq.
Qed.

Lemma key_le_refl (a : key) : key_le a a.
Proof. unfold key_le. now rewrite key_cmp_refl. Qed.

Lemma key_lt_not_le (a b : key) : key_lt b a <-> ~ key_le a b.
Proof.
  unfold key_lt, key_le. rewrite (key_cmp_antisym a b).
  destruct (key_cmp a b); simpl; split; try congruence.
  all: intros H; exfalso; apply H; congruence.
Qed.

Lemma str_cmp_trans (a b c : jsstring) :
  str_cmp a b = Lt -> str_cmp b c = Lt -> str_cmp a c = Lt.
Proof.
  revert b c; induction a as [|x a IH]; intros [|y b] [|z c]; simpl;
    try discriminate; auto.
  destruct (N.compare x y) eqn:Exy; try discriminate;
    destruct (N.compare y z) eqn:Eyz; try discriminate; intros H1 H2.
  - apply N.compare_eq in Exy, Eyz. subst. rewrite N.compare_refl. eauto.
  - apply N.compare_eq in Exy. subst. now rewrite Eyz.
  - apply N.compare_eq in Eyz. subst. now rewrite Exy.
  - rewrite N.compare_lt_iff in Exy, Eyz.
    assert (E : N.compare x z = Lt) by (apply N.compare_lt_iff; lia).
    now rewrite E.
Qed.

(** The key order is transitive. *)
Lemma key_cmp_trans (a b c : key) :
  key_cmp a b = Lt -> key_cmp b c = Lt -> key_cmp a c = Lt.
Proof.
  revert b c; induction a as [n|s|ks IH] using key_nested_ind;
    intros [m|t|ls] [p|u|ms]; simpl; try discriminate; auto.
  - rewrite !Z.compare_lt_iff. lia.
  - apply str_cmp_trans.
  - revert ls ms.
    induction IH as [|x l Hx _ IHl]; intros [|y ls] [|z ms]; try discriminate; auto.
    destruct (key_cmp x y) eqn:Exy; try discriminate;
      destruct (key_cmp y z) eqn:Eyz; try discriminate; intros H1 H2.
    + apply key_cmp_eq in Exy, Eyz. subst. rewrite key_cmp_refl. eauto.
    + apply key_cmp_eq in Exy. subst. now rewrite Eyz.
    + apply key_cmp_eq in Eyz. subst. now rewrite Exy.
    + now rewrite (Hx y z Exy Eyz).
Qed.

Lemma key_le_trans (a b c : key) : key_le a b -> key_le b c -> key_le a c.
Proof.
  unfold key_le. intros H1 H2.
  destruct (key_cmp a b) eqn:Eab; [| |congruence];
    destruct (key_cmp b c) eqn:Ebc; try congruence.
  - apply key_cmp_eq in Eab, Ebc. subst. now rewrite key_cmp_refl.
  - apply key_cmp_eq in Eab. subst. now rewrite Ebc.
  - apply key_cmp_eq in Ebc. subst. now rewrite Eab.
  - now rewrite (key_cmp_trans a b c Eab Ebc).
Qed.

Lemma key_le_total (a b : key) : key_le a b \/ key_le b a.
Proof.
  unfold key_le. rewrite (key_cmp_antisym a b).
  destruct (key_cmp a b); simpl; [left|left|right]; congruence.
Qed.

(** An index keeps its entries in order: every entry is at most the next. *)
Lemma entry_leb_total (a b : entry) : entry_leb a b = false -> entry_leb b a = true.
Proof.
  unfold entry_leb, key_leb. rewrite (key_cmp_antisym (e_key a) (e_key b)).
  rewrite (key_cmp_antisym (e_pk a) (e_pk b)).
  destruct (key_cmp (e_key a) (e_key b)); simpl; try congruence.
  destruct (key_cmp (e_pk a) (e_pk b)); simpl; congruence.
Qed.

Lemma insert_entry_sorted (e : entry) (l : list entry) :
  Sorted (fun a b => entry_leb a b = true) l ->
  Sorted (fun a b => entry_leb a b = true) (insert_entry e l).
Proof.
  induction l as [|x l IH]; simpl; intros Hs.
  - repeat constructor.
  - destruct (entry_leb e x) eqn:E.
    + constructor; [exact Hs|]. now constructor.
    + apply Sorted_inv in Hs as [Hs Hx]. constructor; [now apply IH|].
      destruct l as [|y l]; simpl.
      * constructor. now apply entry_leb_total.
      * destruct (entry_leb e y); constructor;
          [now apply entry_leb_total|now inversion Hx].
Qed.

Lemma sort_entries_sorted (l : list entry) :
  Sorted (fun a b => entry_leb a b = true) (sort_entries l).
Proof.
  induction l as [|e l IH]; simpl; [constructor|now apply insert_entry_sorted].
Qed.

End KeyFacts.

(** ** The range filter builder *)

Module FilterSpec.
Import IDB Indb KeyFacts Vocabulary.

Lemma key_le_num (a b : Z) : key_le (KNum a) (KNum b) <-> a <= b.
Proof. unfold key_le; simpl. unfold Z.le. reflexivity. Qed.

Lemma includes_closed (s e k : key) :
  includes (mkRange (Some s) (Some e) false false) k = true <-> key_le s k /\ key_le k e.
Proof.
  unfold includes; simpl. rewrite andb_true_iff, !key_leb_le. reflexivity.
Qed.

Lemma includes_only (v k : key) :
  includes (mkRange (Some v) (Some v) false false) k = true <-> k = v.
Proof.
  rewrite includes_closed. split.
  - intros [H1 H2]. now apply key_le_antisym.
  - intros ->. split; apply key_le_refl.
Qed.

Lemma includes_from (s k : key) :
  includes (mkRange (Some s) None false true) k = true <-> key_le s k.
Proof.
  unfold includes; simpl. rewrite andb_true_r. apply key_leb_le.
Qed.

Lemma includes_upto (e k : key) :
  includes (mkRange None (Some e) true false) k = true <-> key_le k e.
Proof. unfold includes; simpl. apply key_leb_le. Qed.

(** C6, as amended.  [filter] maps an absent value to no restriction, a
    string or a number [v] that is not [NaN] to the range that holds [v]
    only, an object with only [start] to the keys [k >= start], an object
    with only [end] to the keys [k <= end], and an object with both to
    the keys [start <= k <= end] provided that [start <= end].  No range
    is built, the constructor of the range throwing a DataError, when
    [start > end], when the number is [NaN], and when [start] or [end] is
    not a valid key. *)
Theorem filter_builds_range :
  (filter JUndefined = Return Null /\ forall k, in_query Null k = true)
  /\ (forall n, exists r, filter (JNumber n) = Return (Range r)
        /\ forall k, includes r k = true <-> k = KNum n)
  /\ (forall s, exists r, filter (JString s) = Return (Range r)
        /\ forall k, includes r k = true <-> k = KStr s)
  /\ (forall s e, key_le s e ->
        exists r, filter (JObject (Some (Valid s)) (Some (Valid e))) = Return (Range r)
          /\ forall k, includes r k = true <-> key_le s k /\ key_le k e)
  /\ (forall s e, key_lt e s ->
        filter (JObject (Some (Valid s)) (Some (Valid e))) = Throw DataError)
  /\ (forall s, exists r, filter (JObject (Some (Valid s)) None) = Return (Range r)
        /\ forall k, includes r k = true <-> key_le s k)
  /\ (forall e, exists r, filter (JObject None (Some (Valid e))) = Return (Range r)
        /\ forall k, includes r k = true <-> key_le k e)
  /\ filter JNaN = Throw DataError
  /\ (forall e, filter (JObject (Some Invalid) e) = Throw DataError)
  /\ (forall s, filter (JObject s (Some Invalid)) = Throw DataError).
Proof.
  repeat split; try solve [intros; simpl; trivial].
  - intros n. eexists. split; [reflexivity|]. intros k. apply includes_only.
  - intros s. eexists. split; [reflexivity|]. intros k. apply includes_only.
  - intros s e Hse. unfold filter, bound. unfold key_le in Hse.
    destruct (key_cmp s e) eqn:E; try congruence.
    + eexists. split; [reflexivity|]. intros k. apply includes_closed.
    + eexists. split; [reflexivity|]. intros k. apply includes_closed.
  - intros s e Hes. unfold filter, bound. unfold key_lt in Hes.
    rewrite (key_cmp_antisym e s), Hes. reflexivity.
  - intros s. eexists. split; [reflexivity|]. intros k. apply includes_from.
  - intros e. eexists. split; [reflexivity|]. intros k. apply includes_upto.
  - intros [[e|]|]; reflexivity.
  - intros [[s|]|]; reflexivity.
Qed.

Lemma filter_builds_range_witness :
  key_le (KStr (cps "a")) (KStr (cps "b"))
  /\ exists r, filter (JObject (Some (Valid (KStr (cps "a")))) (Some (Valid (KStr (cps "b")))))
               = Return (Range r)
       /\ forall k, includes r k = true
                    <-> key_le (KStr (cps "a")) k /\ key_le k (KStr (cps "b")).
Proof.
  assert (H : key_le (KStr (cps "a")) (KStr (cps "b"))) by (vm_compute; discriminate).
  split; [exact H|].
  exact (proj1 (proj2 (proj2 (proj2 filter_builds_range)))
           (KStr (cps "a")) (KStr (cps "b")) H).
Defined.

(** The examples of the specification, on numbers: [{start:1,end:5}]
    matches [1 <= k <= 5], [{start:1}] matches [k >= 1] and [{end:5}]
    matches [k <= 5]. *)
Lemma filter_examples (k : Z) :
  (exists r, filter (JObject (Some (Valid (KNum 1))) (Some (Valid (KNum 5))))
             = Return (Range r)
     /\ (includes r (KNum k) = true <-> 1 <= k <= 5))
  /\ (exists r, filter (JObject (Some (Valid (KNum 1))) None) = Return (Range r)
     /\ (includes r (KNum k) = true <-> 1 <= k))
  /\ (exists r, filter (JObject None (Some (Valid (KNum 5)))) = Return (Range r)
     /\ (includes r (KNum k) = true <-> k <= 5)).
Proof.
  repeat split; eexists; (split; [reflexivity|]).
  - rewrite includes_closed, !key_le_num. reflexivity.
  - rewrite includes_from, key_le_num. reflexivity.
  - rewrite includes_upto, key_le_num. reflexivity.
Qed.

(** Strings are ordered by code unit: a character outside the Basic
    Multilingual Plane, which is two surrogates, comes before the
    characters from U+E000 on. *)
Lemma surrogates_sort_first :
  key_lt (KStr [55357; 56832]%N) (KStr [65281]%N)
  /\ code_points [55357; 56832]%N = [128512]%N.
Proof. split; reflexivity. Qed.

(** C6, counterexample: [{start: 5, end: 1}] has both properties, yet
    [filter] yields no range for it: [IDBKeyRange.bound] throws. *)
Lemma filter_inverted_bounds :
  filter (JObject (Some (Valid (KNum 5))) (Some (Valid (KNum 1)))) = Throw DataError
  /\ ~ exists r, filter (JObject (Some (Valid (KNum 5))) (Some (Valid (KNum 1))))
                 = Return (Range r)
         /\ forall k, includes r k = true <-> key_le (KNum 5) k /\ key_le k (KNum 1).
Proof.
  split; [reflexivity|]. intros (r & H & _). discriminate H.
Qed.

End FilterSpec.

(** ** The cursor and the handler of [query] *)

Module CursorFacts.
Import IDB Indb KeyFacts Vocabulary.

Lemma drop_while_length {A} (p : A -> bool) (l : list A) :
  (length (drop_while p l) <= length l)%nat.
Proof. induction l as [|x l IH]; simpl; [lia|]. destruct (p x); simpl; lia. Qed.

Lemma filter_length_le {A} (p : A -> bool) (l : list A) :
  (length (List.filter p l) <= length l)%nat.
Proof. induction l as [|x l IH]; simpl; [lia|]. destruct (p x); simpl; lia. Qed.

Lemma settle_size (d : IDB.direction) (l : list entry) :
  cursor_size (settle d l) = length l.
Proof. destruct l as [|e rest]; [reflexivity|]. destruct d; reflexivity. Qed.

Lemma beyond_length (d : IDB.direction) (c : cursor) :
  (length (beyond d c) <= length (snd c))%nat.
Proof.
  unfold beyond. destruct (is_unique d); [apply drop_while_length|lia].
Qed.

Lemma continue_size (d : IDB.direction) (c : cursor) :
  (cursor_size (continue d c) < cursor_size (Some c))%nat.
Proof.
  unfold continue. rewrite settle_size. pose proof (beyond_length d c). simpl. lia.
Qed.

Lemma iterate_size (n : nat) (d : IDB.direction) (c : cursor) :
  (cursor_size (iterate n d c) + n <= cursor_size (Some c))%nat
  \/ iterate n d c = None.
Proof.
  revert c; induction n as [|n IH]; intros c; simpl.
  - left. lia.
  - pose proof (continue_size d c) as Hc.
    destruct (continue d c) as [c'|]; [|now right].
    destruct (IH c') as [H|H]; [left|now right].
    simpl in *. lia.
Qed.

Lemma advance_size (d : IDB.direction) (off : Z) (c : cursor) (cur' : option cursor) :
  advance d off c = Return cur' ->
  (cursor_size cur' < cursor_size (Some c))%nat.
Proof.
  unfold advance. destruct (0 <? off) eqn:Hpos; simpl; [|discriminate].
  destruct (off <=? 4294967295); [|discriminate].
  intros [= <-]. apply Z.ltb_lt in Hpos.
  destruct (iterate_size (Z.to_nat off) d c) as [H|H].
  - simpl in *. lia.
  - rewrite H. simpl. lia.
Qed.

Lemma cursor_delete_size (s : objectStore) (c : cursor) :
  (length (snd (snd (cursor_delete s c))) <= length (snd c))%nat.
Proof. unfold cursor_delete; simpl. apply filter_length_le. Qed.

(** The handler comes to an end whenever it may be entered once more than
    there are entries left. *)
Lemma onsuccess_returns (fuel : nat) ty input dir store st log cur :
  (cursor_size cur < fuel)%nat ->
  exists r, onsuccess fuel ty input dir store st log cur = Some r.
Proof.
  revert store st log cur.
  induction fuel as [|fuel IH]; intros store st log cur Hsz; [lia|].
  simpl. destruct cur as [c|]; [|eauto].
  assert (Hcont : forall s' (c' : cursor) st' log',
            (length (snd c') <= length (snd c))%nat ->
            exists r, onsuccess fuel ty input dir s' st' log' (continue dir c') = Some r).
  { intros s' c' st' log' Hle. apply IH.
    pose proof (continue_size dir c'). simpl in *. lia. }
  assert (Hact : exists r,
    (let '(store0, c0, data, log0) :=
       if is_delete ty
       then let '(store', c') := cursor_delete store c in
            (store', c', data_var st, log ++ [CDelete (e_pk (fst c))])
       else (store, c, data_var st ++ [e_rec (fst c)], log) in
     let st0 := mkClosure (count_var st + 1) data (advanceFlag st) in
     match limit input with
     | Some lim =>
         if count_var st0 >=? lim
         then Some (Fulfilled (result ty st0), store0, log0)
         else onsuccess fuel ty input dir store0 st0 (log0 ++ [CContinue]) (continue dir c0)
     | None => onsuccess fuel ty input dir store0 st0 (log0 ++ [CContinue]) (continue dir c0)
     end) = Some r).
  { destruct (is_delete ty).
    - pose proof (cursor_delete_size store c) as Hd.
      destruct (cursor_delete store c) as [s' c'] eqn:E. simpl in Hd.
      destruct (limit input) as [lim|]; [|now apply Hcont].
      simpl. destruct (count_var st + 1 >=? lim); [eauto|now apply Hcont].
    - destruct (limit input) as [lim|]; [|now apply Hcont].
      simpl. destruct (count_var st + 1 >=? lim); [eauto|now apply Hcont]. }
  destruct (offset input) as [off|]; [|exact Hact].
  destruct (advanceFlag st); [exact Hact|].
  destruct (advance dir off c) as [cur'|e] eqn:E; [|eauto].
  apply IH. apply advance_size in E. simpl in *. lia.
Qed.

Lemma candidates_size s src q d :
  cursor_size (openCursor s src q d) = length (candidates s src q d).
Proof. apply settle_size. Qed.

(** [query] always produces a run. *)
Lemma query_returns (db : database) (ty : qtype) (input : descriptor) :
  exists r, query db ty input = Some r.
Proof.
  unfold query. destruct (transaction db (table input)) as [store|e]; [|eauto].
  set (src := match index input with Some _ => _ | None => _ end).
  set (dir := match direction input with Some _ => _ | None => _ end).
  assert (Hloop : forall q, exists r,
    match onsuccess (enough (candidates store src q dir)) ty input dir store
            (mkClosure 0 [] false)
            ([CTransaction (table input) (if is_delete ty then readwrite else readonly)]
               ++ [COpenCursor src q dir])
            (openCursor store src q dir) with
    | Some r => Some (finish db (table input) r)
    | None => None
    end = Some r).
  { intros q.
    edestruct (onsuccess_returns (enough (candidates store src q dir)) ty input dir
                 store (mkClosure 0 [] false)) as [r Hr].
    2: { rewrite Hr. eauto. }
    rewrite candidates_size. unfold enough. lia. }
  destruct ty; destruct (filter (value input)) as [q|e]; eauto.
Qed.

End CursorFacts.

(** ** Read-only iterations: [select] *)

Module SelectFacts.
Import IDB Indb KeyFacts Vocabulary CursorFacts.

Lemma walk_enough (f1 f2 : nat) (d : IDB.direction) (cur : option cursor) :
  (cursor_size cur <= f1)%nat -> (cursor_size cur <= f2)%nat ->
  walk f1 d cur = walk f2 d cur.
Proof.
  revert f2 cur; induction f1 as [|f1 IH]; intros f2 cur H1 H2.
  - destruct cur; simpl in H1; [lia|]. destruct f2; reflexivity.
  - destruct cur as [c|]; [|destruct f2; reflexivity].
    destruct f2 as [|f2]; simpl in H2; [lia|]. simpl. f_equal.
    pose proof (continue_size d c). simpl in *. apply IH; lia.
Qed.

Lemma walk_all_step (d : IDB.direction) (c : cursor) :
  walk_all d (Some c) = fst c :: walk_all d (continue d c).
Proof.
  unfold walk_all. simpl. f_equal.
  pose proof (continue_size d c). simpl in *. apply walk_enough; lia.
Qed.

Lemma walk_all_fuel (f : nat) (d : IDB.direction) (cur : option cursor) :
  (cursor_size cur <= f)%nat -> walk f d cur = walk_all d cur.
Proof. intros H. unfold walk_all. apply walk_enough; lia. Qed.

Lemma walk_all_iterate (n : nat) (d : IDB.direction) (c : cursor) :
  walk_all d (iterate n d c) = skipn n (walk_all d (Some c)).
Proof.
  revert c; induction n as [|n IH]; intros c; [reflexivity|].
  rewrite walk_all_step. simpl.
  destruct (continue d c) as [c'|]; [apply IH|].
  unfold walk_all; simpl. now rewrite skipn_nil.
Qed.

(** In the directions [next] and [prev] the cursor stops on every entry. *)
Lemma walk_all_settle (d : IDB.direction) (l : list entry) :
  is_unique d = false -> walk_all d (settle d l) = l.
Proof.
  intros Hd. induction l as [|e rest IH]; [reflexivity|].
  assert (Hs : settle d (e :: rest) = Some (e, rest)) by (destruct d; try discriminate; reflexivity).
  rewrite Hs, walk_all_step. simpl. f_equal.
  unfold continue, beyond. rewrite Hd. exact IH.
Qed.

Section acting.
Variables (ty : qtype) (input : descriptor) (dir : IDB.direction) (store : objectStore).
Hypothesis Hty : is_delete ty = false.

(** Once the offset is dealt with, the handler collects the records of
      the entries ahead, up to the limit. *)
Lemma onsuccess_collect (fuel : nat) (st : closure) (log : list call)
      (cur : option cursor) :
    offset input = None \/ advanceFlag st = true ->
    (cursor_size cur < fuel)%nat ->
    exists log',
      onsuccess fuel ty input dir store st log cur =
      Some (Fulfilled (Records (data_var st ++
              map e_rec (quota (limit input) (count_var st) (walk_all dir cur)))),
            store, log ++ log')
      /\ existsb writes log' = false.
Proof.
    revert st log cur; induction fuel as [|fuel IH]; intros st log cur Hoff Hsz; [lia|].
    destruct cur as [c|].
    - rewrite walk_all_step.
      assert (Hstep : onsuccess (S fuel) ty input dir store st log (Some c) =
        let st0 := mkClosure (count_var st + 1) (data_var st ++ [e_rec (fst c)]) (advanceFlag st) in
        match limit input with
        | Some lim =>
            if count_var st0 >=? lim
            then Some (Fulfilled (result ty st0), store, log)
            else onsuccess fuel ty input dir store st0 (log ++ [CContinue]) (continue dir c)
        | None => onsuccess fuel ty input dir store st0 (log ++ [CContinue]) (continue dir c)
        end).
      { simpl. rewrite Hty.
        destruct Hoff as [-> | ->]; [reflexivity|].
        destruct (offset input); reflexivity. }
      rewrite Hstep; clear Hstep. cbv zeta.
      assert (Hres : forall st0, result ty st0 = Records (data_var st0))
        by (intros; destruct ty; try discriminate; reflexivity).
      pose proof (continue_size dir c) as Hc.
      assert (Hnext : (cursor_size (continue dir c) < fuel)%nat) by (simpl in *; lia).
      destruct (limit input) as [lim|] eqn:Hlim; simpl.
      + destruct (count_var st + 1 >=? lim) eqn:Hge.
        * exists []. rewrite app_nil_r, Hres. simpl.
          apply Z.geb_le in Hge.
          replace (Z.to_nat (Z.max 1 (lim - count_var st))) with 1%nat by lia.
          simpl. split; reflexivity.
        * assert (Hlt : count_var st + 1 < lim).
          { destruct (Z.geb_spec (count_var st + 1) lim); [discriminate|lia]. }
          edestruct (IH (mkClosure (count_var st + 1) (data_var st ++ [e_rec (fst c)])
                          (advanceFlag st)) (log ++ [CContinue]) (continue dir c))
            as (log' & Heq & Hw); [exact Hoff|exact Hnext|].
          exists (CContinue :: log'). rewrite Heq. unfold quota. simpl.
          replace (Z.to_nat (Z.max 1 (lim - count_var st)))
            with (S (Z.to_nat (Z.max 1 (lim - (count_var st + 1))))) by lia.
          simpl. rewrite <- !app_assoc. simpl. split; [reflexivity|exact Hw].
      + edestruct (IH (mkClosure (count_var st + 1) (data_var st ++ [e_rec (fst c)])
                        (advanceFlag st)) (log ++ [CContinue]) (continue dir c))
          as (log' & Heq & Hw); [exact Hoff|exact Hnext|].
        exists (CContinue :: log'). rewrite Heq. unfold quota. simpl.
        rewrite <- !app_assoc. simpl. split; [reflexivity|exact Hw].
    - exists []. simpl.
      assert (Hq : quota (limit input) (count_var st) (walk_all dir None) = [])
        by (unfold quota, walk_all; simpl; destruct (limit input); [apply firstn_nil|reflexivity]).
      rewrite Hq, !app_nil_r. destruct ty; try discriminate; split; reflexivity.
Qed.
End acting.

Lemma advance_valid (d : IDB.direction) (off : Z) (c : cursor) :
    valid_count off = true -> advance d off c = Return (iterate (Z.to_nat off) d c).
Proof. unfold advance, valid_count. now intros ->. Qed.

Lemma advance_invalid (d : IDB.direction) (off : Z) (c : cursor) :
    valid_count off = false -> advance d off c = Throw TypeError.
Proof. unfold advance, valid_count. now intros ->. Qed.

Lemma quota_map {A B} (f : A -> B) lim n (l : list A) :
    map f (quota lim n l) = quota lim n (map f l).
Proof. unfold quota. destruct lim; [symmetry; apply firstn_map|reflexivity]. Qed.

Lemma page_map {A B} (f : A -> B) off lim (l : list A) :
    map f (page off lim l) = page off lim (map f l).
Proof.
    unfold page. rewrite quota_map. destruct off; [now rewrite skipn_map|reflexivity].
Qed.

Lemma page_nil {A} off lim : @page A off lim [] = [].
Proof.
    unfold page, quota. destruct off; rewrite ?skipn_nil; destruct lim;
      rewrite ?firstn_nil; reflexivity.
Qed.

(** The handler of a reading [query], from the opening of the cursor. *)
Lemma onsuccess_select (input : descriptor) (dir : IDB.direction) (store : objectStore)
      (fuel : nat) (log : list call) (cur : option cursor) :
    (S (cursor_size cur) < fuel)%nat ->
    exists log',
      existsb writes log' = false /\
      onsuccess fuel TSelect input dir store (mkClosure 0 [] false) log cur =
      Some (match offset input, cur with
            | Some off, Some _ =>
                if valid_count off
                then Fulfilled (Records (map e_rec
                       (page (offset input) (limit input) (walk_all dir cur))))
                else Pending TypeError
            | _, _ => Fulfilled (Records (map e_rec
                       (page (offset input) (limit input) (walk_all dir cur))))
            end, store, log ++ log').
Proof.
    intros Hsz. destruct fuel as [|fuel]; [lia|].
    destruct cur as [c|].
    2: { exists []. split; [reflexivity|].
         change (walk_all dir None) with (@nil entry). rewrite page_nil, app_nil_r.
         simpl. destruct (offset input); reflexivity. }
    destruct (offset input) as [off|] eqn:Hoff.
    - simpl. rewrite Hoff.
      destruct (valid_count off) eqn:Hv.
      + rewrite (advance_valid _ _ _ Hv).
        edestruct (onsuccess_collect TSelect input dir store eq_refl fuel
                     (mkClosure 0 [] true) (log ++ [CAdvance off])
                     (iterate (Z.to_nat off) dir c)) as (log' & Heq & Hw).
        * now right.
        * pose proof (advance_size dir off c _ (advance_valid _ _ _ Hv)). simpl in *. lia.
        * exists (CAdvance off :: log'). split; [exact Hw|].
          rewrite Heq. simpl. rewrite walk_all_iterate, <- app_assoc. reflexivity.
      + rewrite (advance_invalid _ _ _ Hv). exists [CAdvance off]. split; reflexivity.
    - edestruct (onsuccess_collect TSelect input dir store eq_refl (S fuel)
                   (mkClosure 0 [] false) log (Some c)) as (log' & Heq & Hw).
      + now left.
      + simpl in *. lia.
      + exists log'. split; [exact Hw|]. rewrite Heq. reflexivity.
Qed.

Lemma transaction_found (db : database) (t : string) (store : objectStore) :
    db !! t = Some store -> transaction db t = Return store.
Proof. unfold transaction. now intros ->. Qed.

(** What [select] does on a table that exists, for a value that [filter]
      accepts: it fulfils with the page of the visited entries that
      [offset] and [limit] cut out, unless [offset] is a count that
      [advance] refuses and there is an entry to advance from; it leaves
      the database as it was and makes no writing call. *)
Lemma select_page (db : database) (input : descriptor) (store : objectStore)
      (q : query_arg) :
    db !! table input = Some store ->
    filter (value input) = Return q ->
    exists r,
      select db input = Some r
      /\ db_after r = db
      /\ existsb writes (calls r) = false
      /\ settled r =
         match offset input, visited store input q with
         | Some off, _ :: _ =>
             if valid_count off
             then Fulfilled (Records (map e_rec
                    (page (offset input) (limit input) (visited store input q))))
             else Pending TypeError
         | _, _ => Fulfilled (Records (map e_rec
                    (page (offset input) (limit input) (visited store input q))))
         end.
Proof.
    intros Hdb Hq. enter; unfold query.
    rewrite (transaction_found _ _ _ Hdb), Hq.
    fold (source_of store input). fold (direction_of input).
    set (src := source_of store input). set (dir := direction_of input).
    edestruct (onsuccess_select input dir store (enough (candidates store src q dir))
                 ([CTransaction (table input) (if is_delete TSelect then readwrite else readonly)]
                    ++ [COpenCursor src q dir])
                 (openCursor store src q dir)) as (log' & Hw & Heq).
    { rewrite candidates_size. unfold enough. lia. }
    rewrite Heq. clear Heq. eexists. split; [reflexivity|].
    unfold visited. fold src dir.
    destruct (openCursor store src q dir) as [c|] eqn:Hc.
    - rewrite walk_all_step.
      destruct (offset input) as [off|]; [destruct (valid_count off)|]; simpl;
        (split; [first [reflexivity | apply insert_id; exact Hdb]|]);
        (split; [exact Hw|reflexivity]).
    - unfold walk_all; simpl.
      destruct (offset input) as [off|]; simpl;
        (split; [first [reflexivity | apply insert_id; exact Hdb]|]);
        (split; [exact Hw|reflexivity]).
Qed.

End SelectFacts.

(** ** The cursor query executor: sources, values, limits and offsets *)

Module QuerySpec.
Import IDB Indb KeyFacts Vocabulary CursorFacts SelectFacts.

(** The handler reads [offset] and [limit] of the descriptor and nothing
    else, and the log does not influence what it does. *)
Lemma onsuccess_frame (fuel : nat) ty (i1 i2 : descriptor) dir store st log1 log2 cur :
  offset i1 = offset i2 -> limit i1 = limit i2 ->
  option_map (fun r => fst r) (onsuccess fuel ty i1 dir store st log1 cur) =
  option_map (fun r => fst r) (onsuccess fuel ty i2 dir store st log2 cur).
Proof.
  intros Ho Hl. revert store st log1 log2 cur.
  induction fuel as [|fuel IH]; intros store st log1 log2 cur; [reflexivity|].
  simpl. destruct cur as [c|]; [|reflexivity].
  rewrite <- Ho, <- Hl.
  assert (Hact :
    option_map (fun r => fst r)
      (let '(store0, c0, data, log0) :=
         if is_delete ty
         then let '(store', c') := cursor_delete store c in
              (store', c', data_var st, log1 ++ [CDelete (e_pk (fst c))])
         else (store, c, data_var st ++ [e_rec (fst c)], log1) in
       let st0 := mkClosure (count_var st + 1) data (advanceFlag st) in
       match limit i1 with
       | Some lim =>
           if count_var st0 >=? lim
           then Some (Fulfilled (result ty st0), store0, log0)
           else onsuccess fuel ty i1 dir store0 st0 (log0 ++ [CContinue]) (continue dir c0)
       | None => onsuccess fuel ty i1 dir store0 st0 (log0 ++ [CContinue]) (continue dir c0)
       end) =
    option_map (fun r => fst r)
      (let '(store0, c0, data, log0) :=
         if is_delete ty
         then let '(store', c') := cursor_delete store c in
              (store', c', data_var st, log2 ++ [CDelete (e_pk (fst c))])
         else (store, c, data_var st ++ [e_rec (fst c)], log2) in
       let st0 := mkClosure (count_var st + 1) data (advanceFlag st) in
       match limit i1 with
       | Some lim =>
           if count_var st0 >=? lim
           then Some (Fulfilled (result ty st0), store0, log0)
           else onsuccess fuel ty i2 dir store0 st0 (log0 ++ [CContinue]) (continue dir c0)
       | None => onsuccess fuel ty i2 dir store0 st0 (log0 ++ [CContinue]) (continue dir c0)
       end)).
  { destruct (is_delete ty); [destruct (cursor_delete store c) as [s' c']|];
      (destruct (limit i1) as [lim|]; [|apply IH]);
      simpl; (destruct (_ >=? lim); [reflexivity|apply IH]). }
  destruct (offset i1) as [off|]; [|exact Hact].
  destruct (advanceFlag st); [exact Hact|].
  destruct (advance dir off c); [apply IH|reflexivity].
Qed.

Lemma onsuccess_input (fuel : nat) ty (i1 i2 : descriptor) dir store st log cur :
  offset i1 = offset i2 -> limit i1 = limit i2 ->
  onsuccess fuel ty i1 dir store st log cur = onsuccess fuel ty i2 dir store st log cur.
Proof.
  intros Ho Hl. revert store st log cur.
  induction fuel as [|fuel IH]; intros store st log cur; [reflexivity|].
  simpl. destruct cur as [c|]; [|reflexivity].
  rewrite <- Ho, <- Hl.
  assert (Hact :
    (let '(store0, c0, data, log0) :=
       if is_delete ty
       then let '(store', c') := cursor_delete store c in
            (store', c', data_var st, log ++ [CDelete (e_pk (fst c))])
       else (store, c, data_var st ++ [e_rec (fst c)], log) in
     let st0 := mkClosure (count_var st + 1) data (advanceFlag st) in
     match limit i1 with
     | Some lim =>
         if count_var st0 >=? lim
         then Some (Fulfilled (result ty st0), store0, log0)
         else onsuccess fuel ty i1 dir store0 st0 (log0 ++ [CContinue]) (continue dir c0)
     | None => onsuccess fuel ty i1 dir store0 st0 (log0 ++ [CContinue]) (continue dir c0)
     end) =
    (let '(store0, c0, data, log0) :=
       if is_delete ty
       then let '(store', c') := cursor_delete store c in
            (store', c', data_var st, log ++ [CDelete (e_pk (fst c))])
       else (store, c, data_var st ++ [e_rec (fst c)], log) in
     let st0 := mkClosure (count_var st + 1) data (advanceFlag st) in
     match limit i1 with
     | Some lim =>
         if count_var st0 >=? lim
         then Some (Fulfilled (result ty st0), store0, log0)
         else onsuccess fuel ty i2 dir store0 st0 (log0 ++ [CContinue]) (continue dir c0)
     | None => onsuccess fuel ty i2 dir store0 st0 (log0 ++ [CContinue]) (continue dir c0)
     end)).
  { destruct (is_delete ty); [destruct (cursor_delete store c) as [s' c']|];
      (destruct (limit i1) as [lim|]; [|apply IH]);
      simpl; (destruct (_ >=? lim); [reflexivity|apply IH]). }
  destruct (offset i1) as [off|]; [|exact Hact].
  destruct (advanceFlag st); [exact Hact|].
  destruct (advance dir off c); [apply IH|reflexivity].
Qed.

Lemma effect_finish db t (r1 r2 : promise answer * objectStore * list call) :
  fst r1 = fst r2 ->
  (settled (finish db t r1), db_after (finish db t r1)) =
  (settled (finish db t r2), db_after (finish db t r2)).
Proof.
  destruct r1 as [[p1 s1] l1], r2 as [[p2 s2] l2]. simpl. intros [= -> ->].
  destruct p2; reflexivity.
Qed.

(** C1, as amended.  A descriptor that names an index which the table does
    not have is run exactly as the same descriptor without [index]:
    [select], [count] and [remove] report no error for it and iterate (or
    count) the object store in primary key order. *)
Theorem unknown_index_falls_back (db : database) (ty : qtype) (d : descriptor)
    (name : string) :
  (forall store, db !! table d = Some store -> indexes store !! name = None) ->
  exists r,
    query db ty (with_index d (Some name)) = Some r
    /\ query db ty (with_index d None) = Some r.
Proof.
  intros H.
  destruct (query_returns db ty (with_index d None)) as [r Hr].
  exists r. split; [|exact Hr]. rewrite <- Hr.
  unfold query, with_index. cbn [table index value direction].
  unfold transaction. destruct (db !! table d) as [store|] eqn:E; [|reflexivity].
  rewrite (H store eq_refl).
  destruct ty; try reflexivity;
    (destruct (filter (value d)) as [q|e]; [|reflexivity]);
    now erewrite onsuccess_input.
Qed.

Lemma unknown_index_falls_back_witness :
  exists r,
    query sample_db TSelect (with_index all_songs (Some "artist"%string)) = Some r
    /\ query sample_db TSelect (with_index all_songs None) = Some r.
Proof.
  apply (unknown_index_falls_back sample_db TSelect all_songs "artist"%string).
  intros store Hs. vm_compute in Hs. injection Hs as <-. vm_compute. reflexivity.
Defined.

(** C1, counterexample: the table of songs has no index ["artist"], yet
    [select], [count] and [remove] with [index: "artist"] are fulfilled,
    and [select] and [remove] open a cursor and iterate. *)
Lemma unknown_index_not_reported :
  let d := with_index all_songs (Some "artist"%string) in
  (exists r, select sample_db d = Some r
     /\ settled r = Fulfilled (Records [song1; song2; song3])
     /\ existsb iterates (calls r) = true)
  /\ (exists r, count sample_db d = Some r /\ settled r = Fulfilled (Number 3))
  /\ (exists r, remove sample_db d = Some r
     /\ settled r = Fulfilled (Number 3)
     /\ existsb iterates (calls r) = true).
Proof.
  repeat split; eexists; (split; [vm_compute; reflexivity|]); repeat split; reflexivity.
Qed.

(** C2, on the failing input: with [limit: 0] on the table of songs,
    [select] returns the first song and [remove] deletes it and returns 1. *)
Lemma limit_zero_acts_once :
  let d := with_page all_songs None (Some 0) in
  (exists r, select sample_db d = Some r /\ settled r = Fulfilled (Records [song1]))
  /\ (exists r, remove sample_db d = Some r
     /\ settled r = Fulfilled (Number 1)
     /\ In (CDelete (KNum 1)) (calls r)
     /\ db_after r = <["songs"%string := mkStore [song2; song3] (indexes songs)]> sample_db).
Proof.
  split; eexists; (split; [vm_compute; reflexivity|]).
  - reflexivity.
  - split; [reflexivity|]. split; [simpl; tauto|]. vm_compute. reflexivity.
Qed.

(** C3, on the failing input: the first page, asked for with [offset: 0],
    is never delivered: [cursor.advance(0)] throws in the handler and the
    promise stays pending. *)
Lemma first_page_with_offset_zero :
  exists r, select sample_db (with_page all_songs (Some 0) (Some 1)) = Some r
    /\ settled r = Pending TypeError
    /\ In (CAdvance 0) (calls r).
Proof.
  eexists. split; [vm_compute; reflexivity|]. split; [reflexivity|]. simpl; tauto.
Qed.

(** C5, as amended.  For a value that is an object with neither [start]
    nor [end], [filter] returns [undefined] and throws nothing, and
    [select], [count] and [remove] settle as they do when [value] is
    absent and leave the same database: the descriptor matches every
    record. *)
Theorem empty_object_matches_everything (db : database) (ty : qtype) (d : descriptor) :
  filter (JObject None None) = Return Undefined
  /\ exists r1 r2,
       query db ty (with_value d (JObject None None)) = Some r1
       /\ query db ty (with_value d JUndefined) = Some r2
       /\ settled r1 = settled r2
       /\ db_after r1 = db_after r2.
Proof.
  split; [reflexivity|].
  destruct (query_returns db ty (with_value d (JObject None None))) as [r1 Hr1].
  destruct (query_returns db ty (with_value d JUndefined)) as [r2 Hr2].
  exists r1, r2. split; [exact Hr1|]. split; [exact Hr2|].
  cut (effect (query db ty (with_value d (JObject None None))) =
       effect (query db ty (with_value d JUndefined))).
  { rewrite Hr1, Hr2. unfold effect. simpl. intros [= H1 H2]. now split. }
  clear r1 r2 Hr1 Hr2.
  unfold query. simpl.
  destruct (transaction db (table d)) as [store|e]; [|reflexivity].
  set (src := match index d with Some _ => _ | None => _ end).
  set (dir := match direction d with Some _ => _ | None => _ end).
  assert (Hloop :
    effect (match onsuccess (enough (candidates store src Undefined dir)) ty
                    (with_value d (JObject None None)) dir store (mkClosure 0 [] false)
                    ([CTransaction (table d) (if is_delete ty then readwrite else readonly)]
                       ++ [COpenCursor src Undefined dir])
                    (openCursor store src Undefined dir) with
            | Some r => Some (finish db (table d) r)
            | None => None
            end) =
    effect (match onsuccess (enough (candidates store src Null dir)) ty
                    (with_value d JUndefined) dir store (mkClosure 0 [] false)
                    ([CTransaction (table d) (if is_delete ty then readwrite else readonly)]
                       ++ [COpenCursor src Null dir])
                    (openCursor store src Null dir) with
            | Some r => Some (finish db (table d) r)
            | None => None
            end)).
  { change (candidates store src Undefined dir) with (candidates store src Null dir).
    change (openCursor store src Undefined dir) with (openCursor store src Null dir).
    pose proof (onsuccess_frame (enough (candidates store src Null dir)) ty
                  (with_value d (JObject None None)) (with_value d JUndefined) dir store
                  (mkClosure 0 [] false)
                  ([CTransaction (table d) (if is_delete ty then readwrite else readonly)]
                     ++ [COpenCursor src Undefined dir])
                  ([CTransaction (table d) (if is_delete ty then readwrite else readonly)]
                     ++ [COpenCursor src Null dir])
                  (openCursor store src Null dir) eq_refl eq_refl) as H.
    destruct (onsuccess _ _ (with_value d (JObject None None)) _ _ _ _ _) as [r1|];
      destruct (onsuccess _ _ (with_value d JUndefined) _ _ _ _ _) as [r2|];
      simpl in H; try discriminate; [|reflexivity].
    injection H as H. unfold effect. simpl. f_equal. now apply effect_finish. }
  destruct ty; first [exact Hloop | reflexivity].
Qed.

(** C5, counterexample: [select] with [value: {}] raises no validation
    error; it opens a cursor and returns every song. *)
Lemma empty_object_not_rejected :
  exists r, select sample_db (with_value all_songs (JObject None None)) = Some r
    /\ settled r = Fulfilled (Records [song1; song2; song3])
    /\ existsb iterates (calls r) = true.
Proof.
  eexists. split; [vm_compute; reflexivity|]. split; reflexivity.
Qed.

End QuerySpec.

(** ** Counting and reading *)

Module ReadSpec.
Import IDB Indb KeyFacts Vocabulary FilterSpec CursorFacts SelectFacts QuerySpec.

Lemma transaction_missing (db : database) (t : string) :
  db !! t = None -> transaction db t = Throw NotFoundError.
Proof. unfold transaction. now intros ->. Qed.

(** [select] always produces a run, which leaves the database as it was
    and writes nothing. *)
Lemma select_reads (db : database) (input : descriptor) :
  exists r, select db input = Some r /\ db_after r = db /\ existsb writes (calls r) = false.
Proof.
  destruct (db !! table input) as [store|] eqn:Hdb.
  - destruct (filter (value input)) as [q|e] eqn:Hq.
    + destruct (select_page db input store q Hdb Hq) as (r & Hr & Hd & Hw & _). eauto.
    + enter; unfold query. rewrite (transaction_found _ _ _ Hdb), Hq. eauto.
  - enter; unfold query. rewrite (transaction_missing _ _ Hdb). eauto.
Qed.

Lemma count_reads (db : database) (input : descriptor) :
  exists r, count db input = Some r /\ db_after r = db /\ existsb writes (calls r) = false.
Proof.
  enter; unfold query. destruct (transaction db (table input)) as [store|e]; [|eauto].
  destruct (filter (value input)) as [q|e]; eauto.
Qed.

Lemma existsb_map_false {A B} (p : B -> bool) (f : A -> B) (l : list A) :
  (forall x, p (f x) = false) -> existsb p (map f l) = false.
Proof. intros H. induction l as [|x l IH]; simpl; [reflexivity|]. now rewrite H. Qed.

Lemma search_reads is_L is_N toLowerCase (db : database) (t i : string)
    (query : jsval key) (op : string) :
  let r := search is_L is_N toLowerCase db t i query op in
  db_after r = db /\ existsb writes (calls r) = false.
Proof.
  unfold search. destruct (tokens _ _ _ query) as [|w ws]; [split; reflexivity|].
  destruct (transaction db t) as [store|e]; [|split; reflexivity].
  destruct (indexes store !! i) as [ix|]; [|split; reflexivity].
  set (lookups := map (fun word => CGetAllKeys i (KStr word)) (w :: ws)).
  assert (Hl : existsb writes ([CTransaction t readonly] ++ lookups) = false).
  { rewrite existsb_app. simpl. now apply existsb_map_false. }
  destruct (combine op _) as [|id ids]; cbn [db_after calls];
    [split; [reflexivity|exact Hl]|].
  split; [reflexivity|].
  rewrite (existsb_app writes ([CTransaction t readonly] ++ lookups)), Hl.
  now apply existsb_map_false.
Qed.

(** [select], [count] and [search] leave the database as it is when the
    input has no [type] of its own: after the call the database is the
    one before the call, and none of the calls they make on the substrate
    writes. *)
Lemma plain_reading_leaves_database_unchanged is_L is_N toLowerCase (db : database)
    (input : descriptor) (t i : string) (query : jsval key) (op : string) :
  (exists r, select db input = Some r
     /\ db_after r = db /\ existsb writes (calls r) = false)
  /\ (exists r, count db input = Some r
     /\ db_after r = db /\ existsb writes (calls r) = false)
  /\ (db_after (search is_L is_N toLowerCase db t i query op) = db
     /\ existsb writes (calls (search is_L is_N toLowerCase db t i query op)) = false).
Proof.
  split; [apply select_reads|]. split; [apply count_reads|]. apply search_reads.
Qed.

Lemma query_reads (db : database) (ty : qtype) (d : descriptor) :
  is_delete ty = false ->
  exists r, query db ty d = Some r /\ db_after r = db /\ existsb writes (calls r) = false.
Proof.
  destruct ty; try discriminate; intros _.
  - exact (select_reads db d).
  - exact (count_reads db d).
Qed.

Lemma type_of_delete (written : string) (input : query_input) :
  written <> "delete"%string -> given_type input <> Some "delete"%string ->
  is_delete (type_of (spread written input)) = false.
Proof.
  intros Hw Hg. unfold type_of.
  destruct (String.eqb (spread written input) "delete") eqn:E.
  - apply String.eqb_eq in E. unfold spread in E.
    destruct (given_type input) as [ty|]; congruence.
  - now destruct (String.eqb (spread written input) "count").
Qed.

(** C10, on the failing input.  [select] and [count] pass [{type: ...,
    ...input}] to [query], so a [type] of the input replaces theirs: with
    [type: "delete"] they are [remove], and on the table of songs they
    open the transaction for writing, delete the three songs through the
    cursor and resolve with 3.  For every input whose [type] is not
    ["delete"] they leave the database as it is, as [search] always
    does. *)
Theorem type_property_overrides_mode :
  (forall db d, select db (with_type d "delete") = remove db d
                /\ count db (with_type d "delete") = remove db d)
  /\ (exists r, select sample_db (with_type all_songs "delete") = Some r
        /\ settled r = Fulfilled (Number 3)
        /\ db_after r = <["songs"%string := mkStore [] (indexes songs)]> sample_db
        /\ db_after r <> sample_db
        /\ calls r = [CTransaction "songs" readwrite; COpenCursor SStore Null next;
                      CDelete (KNum 1); CContinue; CDelete (KNum 2); CContinue;
                      CDelete (KNum 3); CContinue])
  /\ (forall db input, given_type input <> Some "delete"%string ->
        (exists r, select db input = Some r
           /\ db_after r = db /\ existsb writes (calls r) = false)
        /\ (exists r, count db input = Some r
           /\ db_after r = db /\ existsb writes (calls r) = false))
  /\ (forall is_L is_N toLowerCase db t i query op,
        db_after (search is_L is_N toLowerCase db t i query op) = db
        /\ existsb writes (calls (search is_L is_N toLowerCase db t i query op)) = false).
Proof.
  split; [intros db d; split; reflexivity|]. split.
  { eexists. split; [vm_compute; reflexivity|]. split; [reflexivity|].
    split; [reflexivity|]. split; [|reflexivity].
    intros E. apply (f_equal (fun m => records <$> (m !! "songs"%string))) in E.
    vm_compute in E. discriminate. }
  split.
  { intros db input Hg. split.
    - apply query_reads. apply type_of_delete; [discriminate|exact Hg].
    - apply query_reads. apply type_of_delete; [discriminate|exact Hg]. }
  intros. apply search_reads.
Qed.

Lemma length_in_direction (d : IDB.direction) (l : list entry) :
  length (in_direction d l) = length l.
Proof. destruct d; simpl; rewrite ?length_rev; reflexivity. Qed.

(** A full [select] in direction [next] or [prev] returns the record of
    every entry of the range. *)
Lemma visited_all (store : objectStore) (d : descriptor) (q : query_arg) :
  is_unique (direction_of d) = false ->
  visited store d q = candidates store (source_of store d) q (direction_of d).
Proof. intros H. unfold visited, openCursor. now apply walk_all_settle. Qed.

Lemma includes_only_cmp (v k : key) :
  includes (mkRange (Some v) (Some v) false false) k = key_eqb k v.
Proof. apply eq_true_iff_eq. now rewrite includes_only, key_eqb_eq. Qed.

Lemma filter_matches (v : jsval key) (q : query_arg) (k : key) :
  filter v = Return q -> in_query q k = matches v k.
Proof.
  destruct v as [| |b|n| |s|[[s|]|] [[e|]|]]; simpl; try discriminate;
    try (intros [= <-]; reflexivity).
  - intros [= <-]. simpl. apply includes_only_cmp.
  - intros [= <-]. simpl. apply includes_only_cmp.
  - unfold bound. destruct (key_cmp s e); try discriminate; intros [= <-]; reflexivity.
  - intros [= <-]. unfold in_query, includes. simpl. apply andb_true_r.
Qed.

(** C4, as amended.  [count] ignores [offset] and [limit]; on a table
    that exists and for a value that [filter] accepts it returns the
    number of entries of the source (the table, or the index named)
    whose key matches the value; and for a descriptor of direction
    [next] or [prev] its result is the length of what [select] returns
    for the descriptor without [offset] and [limit] (both fail alike when
    the table is missing or the value is refused). *)
Theorem count_is_length_of_unpaged_select (db : database) (d : descriptor) :
  (forall off lim, count db (with_page d off lim) = count db d)
  /\ (forall store q,
        db !! table d = Some store -> filter (value d) = Return q ->
        exists r, count db d = Some r
          /\ settled r = Fulfilled (Number (Z.of_nat (length
               (List.filter (fun e => matches (value d) (e_key e))
                  (source_entries store (source_of store d)))))))
  /\ (is_unique (direction_of d) = false ->
        exists rc rs, count db d = Some rc
          /\ select db (unpaged d) = Some rs
          /\ settled rc = map_promise (fun a => Number (size_of a)) (settled rs)).
Proof.
  split; [reflexivity|]. split.
  - intros store q Hdb Hq. enter; unfold query.
    rewrite (transaction_found _ _ _ Hdb), Hq. eexists. split; [reflexivity|].
    simpl. unfold count_entries. do 4 f_equal.
    apply filter_ext. intros e. now apply filter_matches.
  - intros Hdir.
    destruct (db !! table d) as [store|] eqn:Hdb.
    + destruct (filter (value d)) as [q|e] eqn:Hq.
      * destruct (select_page db (unpaged d) store q Hdb Hq) as (rs & Hrs & _ & _ & Hs).
        exists (mkRun (Fulfilled (Number (count_entries store (source_of store d) q))) db
                  ([CTransaction (table d) readonly] ++ [CCount (source_of store d) q])), rs.
        split; [|split; [exact Hrs|]].
        { enter; unfold query. rewrite (transaction_found _ _ _ Hdb), Hq. reflexivity. }
        rewrite Hs. simpl offset. simpl limit.
        assert (Hv : visited store (unpaged d) q =
                     candidates store (source_of store d) q (direction_of d))
          by (apply (visited_all store (unpaged d) q); exact Hdir).
        rewrite Hv. unfold page, quota. simpl. rewrite length_map.
        unfold candidates. rewrite length_in_direction. reflexivity.
      * enter; unfold query. simpl.
        rewrite (transaction_found _ _ _ Hdb), Hq. do 2 eexists.
        split; [reflexivity|]. split; reflexivity.
    + enter; unfold query. simpl.
      rewrite (transaction_missing _ _ Hdb). do 2 eexists.
      split; [reflexivity|]. split; reflexivity.
Qed.

Lemma count_is_length_of_unpaged_select_witness :
  is_unique (direction_of some_songs) = false
  /\ exists rc rs, count sample_db some_songs = Some rc
       /\ select sample_db (unpaged some_songs) = Some rs
       /\ settled rc = map_promise (fun a => Number (size_of a)) (settled rs).
Proof.
  split; [reflexivity|].
  exact (proj2 (proj2 (count_is_length_of_unpaged_select sample_db some_songs)) eq_refl).
Defined.

(** The descriptor of the witness: [count] is 5, the entries of the words
    from "my" to "song" (two songs have "my", two have "song", one has
    "rock"), whatever [offset] and [limit] say, and [select] without them
    returns the five records, last word first. *)
Lemma count_some_songs :
  exists rc rs, count sample_db some_songs = Some rc
    /\ settled rc = Fulfilled (Number 5)
    /\ select sample_db (unpaged some_songs) = Some rs
    /\ settled rs = Fulfilled (Records [song2; song1; song3; song2; song1]).
Proof. do 2 eexists. repeat split; vm_compute; reflexivity. Qed.

(** C4, counterexample: with the direction [nextunique] on the index of
    the words of the titles, [count] is 6, the number of entries of the
    index, whereas [select] without [offset] and [limit] stops once for
    each of the four words and returns four records. *)
Lemma count_exceeds_unique_select :
  exists rc rs l,
    count sample_db songs_by_word = Some rc
    /\ settled rc = Fulfilled (Number 6)
    /\ select sample_db (unpaged songs_by_word) = Some rs
    /\ settled rs = Fulfilled (Records l)
    /\ length l = 4%nat
    /\ settled rc <> map_promise (fun a => Number (size_of a)) (settled rs).
Proof.
  do 3 eexists. split; [vm_compute; reflexivity|]. split; [reflexivity|].
  split; [vm_compute; reflexivity|]. split; [reflexivity|]. split; [reflexivity|].
  simpl. discriminate.
Qed.

End ReadSpec.

(** ** [Set]: insertion order and membership *)

Module SetFacts.

Section set_facts.
Context {A : Type}.
Variable eqb : A -> A -> bool.
Hypothesis eqb_eq : forall a b, eqb a b = true <-> a = b.

Lemma existsb_In (x : A) (l : list A) : existsb (eqb x) l = true <-> In x l.
Proof.
  rewrite existsb_exists. split.
  - intros (y & Hy & E). apply eqb_eq in E. now subst.
  - intros H. exists x. split; [exact H|now apply eqb_eq].
Qed.

Lemma set_from_elements (seen l : list A) (x : A) :
  In x (set_from eqb seen l) <-> In x l /\ ~ In x seen.
Proof.
  revert seen; induction l as [|y l IH]; intros seen; simpl; [tauto|].
  destruct (existsb (eqb y) seen) eqn:E.
  - apply existsb_In in E. rewrite IH. split; [tauto|].
    intros [[->|H] Hn]; tauto.
  - assert (Hy : ~ In y seen) by (rewrite <- existsb_In, E; discriminate).
    simpl. rewrite IH. simpl. split.
    + intros [->|[H Hn]]; tauto.
    + intros [[->|H] Hn]; [tauto|].
      destruct (eqb y x) eqn:Ex; [apply eqb_eq in Ex; tauto|].
      right. split; [exact H|]. intros [->|?]; [|tauto].
      assert (Hr : eqb x x = true) by now apply eqb_eq. congruence.
Qed.

Lemma set_from_distinct (seen l : list A) : List.NoDup (set_from eqb seen l).
Proof.
  revert seen; induction l as [|y l IH]; intros seen; simpl; [constructor|].
  destruct (existsb (eqb y) seen); [apply IH|].
  constructor; [|apply IH].
  rewrite set_from_elements. simpl. tauto.
Qed.

(** [new Set(l)] keeps an element of [l] exactly when it does not occur
    earlier in [l]. *)
Lemma set_from_first (pre l seen : list A) :
  (forall x, existsb (eqb x) seen = existsb (eqb x) pre) ->
  set_from eqb seen l =
  map snd (List.filter
             (fun iw => negb (existsb (eqb (snd iw)) (firstn (fst iw) (pre ++ l))))
             (combine (seq (length pre) (length l)) l)).
Proof.
  revert pre seen; induction l as [|y l IH]; intros pre seen Hseen; [reflexivity|].
  simpl. rewrite firstn_app, firstn_all, Nat.sub_diag, app_nil_r, <- Hseen.
  assert (Hpre : pre ++ y :: l = (pre ++ [y]) ++ l) by (rewrite <- app_assoc; reflexivity).
  assert (Hlen : S (length pre) = length (pre ++ [y])) by (rewrite length_app; simpl; lia).
  rewrite Hpre, Hlen.
  destruct (existsb (eqb y) seen) eqn:E; simpl.
  - apply IH. intros x. rewrite existsb_app. simpl. rewrite orb_false_r, <- Hseen.
    destruct (eqb x y) eqn:Ex; [|now rewrite orb_false_r].
    apply eqb_eq in Ex. subst. now rewrite E.
  - f_equal. apply IH. intros x. rewrite existsb_app. simpl.
    rewrite orb_false_r, <- Hseen. apply orb_comm.
Qed.

End set_facts.

(** Two equalities that agree on the elements at hand build the same set. *)
Lemma set_from_ext {A} (eqb1 eqb2 : A -> A -> bool) (seen l : list A) :
  (forall a b, In a (seen ++ l) -> In b (seen ++ l) -> eqb1 a b = eqb2 a b) ->
  set_from eqb1 seen l = set_from eqb2 seen l.
Proof.
  revert seen; induction l as [|y l IH]; intros seen H; [reflexivity|]. simpl.
  assert (E : existsb (eqb1 y) seen = existsb (eqb2 y) seen).
  { apply eq_true_iff_eq. rewrite !existsb_exists.
    split; intros (z & Hz & Ez); exists z; (split; [exact Hz|]).
    - rewrite <- H; [exact Ez| |]; apply in_or_app; simpl; tauto.
    - rewrite H; [exact Ez| |]; apply in_or_app; simpl; tauto. }
  rewrite E. destruct (existsb (eqb2 y) seen).
  - apply IH. intros a b Ha Hb. apply H; apply in_app_or in Ha, Hb;
      apply in_or_app; simpl; tauto.
  - f_equal. apply IH. intros a b Ha Hb. apply H; apply in_app_or in Ha, Hb;
      apply in_or_app; simpl in *; tauto.
Qed.

Lemma set_from_subset {A} (eqb : A -> A -> bool) (seen l : list A) (x : A) :
  In x (set_from eqb seen l) -> In x l.
Proof.
  revert seen; induction l as [|y l IH]; intros seen; simpl; [tauto|].
  destruct (existsb (eqb y) seen); simpl; [eauto|]. intros [->|H]; eauto.
Qed.

Lemma jsstring_eqb_eq (a b : jsstring) : jsstring_eqb a b = true <-> a = b.
Proof. unfold jsstring_eqb. apply bool_decide_eq_true. Qed.

End SetFacts.

(** ** Deleting through the cursor: [remove] *)

Module RemoveSpec.
Import IDB Indb KeyFacts Vocabulary CursorFacts SelectFacts QuerySpec ReadSpec SetFacts.

Lemma existsb_key_In (k : key) (l : list key) :
  existsb (key_eqb k) l = true <-> In k l.
Proof. apply existsb_In. apply key_eqb_eq. Qed.

Lemma set_from_In (seen l : list key) (k : key) :
  In k (set_from key_eqb seen l) <-> In k l /\ ~ In k seen.
Proof. apply set_from_elements. apply key_eqb_eq. Qed.

Lemma set_from_NoDup (seen l : list key) : List.NoDup (set_from key_eqb seen l).
Proof. apply set_from_distinct. apply key_eqb_eq. Qed.

Lemma existsb_new_Set (k : key) (l : list key) :
  existsb (key_eqb k) (new_Set key_eqb l) = existsb (key_eqb k) l.
Proof.
  apply eq_true_iff_eq. rewrite !existsb_key_In. unfold new_Set.
  rewrite set_from_In. simpl. tauto.
Qed.

Lemma filter_seen (id : key) (seen : list key) (l : list entry) :
  List.filter (fun x => negb (key_eqb (e_pk x) id))
    (List.filter (fun x => negb (existsb (key_eqb (e_pk x)) seen)) l) =
  List.filter (fun x => negb (existsb (key_eqb (e_pk x)) (id :: seen))) l.
Proof.
  induction l as [|y l IH]; [reflexivity|]. simpl.
  destruct (existsb (key_eqb (e_pk y)) seen); simpl.
  - rewrite orb_true_r. exact IH.
  - rewrite orb_false_r. destruct (key_eqb (e_pk y) id); simpl; [exact IH|now f_equal].
Qed.

Lemma filter_none_seen (l : list entry) :
  List.filter (fun x => negb (existsb (key_eqb (e_pk x)) [])) l = l.
Proof. induction l as [|y l IH]; simpl; [reflexivity|now f_equal]. Qed.

Section deleting.
Variables (input : descriptor) (dir : IDB.direction).
Hypothesis Hoff : offset input = None.
Hypothesis Hlim : limit input = None.
Hypothesis Hdir : is_unique dir = false.

(** The deleting handler over the entries [R] of which those of the
      records [seen] are gone already: it deletes the record of every
      entry it meets, once, and counts it. *)
Lemma onsuccess_delete (R : list entry) (seen : list key) (store : objectStore)
      (st : closure) (log : list call) (fuel : nat) :
    (length R < fuel)%nat ->
    exists log',
      onsuccess fuel TDelete input dir store st log
        (settle dir (List.filter (fun x => negb (existsb (key_eqb (e_pk x)) seen)) R)) =
      Some (Fulfilled (Number (count_var st
                               + Z.of_nat (length (set_from key_eqb seen (map e_pk R))))),
            delete_all (set_from key_eqb seen (map e_pk R)) store,
            log ++ log').
Proof.
    revert seen store st log fuel.
    induction R as [|x R IH]; intros seen store st log fuel Hf.
    - destruct fuel as [|fuel]; [simpl in Hf; lia|].
      exists []. simpl. rewrite Z.add_0_r, app_nil_r. reflexivity.
    - simpl List.filter. simpl map. simpl set_from.
      destruct (existsb (key_eqb (e_pk x)) seen) eqn:E; simpl negb; cbv iota.
      + apply IH. simpl in Hf. lia.
      + assert (Hs : forall l, settle dir (x :: l) = Some (x, l))
          by (intros l; destruct dir; try discriminate; reflexivity).
        rewrite Hs. destruct fuel as [|fuel]; [simpl in Hf; lia|].
        simpl onsuccess. rewrite Hoff, Hlim.
        unfold continue, beyond. rewrite Hdir. simpl snd. simpl fst.
        rewrite filter_seen.
        edestruct (IH (e_pk x :: seen) (delete_record (e_pk x) store)
                     (mkClosure (count_var st + 1) (data_var st) (advanceFlag st))
                     ((log ++ [CDelete (e_pk x)]) ++ [CContinue]) fuel) as (log' & Heq).
        { simpl in Hf. lia. }
        exists ([CDelete (e_pk x); CContinue] ++ log').
        rewrite Heq. simpl count_var. simpl length. simpl delete_all.
        rewrite <- !app_assoc. simpl.
        rewrite Nat2Z.inj_succ, <- Z.add_1_l, Z.add_assoc. reflexivity.
Qed.
End deleting.

Lemma delete_all_without (ids : list key) (s : objectStore) :
  delete_all ids s = without ids s.
Proof.
  revert s; induction ids as [|id ids IH]; intros s.
  - unfold without. simpl. destruct s as [rs ix]. simpl. f_equal.
    induction rs as [|r rs IHr]; simpl; [reflexivity|now f_equal].
  - simpl. rewrite IH. unfold without, delete_record. simpl. f_equal.
    induction (records s) as [|r rs IHr]; [reflexivity|]. simpl.
    destruct (key_eqb (r_id r) id); simpl; [exact IHr|].
    destruct (existsb (key_eqb (r_id r)) ids); simpl; [exact IHr|now f_equal].
Qed.

Lemma without_new_Set (l : list key) (s : objectStore) :
  without (new_Set key_eqb l) s = without l s.
Proof.
  unfold without. f_equal. apply filter_ext. intros r. now rewrite existsb_new_Set.
Qed.

(** What [remove] does without [offset] and [limit], in direction [next]
    or [prev]: it deletes the record of every entry of the range and
    returns how many distinct records that is. *)
Lemma remove_all (db : database) (input : descriptor) (store : objectStore)
    (q : query_arg) :
  offset input = None -> limit input = None ->
  is_unique (direction_of input) = false ->
  db !! table input = Some store ->
  filter (value input) = Return q ->
  let ids := map e_pk (candidates store (source_of store input) q (direction_of input)) in
  exists r,
    remove db input = Some r
    /\ settled r = Fulfilled (Number (Z.of_nat (length (new_Set key_eqb ids))))
    /\ db_after r = <[table input := without ids store]> db.
Proof.
  intros Hoff Hlim Hdir Hdb Hq ids. enter; unfold query.
  rewrite (transaction_found _ _ _ Hdb), Hq.
  fold (source_of store input). fold (direction_of input).
  set (src := source_of store input) in *. set (dir := direction_of input) in *.
  unfold openCursor.
  replace (settle dir (candidates store src q dir))
    with (settle dir (List.filter (fun x => negb (existsb (key_eqb (e_pk x)) []))
                        (candidates store src q dir)))
    by (now rewrite filter_none_seen).
  edestruct (onsuccess_delete input dir Hoff Hlim Hdir (candidates store src q dir) []
               store (mkClosure 0 [] false)
               ([CTransaction (table input) (if is_delete TDelete then readwrite else readonly)]
                  ++ [COpenCursor src q dir])
               (enough (candidates store src q dir))) as (log' & Heq).
  { unfold enough. lia. }
  rewrite Heq. eexists. split; [reflexivity|]. simpl.
  fold ids. fold (new_Set key_eqb ids).
  split; [reflexivity|]. now rewrite delete_all_without, without_new_Set.
Qed.

Lemma insert_entry_In (e x : entry) (l : list entry) :
  In x (insert_entry e l) <-> x = e \/ In x l.
Proof.
  induction l as [|y l IH]; simpl; [intuition congruence|].
  destruct (entry_leb e y); simpl; [intuition congruence|].
  rewrite IH. intuition congruence.
Qed.

Lemma sort_entries_In (x : entry) (l : list entry) :
  In x (sort_entries l) <-> In x l.
Proof.
  induction l as [|e l IH]; simpl; [tauto|].
  rewrite insert_entry_In, IH. intuition congruence.
Qed.

(** Every entry of a source refers to a record of the store. *)
Lemma source_entries_rec (s : objectStore) (src : source) (e : entry) :
  In e (source_entries s src) -> In (e_rec e) (records s).
Proof.
  destruct src as [|name ix]; simpl.
  - unfold store_entries. rewrite in_map_iff. intros (r & <- & Hr). exact Hr.
  - unfold index_entries. rewrite sort_entries_In, in_flat_map.
    intros (r & Hr & He). apply in_map_iff in He as (k & <- & _). exact Hr.
Qed.

Lemma candidates_In (s : objectStore) (src : source) (q : query_arg)
    (d : IDB.direction) (e : entry) :
  In e (candidates s src q d) <->
  In e (source_entries s src) /\ in_query q (e_key e) = true.
Proof.
  unfold candidates.
  assert (H : In e (in_direction d (List.filter (fun e => in_query q (e_key e))
                                      (source_entries s src)))
              <-> In e (List.filter (fun e => in_query q (e_key e)) (source_entries s src))).
  { destruct d; simpl; rewrite <- ?in_rev; reflexivity. }
  rewrite H. apply filter_In.
Qed.

Lemma NoDup_map_filter {A B} (f : A -> B) (p : A -> bool) (l : list A) :
  List.NoDup (map f l) -> List.NoDup (map f (List.filter p l)).
Proof.
  induction l as [|x l IH]; simpl; [trivial|].
  intros H. inversion H as [|? ? Hx Hl]; subst.
  destruct (p x); simpl; [|auto].
  constructor; [|auto]. intros Hin. apply Hx.
  apply in_map_iff in Hin as (y & Hy & Hyl). apply in_map_iff.
  exists y. split; [exact Hy|]. apply filter_In in Hyl. tauto.
Qed.

Lemma NoDup_map_eq {A B} (f : A -> B) (l : list A) (a b : A) :
  List.NoDup (map f l) -> In a l -> In b l -> f a = f b -> a = b.
Proof.
  induction l as [|x l IH]; simpl; [tauto|].
  intros H Ha Hb E. inversion H as [|? ? Hx Hl]; subst.
  destruct Ha as [->|Ha], Hb as [->|Hb]; auto.
  - exfalso. apply Hx. rewrite E. now apply in_map.
  - exfalso. apply Hx. rewrite <- E. now apply in_map.
Qed.

(** With unique primary keys, as many records leave the store as there
    are distinct keys of records of the store among [ids]. *)
Lemma without_length (ids : list key) (s : objectStore) :
  List.NoDup (map r_id (records s)) ->
  (forall k, In k ids -> In k (map r_id (records s))) ->
  (length (new_Set key_eqb ids) + length (records (without ids s)) = length (records s))%nat.
Proof.
  intros Hnd Hsub. unfold without. simpl.
  rewrite <- (filter_length (fun r => existsb (key_eqb (r_id r)) ids) (records s)).
  f_equal.
  set (kept := List.filter (fun r => existsb (key_eqb (r_id r)) ids) (records s)).
  rewrite <- (length_map r_id kept).
  apply Nat.le_antisymm; apply NoDup_incl_length.
  - apply set_from_NoDup.
  - intros k Hk. apply set_from_In in Hk as [Hk _].
    destruct (proj1 (in_map_iff _ _ _) (Hsub k Hk)) as (r & <- & Hr).
    apply in_map. apply filter_In. split; [exact Hr|]. now apply existsb_key_In.
  - now apply NoDup_map_filter.
  - intros k Hk. apply in_map_iff in Hk as (r & <- & Hr).
    apply filter_In in Hr as [_ Hr]. apply existsb_key_In in Hr.
    apply set_from_In. simpl. tauto.
Qed.

(** C9, as amended.  For a descriptor without [offset] and [limit] (and a
    direction of the data model, [next] or [prev]), on a table with
    unique primary keys and for a value that [filter] accepts: [remove]
    deletes exactly the records that [select] returns for the same
    descriptor, it returns their number, and afterwards the table holds
    exactly the other records. *)
Theorem remove_deletes_what_select_returns (db : database) (d : descriptor)
    (store : objectStore) (q : query_arg) :
  offset d = None -> limit d = None ->
  is_unique (direction_of d) = false ->
  db !! table d = Some store ->
  filter (value d) = Return q ->
  List.NoDup (map r_id (records store)) ->
  exists sel rs rr after,
    select db d = Some rs /\ settled rs = Fulfilled (Records sel)
    /\ remove db d = Some rr
    /\ db_after rr = <[table d := after]> db
    /\ indexes after = indexes store
    /\ (forall r, In r (records after) <-> In r (records store) /\ ~ In r sel)
    /\ settled rr = Fulfilled (Number (Z.of_nat (length (records store))
                                       - Z.of_nat (length (records after)))).
Proof.
  intros Hoff Hlim Hdir Hdb Hq Hnd.
  destruct (select_page db d store q Hdb Hq) as (rs & Hrs & _ & _ & Hs).
  destruct (remove_all db d store q Hoff Hlim Hdir Hdb Hq) as (rr & Hrr & Hn & Hafter).
  rewrite Hoff, Hlim, (visited_all store d q Hdir) in Hs.
  set (cands := candidates store (source_of store d) q (direction_of d)) in *.
  assert (Hsel : settled rs = Fulfilled (Records (map e_rec cands))).
  { rewrite Hs. destruct cands; reflexivity. }
  assert (Hids : map e_pk cands = map r_id (map e_rec cands))
    by (rewrite map_map; reflexivity).
  assert (Hin : forall r, In r (map e_rec cands) -> In r (records store)).
  { intros r Hr. apply in_map_iff in Hr as (e & <- & He).
    apply candidates_In in He as [He _]. now apply source_entries_rec in He. }
  exists (map e_rec cands), rs, rr, (without (map r_id (map e_rec cands)) store).
  split; [exact Hrs|]. split; [exact Hsel|]. split; [exact Hrr|].
  split; [now rewrite <- Hids|]. split; [reflexivity|]. split.
  - intros r. unfold without. simpl. rewrite filter_In, negb_true_iff.
    split; intros [Hr Hn']; (split; [exact Hr|]).
    + intros Hsel'. assert (Ht : existsb (key_eqb (r_id r)) (map r_id (map e_rec cands)) = true)
        by (apply existsb_key_In; now apply in_map).
      congruence.
    + apply not_true_is_false. intros Ht. apply Hn'.
      apply existsb_key_In, in_map_iff in Ht as (r' & E & Hr').
      now rewrite <- (NoDup_map_eq r_id (records store) r' r Hnd (Hin r' Hr') Hr E).
  - rewrite Hn, Hids. f_equal. f_equal.
    pose proof (without_length (map r_id (map e_rec cands)) store Hnd) as Hlen.
    rewrite <- Hlen; [lia|].
    intros k Hk. apply in_map_iff in Hk as (r & <- & Hr). apply in_map. now apply Hin.
Qed.

Lemma remove_deletes_what_select_returns_witness :
  exists sel rs rr after,
    select sample_db all_songs = Some rs /\ settled rs = Fulfilled (Records sel)
    /\ remove sample_db all_songs = Some rr
    /\ db_after rr = <[table all_songs := after]> sample_db
    /\ indexes after = indexes songs
    /\ (forall r, In r (records after) <-> In r (records songs) /\ ~ In r sel)
    /\ settled rr = Fulfilled (Number (Z.of_nat (length (records songs))
                                       - Z.of_nat (length (records after)))).
Proof.
  apply (remove_deletes_what_select_returns sample_db all_songs songs Null);
    try reflexivity.
  simpl. repeat constructor; simpl; intuition discriminate.
Defined.

(** C9, counterexample: with [limit: 1], [remove] deletes the first song
    only, although [select] without [offset] and [limit] returns all
    three: the second and third song are still in the table. *)
Lemma remove_honours_limit :
  let d := with_page all_songs None (Some 1) in
  exists rs rr,
    select sample_db (unpaged d) = Some rs
    /\ settled rs = Fulfilled (Records [song1; song2; song3])
    /\ remove sample_db d = Some rr
    /\ settled rr = Fulfilled (Number 1)
    /\ db_after rr = <["songs"%string := mkStore [song2; song3] (indexes songs)]> sample_db.
Proof.
  do 2 eexists. split; [vm_compute; reflexivity|]. split; [reflexivity|].
  split; [vm_compute; reflexivity|]. split; [reflexivity|]. vm_compute. reflexivity.
Qed.

End RemoveSpec.

(** ** The tokenizer *)

Module TokensSpec.
Import IDB Indb Vocabulary SetFacts.

Section tokenizer.
Variables (is_L is_N : N -> bool) (toLowerCase : jsstring -> jsstring).

Lemma split_at_cons (s : list N) : exists p ps, split_at (separator is_L is_N) s = p :: ps.
Proof.
  induction s as [|c s (p & ps & IH)]; simpl; [eauto|].
  destruct (separator is_L is_N c); [eauto|]. rewrite IH. eauto.
Qed.

(** The matches of the regular expression are the pieces that splitting
    on separators leaves, the match in progress going to the first. *)
Lemma scan_split (run s : list N) :
  scan is_L is_N run s =
  match split_at (separator is_L is_N) s with
  | p :: ps => List.filter nonempty ((run ++ p) :: ps)
  | [] => []
  end.
Proof.
  revert run; induction s as [|c s IH]; intros run.
  - simpl. rewrite app_nil_r. destruct run; reflexivity.
  - destruct (split_at_cons s) as (p & ps & E).
    cbn [scan split_at].
    change (separator is_L is_N c) with (negb (word_char is_L is_N c)).
    rewrite E. destruct (word_char is_L is_N c); cbn [negb].
    + rewrite IH, E, <- app_assoc. reflexivity.
    + rewrite (IH []), E, app_nil_r. destruct run; reflexivity.
Qed.

Lemma scan_runs (s : list N) :
  scan is_L is_N [] s = List.filter nonempty (split_at (separator is_L is_N) s).
Proof.
  rewrite scan_split.
  destruct (split_at_cons s) as (p & ps & E). now rewrite E.
Qed.

Lemma scan_words (run s : list N) :
  forallb (word_char is_L is_N) run = true ->
  Forall (fun w => w <> [] /\ forallb (word_char is_L is_N) w = true) (scan is_L is_N run s).
Proof.
  revert run; induction s as [|c s IH]; intros run Hrun; simpl.
  - destruct run; constructor; [split; [discriminate|exact Hrun]|constructor].
  - destruct (word_char is_L is_N c) eqn:Hc.
    + apply IH. rewrite forallb_app, Hrun. simpl. now rewrite Hc.
    + destruct run as [|r run]; [now apply IH|].
      constructor; [split; [discriminate|exact Hrun]|now apply IH].
Qed.

Lemma new_Set_first (l : list jsstring) : new_Set jsstring_eqb l = first_occurrences l.
Proof.
  unfold new_Set, first_occurrences.
  now apply (set_from_first jsstring_eqb jsstring_eqb_eq [] l []).
Qed.

Lemma units_nonempty (run : list N) : run <> [] -> units run <> [].
Proof.
  destruct run as [|c run]; [congruence|]. intros _. unfold units. simpl.
  unfold code_units. destruct (65536 <=? c)%N; discriminate.
Qed.

(** [tokens] on a string: the distinct matches in the lower-cased string. *)
Lemma tokens_string (s : jsstring) :
  s <> [] ->
  tokens is_L is_N toLowerCase (JString s) =
  new_Set jsstring_eqb (map units (scan is_L is_N [] (code_points (toLowerCase s)))).
Proof.
  intros Hs. destruct s as [|c s]; [congruence|].
  unfold tokens, match_words.
  destruct (scan is_L is_N [] (code_points (toLowerCase (c :: s)))); reflexivity.
Qed.

Lemma tokens_lowered (s : jsstring) :
  s <> [] ->
  tokens is_L is_N toLowerCase (JString s) = lowered_tokens is_L is_N toLowerCase s.
Proof.
  intros Hs. rewrite tokens_string by exact Hs.
  rewrite scan_runs, new_Set_first. reflexivity.
Qed.

Lemma tokens_other (v : jsval key) :
  (forall s, v <> JString s) -> tokens is_L is_N toLowerCase v = [].
Proof. intros H. destruct v; try reflexivity. now destruct (H s). Qed.

Lemma tokens_distinct_words (v : jsval key) :
  List.NoDup (tokens is_L is_N toLowerCase v)
  /\ Forall (word is_L is_N) (tokens is_L is_N toLowerCase v).
Proof.
  assert (Hstr : forall s, List.NoDup (tokens is_L is_N toLowerCase (JString s))
                   /\ Forall (word is_L is_N) (tokens is_L is_N toLowerCase (JString s))).
  { intros s. destruct s as [|c s]; [split; constructor|].
    rewrite tokens_string by discriminate. split.
    - apply set_from_distinct, jsstring_eqb_eq.
    - apply List.Forall_forall. intros w Hw. apply set_from_subset in Hw.
      apply in_map_iff in Hw as (run & <- & Hrun).
      pose proof (scan_words [] (code_points (toLowerCase (c :: s))) eq_refl) as H.
      rewrite List.Forall_forall in H. destruct (H run Hrun) as [Hne Hall].
      split; [now apply units_nonempty|]. exists run. auto. }
  destruct v; try (split; constructor). apply Hstr.
Qed.

End tokenizer.

Lemma scan_ext (l1 n1 l2 n2 : N -> bool) (run s : list N) :
  Forall (fun c => word_char l1 n1 c = word_char l2 n2 c) s ->
  scan l1 n1 run s = scan l2 n2 run s.
Proof.
  intros H. revert run. induction H as [|c s Hc _ IH]; intros run; [reflexivity|].
  simpl. rewrite Hc, !IH. reflexivity.
Qed.

Lemma is_ascii_check (s : jsstring) :
  forallb (fun c => (c <? 128)%N) s = true -> is_ascii s.
Proof.
  unfold is_ascii. rewrite forallb_forall, List.Forall_forall.
  intros H c Hc. apply N.ltb_lt. now apply H.
Qed.

(** ASCII text: every code unit is a code point, and conversely. *)
Lemma code_points_ascii (s : jsstring) : is_ascii s -> code_points s = s.
Proof.
  unfold is_ascii. induction 1 as [|c s Hc Hs IH]; [reflexivity|].
  cbn [code_points]. destruct s as [|d s]; [reflexivity|].
  assert (E : high_surrogate c = false).
  { unfold high_surrogate. apply andb_false_intro1. apply N.leb_gt. lia. }
  rewrite E. cbn [andb]. now rewrite IH.
Qed.

Lemma units_ascii (w : list N) : is_ascii w -> units w = w.
Proof.
  unfold is_ascii. induction 1 as [|c w Hc Hw IH]; [reflexivity|].
  unfold units in *. cbn [flat_map]. rewrite IH. unfold code_units.
  assert (E : (65536 <=? c)%N = false) by (apply N.leb_gt; lia).
  now rewrite E.
Qed.

Lemma ascii_lower_ascii (s : jsstring) : is_ascii s -> is_ascii (ascii_toLowerCase s).
Proof.
  unfold is_ascii, ascii_toLowerCase. rewrite !List.Forall_forall. intros H x Hx.
  apply in_map_iff in Hx as (c & <- & Hc'). pose proof (H c Hc') as Hc.
  unfold ascii_upper. destruct (65 <=? c)%N eqn:E1; [|exact Hc].
  destruct (c <=? 90)%N eqn:E2; [|exact Hc]. simpl. apply N.leb_le in E2. lia.
Qed.

(** On ASCII text, tables that agree with the ASCII tables give the
    tokens that the ASCII tables give. *)
Lemma tokens_ascii is_L is_N toLowerCase (s : jsstring) :
  agrees_with_ascii is_L is_N toLowerCase ->
  is_ascii s ->
  tokens is_L is_N toLowerCase (JString s) =
  tokens ascii_is_L ascii_is_N ascii_toLowerCase (JString s).
Proof.
  intros (HL & HN & Hlow) Hs.
  destruct s as [|c s]; [reflexivity|].
  rewrite !tokens_string by discriminate.
  rewrite (Hlow _ Hs). f_equal. f_equal. apply scan_ext.
  pose proof (ascii_lower_ascii _ Hs) as Hs'.
  rewrite (code_points_ascii _ Hs').
  unfold is_ascii in Hs'.
  rewrite List.Forall_forall in *. intros x Hx. unfold word_char.
  now rewrite (HL x (Hs' x Hx)), (HN x (Hs' x Hx)).
Qed.

Section ascii_tables.
Variables (is_L is_N : N -> bool) (toLowerCase : jsstring -> jsstring).
Hypothesis Hagree : agrees_with_ascii is_L is_N toLowerCase.

Lemma separator_lower (c : N) :
  (c < 128)%N -> separator is_L is_N (ascii_lower c) = separator is_L is_N c.
Proof.
  destruct Hagree as (HL & HN & _). intros Hc. unfold separator, ascii_lower.
  destruct (ascii_upper c) eqn:E; [|reflexivity].
  unfold ascii_upper in E. apply andb_true_iff in E as [E1 E2].
  apply N.leb_le in E1, E2.
  rewrite (HL (c + 32)%N), (HN (c + 32)%N), (HL c), (HN c) by lia.
  unfold ascii_is_L, ascii_is_N, ascii_upper.
  repeat match goal with
         | |- context [(?a <=? ?b)%N] =>
             let H := fresh in
             destruct (N.leb_spec a b) as [H|H]; try lia
         end; reflexivity.
Qed.

Lemma split_at_lower (s : list N) :
  is_ascii s ->
  split_at (separator is_L is_N) (map ascii_lower s) = map (map ascii_lower) (split_at (separator is_L is_N) s).
Proof.
  unfold is_ascii. induction 1 as [|c s Hc Hs IH]; [reflexivity|].
  cbn [map split_at]. rewrite (separator_lower c Hc), IH.
  destruct (separator is_L is_N c); [reflexivity|].
  destruct (split_at (separator is_L is_N) s); reflexivity.
Qed.

Lemma split_at_ascii (s : list N) :
  is_ascii s -> Forall is_ascii (split_at (separator is_L is_N) s).
Proof.
  unfold is_ascii. induction 1 as [|c s Hc Hs IH]; [repeat constructor|].
  cbn [split_at]. destruct (separator is_L is_N c).
  - constructor; [constructor|exact IH].
  - destruct (split_at (separator is_L is_N) s) as [|p ps].
    + repeat constructor. exact Hc.
    + inversion IH; subst. constructor; [constructor; assumption|assumption].
Qed.

Lemma filter_nonempty_map (f : N -> N) (l : list (list N)) :
  List.filter nonempty (map (map f) l) = map (map f) (List.filter nonempty l).
Proof.
  induction l as [|p l IH]; [reflexivity|]. cbn [map List.filter].
  destruct p; simpl; now rewrite IH.
Qed.

(** On ASCII text it makes no difference whether the string is
    lower-cased before it is split or the pieces after. *)
Lemma lowered_is_spec_on_ascii (s : jsstring) :
  is_ascii s ->
  lowered_tokens is_L is_N toLowerCase s = spec_tokens is_L is_N toLowerCase s.
Proof.
  intros Hs. destruct Hagree as (HL & HN & Hlow).
  unfold lowered_tokens, spec_tokens, split_on_runs. f_equal.
  rewrite (Hlow s Hs). rewrite (code_points_ascii _ (ascii_lower_ascii _ Hs)).
  rewrite (code_points_ascii _ Hs).
  change (ascii_toLowerCase s) with (map ascii_lower s).
  rewrite (split_at_lower s Hs), filter_nonempty_map, !map_map.
  apply map_ext_in. intros p Hp. apply filter_In in Hp as [Hp _].
  pose proof (split_at_ascii s Hs) as Hall. rewrite List.Forall_forall in Hall.
  specialize (Hall p Hp).
  rewrite (units_ascii p Hall), (Hlow p Hall).
  apply units_ascii. exact (ascii_lower_ascii p Hall).
Qed.
End ascii_tables.

(** C8, as amended.  [tokens] yields the empty sequence for every input
    that is not a string and for the empty string.  For any other string
    it lower-cases the string as a whole and then splits it: the tokens
    are the pieces that splitting the lower-cased string on runs of
    characters that are neither letters nor numbers leaves, each piece
    once, in the order of first occurrence; they are distinct, not empty
    and runs of letters and numbers.  For tables that are the Unicode
    tables on ASCII and for ASCII text this is what the specification
    describes, splitting first and lower-casing the pieces, and
    [tokens("hello, world!")] is [["hello","world"]], [tokens("")] is
    [[]] and [tokens("a a b")] is [["a","b"]]. *)
Theorem tokens_spec is_L is_N toLowerCase :
  (forall v, (forall s, v <> JString s) -> tokens is_L is_N toLowerCase v = [])
  /\ tokens is_L is_N toLowerCase (JString []) = []
  /\ (forall s, s <> [] ->
        tokens is_L is_N toLowerCase (JString s) = lowered_tokens is_L is_N toLowerCase s)
  /\ (forall v, List.NoDup (tokens is_L is_N toLowerCase v)
        /\ Forall (word is_L is_N) (tokens is_L is_N toLowerCase v))
  /\ (agrees_with_ascii is_L is_N toLowerCase ->
        (forall s, is_ascii s ->
           tokens is_L is_N toLowerCase (JString s) = spec_tokens is_L is_N toLowerCase s)
        /\ tokens is_L is_N toLowerCase (JString (cps "hello, world!"))
           = [cps "hello"; cps "world"]
        /\ tokens is_L is_N toLowerCase (JString (cps "")) = []
        /\ tokens is_L is_N toLowerCase (JString (cps "a a b")) = [cps "a"; cps "b"]).
Proof.
  split; [apply tokens_other|]. split; [reflexivity|].
  split; [apply tokens_lowered|].
  split; [apply tokens_distinct_words|].
  intros Hascii. split; [|repeat split].
  - intros s Hs. destruct s as [|c s]; [reflexivity|].
    rewrite tokens_lowered by discriminate.
    now apply lowered_is_spec_on_ascii.
  - rewrite (tokens_ascii _ _ _ _ Hascii) by (apply is_ascii_check; reflexivity).
    vm_compute. reflexivity.
  - rewrite (tokens_ascii _ _ _ _ Hascii) by (apply is_ascii_check; reflexivity).
    vm_compute. reflexivity.
Qed.

Lemma ascii_tables_agree : agrees_with_ascii ascii_is_L ascii_is_N ascii_toLowerCase.
Proof. repeat split; reflexivity. Qed.

Lemma tokens_spec_witness :
  agrees_with_ascii ascii_is_L ascii_is_N ascii_toLowerCase
  /\ (forall s, is_ascii s ->
        tokens ascii_is_L ascii_is_N ascii_toLowerCase (JString s)
        = spec_tokens ascii_is_L ascii_is_N ascii_toLowerCase s)
  /\ tokens ascii_is_L ascii_is_N ascii_toLowerCase (JString (cps "hello, world!"))
       = [cps "hello"; cps "world"]
  /\ tokens ascii_is_L ascii_is_N ascii_toLowerCase (JString (cps "")) = []
  /\ tokens ascii_is_L ascii_is_N ascii_toLowerCase (JString (cps "a a b"))
       = [cps "a"; cps "b"].
Proof.
  split; [exact ascii_tables_agree|].
  exact (proj2 (proj2 (proj2 (proj2
           (tokens_spec ascii_is_L ascii_is_N ascii_toLowerCase)))) ascii_tables_agree).
Defined.

(** C8, counterexample: in the words of the specification, which splits
    the string and lower-cases the pieces, the string of U+0130 (capital
    I with a dot above) and [A] is one token, its lower case; [tokens]
    lower-cases it first, to [i], the combining dot U+0307 and [a], and
    the dot, which is not a letter, splits it into the two tokens [i] and
    [a]. *)
Lemma tokens_lowercases_before_splitting :
  let s := [304; 65]%N in
  tokens dotted_is_L ascii_is_N dotted_toLowerCase (JString s) = [cps "i"; cps "a"]
  /\ spec_tokens dotted_is_L ascii_is_N dotted_toLowerCase s = [[105; 775; 97]%N]
  /\ tokens dotted_is_L ascii_is_N dotted_toLowerCase (JString s)
     <> spec_tokens dotted_is_L ascii_is_N dotted_toLowerCase s.
Proof.
  split; [vm_compute; reflexivity|]. split; [vm_compute; reflexivity|].
  vm_compute. discriminate.
Qed.

End TokensSpec.

(** ** The search engine *)

Module SearchSpec.
Import IDB Indb KeyFacts Vocabulary SetFacts SelectFacts RemoveSpec TokensSpec.

Lemma same_value_zero_scalar (a b : key) :
  scalar a = true -> same_value_zero a b = key_eqb a b.
Proof.
  destruct a as [n|s|ks], b as [m|t|ls]; simpl; try discriminate; intros _;
    try reflexivity.
  - apply eq_true_iff_eq. rewrite Z.eqb_eq, key_eqb_eq.
    split; [now intros ->|now intros [= ->]].
  - apply eq_true_iff_eq. rewrite jsstring_eqb_eq, key_eqb_eq.
    split; [now intros ->|now intros [= ->]].
Qed.

Lemma existsb_same_value_zero (id : key) (l : list key) :
  scalar id = true -> existsb (same_value_zero id) l = existsb (key_eqb id) l.
Proof.
  intros H. induction l as [|x l IH]; simpl; [reflexivity|].
  now rewrite IH, same_value_zero_scalar.
Qed.

Lemma new_Set_scalar (l : list key) :
  Forall (fun k => scalar k = true) l ->
  new_Set same_value_zero l = new_Set key_eqb l.
Proof.
  intros H. apply set_from_ext. simpl. intros a b Ha _.
  apply same_value_zero_scalar. rewrite List.Forall_forall in H. now apply H.
Qed.

Lemma filter_and {A} (p q : A -> bool) (l : list A) :
  List.filter q (List.filter p l) = List.filter (fun x => p x && q x) l.
Proof.
  induction l as [|x l IH]; simpl; [reflexivity|].
  destruct (p x); simpl; [destruct (q x); now rewrite IH|exact IH].
Qed.

(** The loop of the "and" branch computes the intersection of the first
    set with all the others, in the order of the first. *)
Lemma intersect_in_all (rest : list (list key)) (ids : list key) :
  Forall (fun k => scalar k = true) ids ->
  Forall (Forall (fun k => scalar k = true)) rest ->
  intersect ids rest = in_all ids rest.
Proof.
  unfold in_all. revert ids; induction rest as [|r rest IH]; intros ids Hids Hrest.
  - simpl. induction ids as [|x ids IHi]; simpl; [reflexivity|].
    f_equal. apply IHi. now inversion Hids.
  - inversion Hrest as [|? ? Hr Hrest']; subst. simpl.
    assert (E : List.filter (has same_value_zero (new_Set same_value_zero r)) ids =
                List.filter (fun id => existsb (key_eqb id) r) ids).
    { apply filter_ext_in. intros id Hid. unfold has.
      rewrite List.Forall_forall in Hids.
      rewrite existsb_same_value_zero by now apply Hids.
      rewrite new_Set_scalar by exact Hr. apply existsb_new_Set. }
    rewrite E.
    assert (Hsub : Forall (fun k => scalar k = true)
                     (List.filter (fun id => existsb (key_eqb id) r) ids)).
    { rewrite List.Forall_forall in *. intros k Hk. apply filter_In in Hk. now apply Hids. }
    rewrite <- filter_and.
    destruct (List.filter (fun id => existsb (key_eqb id) r) ids) as [|x l] eqn:F;
      [reflexivity|].
    now apply IH.
Qed.

Lemma index_entries_In (s : objectStore) (ix : index_def) (e : entry) :
  In e (index_entries s ix) <->
  In (e_rec e) (records s) /\ In (e_key e) (index_keys ix (e_rec e)).
Proof.
  unfold index_entries. rewrite sort_entries_In, in_flat_map. split.
  - intros (r & Hr & He). apply in_map_iff in He as (k & <- & Hk). now split.
  - intros [Hr Hk]. exists (e_rec e). split; [exact Hr|].
    apply in_map_iff. exists (e_key e). split; [now destruct e|exact Hk].
Qed.

Lemma getAllKeys_In (s : objectStore) (ix : index_def) (k id : key) :
  In id (getAllKeys s ix k) <->
  exists r, In r (records s) /\ r_id r = id /\ In k (index_keys ix r).
Proof.
  unfold getAllKeys. rewrite in_map_iff. split.
  - intros (e & <- & He). apply filter_In in He as [He Hk].
    apply key_eqb_eq in Hk. subst k. apply index_entries_In in He as [Hr Hin].
    exists (e_rec e). auto.
  - intros (r & Hr & <- & Hk). exists (mkEntry k r). split; [reflexivity|].
    apply filter_In. split; [|apply key_eqb_refl].
    apply index_entries_In. now split.
Qed.


Section store.
Variables (store : objectStore) (ix : index_def).
Hypothesis Hunique : List.NoDup (map r_id (records store)).
Hypothesis Hscalar : Forall (fun r => scalar (r_id r) = true) (records store).


Lemma getAllKeys_scalar (k : key) :
  Forall (fun id => scalar id = true) (getAllKeys store ix k).
Proof.
  apply List.Forall_forall. intros id Hid.
  apply getAllKeys_In in Hid as (r & Hr & <- & _).
  rewrite List.Forall_forall in Hscalar. now apply Hscalar.
Qed.

Lemma get_record (id : key) (r : record) :
  get store id = Some r <-> In r (records store) /\ r_id r = id.
Proof.
  unfold get. split.
  - intros H. apply find_some in H as [Hr E]. apply key_eqb_eq in E. now split.
  - intros [Hr <-]. clear Hscalar. revert Hunique Hr.
    induction (records store) as [|x l IH]; simpl; [tauto|].
    intros Hnd [->|Hr]; [now rewrite key_eqb_refl|].
    inversion Hnd as [|? ? Hx Hl]; subst.
    destruct (key_eqb (r_id x) (r_id r)) eqn:E; [|now apply IH].
    apply key_eqb_eq in E. exfalso. apply Hx. rewrite E. now apply in_map.
Qed.

Lemma key_sets_scalar (words : list jsstring) :
  Forall (Forall (fun id => scalar id = true)) (key_sets store ix words).
Proof.
  unfold key_sets. apply List.Forall_forall. intros l Hl.
  apply in_map_iff in Hl as (w & <- & _). apply getAllKeys_scalar.
Qed.

(** What [combine] makes of the key sets of the words. *)
Lemma combine_key_sets (op : string) (words : list jsstring) :
  combine op (key_sets store ix words) =
  if String.eqb op "or" then new_Set key_eqb (concat (key_sets store ix words))
  else match key_sets store ix words with
       | [] => []
       | first :: rest => in_all first rest
       end.
Proof.
  unfold combine. pose proof (key_sets_scalar words) as Hs.
  destruct (String.eqb op "or").
  - apply new_Set_scalar. apply List.Forall_forall. intros id Hid.
    apply in_concat in Hid as (l & Hl & Hid).
    rewrite List.Forall_forall in Hs. specialize (Hs l Hl).
    rewrite List.Forall_forall in Hs. now apply Hs.
  - destruct (key_sets store ix words) as [|first rest]; [reflexivity|].
    inversion Hs; subst. now apply intersect_in_all.
Qed.



Lemma index_keys_distinct (r : record) : List.NoDup (index_keys ix r).
Proof.
  unfold index_keys. destruct (get_field (keyPath ix) (r_fields r)) as [k|]; [|constructor].
  assert (H1 : forall x : key, List.NoDup [x])
    by (intros x; constructor; [simpl; tauto|constructor]).
  destruct k as [n|s|ks]; try apply H1.
  destruct (multiEntry ix); [apply set_from_NoDup|apply H1].
Qed.

Lemma filter_key_distinct (k : key) (keys : list key) :
  List.NoDup keys ->
  List.filter (fun k' => key_eqb k' k) keys = []
  \/ List.filter (fun k' => key_eqb k' k) keys = [k].
Proof.
  induction keys as [|x keys IH]; simpl; [tauto|].
  intros H. inversion H as [|? ? Hx Hk]; subst.
  destruct (key_eqb x k) eqn:E; [|auto].
  apply key_eqb_eq in E. subst x. right. f_equal.
  clear IH H Hk. induction keys as [|y keys IH]; simpl; [reflexivity|].
  destruct (key_eqb y k) eqn:E.
  - apply key_eqb_eq in E. subst. simpl in Hx. tauto.
  - apply IH. simpl in Hx. tauto.
Qed.

Lemma insert_entry_perm (e : entry) (l : list entry) :
  Permutation (insert_entry e l) (e :: l).
Proof.
  induction l as [|x l IH]; simpl; [reflexivity|].
  destruct (entry_leb e x); [reflexivity|].
  apply perm_trans with (x :: e :: l); [now apply perm_skip|apply perm_swap].
Qed.

Lemma sort_entries_perm (l : list entry) : Permutation (sort_entries l) l.
Proof.
  induction l as [|e l IH]; simpl; [reflexivity|].
  apply perm_trans with (e :: sort_entries l);
    [apply insert_entry_perm|now apply perm_skip].
Qed.

Lemma filter_perm {A} (p : A -> bool) (l l' : list A) :
  Permutation l l' -> Permutation (List.filter p l) (List.filter p l').
Proof.
  induction 1 as [|x l l' _ IH|x y l|l l' l'' _ IH1 _ IH2]; simpl.
  - reflexivity.
  - destruct (p x); [now apply perm_skip|exact IH].
  - destruct (p x), (p y); try reflexivity. apply perm_swap.
  - now apply perm_trans with (List.filter p l').
Qed.

(** The key set of a token holds a primary key once. *)
Lemma getAllKeys_distinct (k : key) : List.NoDup (getAllKeys store ix k).
Proof.
  unfold getAllKeys, index_entries.
  eapply Permutation_NoDup.
  { apply Permutation_sym, Permutation_map, filter_perm, sort_entries_perm. }
  clear Hscalar. revert Hunique.
  induction (records store) as [|r rs IH]; simpl; [constructor|].
  intros Hnd. inversion Hnd as [|? ? Hr Hrs]; subst.
  rewrite List.filter_app, map_app.
  assert (Hhead : map e_pk (List.filter (fun e => key_eqb (e_key e) k)
                    (map (fun k' => mkEntry k' r) (index_keys ix r))) = []
                  \/ map e_pk (List.filter (fun e => key_eqb (e_key e) k)
                    (map (fun k' => mkEntry k' r) (index_keys ix r))) = [r_id r]).
  { assert (E : List.filter (fun e => key_eqb (e_key e) k)
                  (map (fun k' => mkEntry k' r) (index_keys ix r)) =
                map (fun k' => mkEntry k' r)
                  (List.filter (fun k' => key_eqb k' k) (index_keys ix r))).
    { induction (index_keys ix r) as [|x l IHl]; simpl; [reflexivity|].
      destruct (key_eqb x k); simpl; now rewrite IHl. }
    rewrite E.
    destruct (filter_key_distinct k (index_keys ix r) (index_keys_distinct r)) as [-> | ->];
      [left|right]; reflexivity. }
  destruct Hhead as [-> | ->]; simpl; [now apply IH|].
  constructor; [|now apply IH].
  intros Hin. apply Hr. apply in_map_iff in Hin as (e & <- & He).
  apply filter_In in He as [He _]. apply in_flat_map in He as (r' & Hr' & He).
  apply in_map_iff in He as (k' & <- & _).
  change (In (r_id r') (map r_id rs)). now apply in_map.
Qed.



End store.




(** The examples of the documentation on the table of songs: "and" finds
    the songs that have all the words, "or" those that have one of them;
    a word that no song has empties the "and" result before any record is
    fetched. *)
Lemma search_examples :
  let find q op := search ascii_is_L ascii_is_N ascii_toLowerCase sample_db
                     "songs" "title" (JString (cps q)) op in
  settled (find "My super song" "and") = Fulfilled [Some song2]
  /\ settled (find "My song" "and") = Fulfilled [Some song1; Some song2]
  /\ settled (find "rock, song!" "or") = Fulfilled [Some song3; Some song1; Some song2]
  /\ settled (find "my metal song" "and") = Fulfilled []
  /\ existsb is_get (calls (find "my metal song" "and")) = false
  /\ calls (find "..." "and") = [].
Proof. vm_compute. repeat split; reflexivity. Qed.

End SearchSpec.

(** ** Pages *)

Module PagingFacts.
Import IDB Indb KeyFacts Vocabulary CursorFacts SelectFacts.

(** What [select] returns for a descriptor without [offset] and [limit]. *)
Lemma select_everything (db : database) (d : descriptor) (store : objectStore)
    (q : query_arg) :
  db !! table d = Some store -> filter (value d) = Return q ->
  exists r, select db (unpaged d) = Some r
    /\ settled r = Fulfilled (Records (map e_rec (visited store d q))).
Proof.
  intros Hdb Hq.
  destruct (select_page db (unpaged d) store q Hdb Hq) as (r & Hr & _ & _ & Hs).
  exists r. split; [exact Hr|]. rewrite Hs. simpl offset. simpl limit.
  change (visited store (unpaged d) q) with (visited store d q).
  destruct (visited store d q); reflexivity.
Qed.

(** A page asked for with a limit of at least 1 and either no offset or
    an offset that [advance] accepts is the slice of the full sequence:
    [off] records skipped, then [lim] records taken. *)
Lemma select_slice (db : database) (d : descriptor) (store : objectStore)
    (q : query_arg) (off : option Z) (lim : Z) :
  db !! table d = Some store -> filter (value d) = Return q ->
  1 <= lim ->
  match off with Some n => valid_count n = true | None => True end ->
  exists r, select db (with_page d off (Some lim)) = Some r
    /\ settled r = Fulfilled (Records
         (firstn (Z.to_nat lim)
            (skipn (match off with Some n => Z.to_nat n | None => O end)
               (map e_rec (visited store d q))))).
Proof.
  intros Hdb Hq Hlim Hoff.
  destruct (select_page db (with_page d off (Some lim)) store q Hdb Hq)
    as (r & Hr & _ & _ & Hs).
  exists r. split; [exact Hr|]. rewrite Hs. simpl offset. simpl limit.
  change (visited store (with_page d off (Some lim)) q) with (visited store d q).
  assert (Hpage : map e_rec (page off (Some lim) (visited store d q)) =
                  firstn (Z.to_nat lim)
                    (skipn (match off with Some n => Z.to_nat n | None => O end)
                       (map e_rec (visited store d q)))).
  { rewrite page_map. unfold page, quota.
    replace (Z.to_nat (Z.max 1 (lim - 0))) with (Z.to_nat lim) by lia.
    destruct off; reflexivity. }
  rewrite Hpage. destruct off as [n|]; [rewrite Hoff|]; destruct (visited store d q);
    reflexivity.
Qed.

(** With [offset: 0] and a record in range the promise stays pending. *)
Lemma select_offset_zero (db : database) (d : descriptor) (store : objectStore)
    (q : query_arg) (lim : option Z) :
  db !! table d = Some store -> filter (value d) = Return q ->
  visited store d q <> [] ->
  exists r, select db (with_page d (Some 0) lim) = Some r
    /\ settled r = Pending TypeError.
Proof.
  intros Hdb Hq Hne.
  destruct (select_page db (with_page d (Some 0) lim) store q Hdb Hq)
    as (r & Hr & _ & _ & Hs).
  exists r. split; [exact Hr|]. rewrite Hs. simpl offset.
  change (visited store (with_page d (Some 0) lim) q) with (visited store d q).
  destruct (visited store d q); [congruence|reflexivity].
Qed.

(** With [limit: 0] and no offset [select] returns the first record. *)
Lemma select_limit_zero (db : database) (d : descriptor) (store : objectStore)
    (q : query_arg) :
  db !! table d = Some store -> filter (value d) = Return q ->
  exists r, select db (with_page d None (Some 0)) = Some r
    /\ settled r = Fulfilled (Records (firstn 1 (map e_rec (visited store d q)))).
Proof.
  intros Hdb Hq.
  destruct (select_page db (with_page d None (Some 0)) store q Hdb Hq)
    as (r & Hr & _ & _ & Hs).
  exists r. split; [exact Hr|]. rewrite Hs. simpl offset. simpl limit.
  change (visited store (with_page d None (Some 0)) q) with (visited store d q).
  rewrite page_map. destruct (visited store d q); reflexivity.
Qed.

Lemma firstn_then_slice {A} (m n : nat) (l : list A) :
  firstn m l ++ firstn n (skipn m l) = firstn (m + n) l.
Proof.
  revert l; induction m as [|m IHm]; intros l; [reflexivity|].
  destruct l as [|x l]; simpl; [now rewrite firstn_nil|].
  f_equal. apply IHm.
Qed.

(** Consecutive slices of length [n] make up a prefix. *)
Lemma slices_concat {A} (n k : nat) (l : list A) :
  concat (map (fun i => firstn n (skipn (i * n) l)) (seq 0 (S k))) =
  firstn (S k * n) l.
Proof.
  induction k as [|k IH].
  - simpl. now rewrite app_nil_r, Nat.add_0_r.
  - rewrite seq_S, map_app, concat_app, IH.
    cbn [map concat Nat.add]. rewrite app_nil_r, firstn_then_slice.
    f_equal. lia.
Qed.

(** Pagination that asks for the first page without [offset]: the pages
    [0..k] of length [n] are delivered, and their concatenation is the
    prefix of length [(k+1) * n] of the full sequence. *)
Lemma pages_reconstruct (db : database) (d : descriptor) (store : objectStore)
    (q : query_arg) (n k : nat) :
  db !! table d = Some store -> filter (value d) = Return q ->
  (1 <= n)%nat -> Z.of_nat (k * n) <= 4294967295 ->
  let off i := match i with O => None | _ => Some (Z.of_nat (i * n)) end in
  let all := map e_rec (visited store d q) in
  forall i, (i <= k)%nat ->
    exists r, select db (with_page d (off i) (Some (Z.of_nat n))) = Some r
      /\ settled r = Fulfilled (Records (firstn n (skipn (i * n) all))).
Proof.
  intros Hdb Hq Hn Hk off all i Hi.
  destruct (select_slice db d store q (off i) (Z.of_nat n) Hdb Hq) as (r & Hr & Hs).
  - lia.
  - destruct i as [|i]; simpl; [exact I|].
    unfold valid_count. apply andb_true_intro. split; [apply Z.ltb_lt|apply Z.leb_le]; nia.
  - exists r. split; [exact Hr|]. rewrite Hs.
    destruct i as [|i]; cbv beta iota delta [off]; now rewrite !Nat2Z.id.
Qed.

(** [select({table})] returns the records of the table, each once, in
    the order of the store. *)
Lemma select_whole_table (db : database) (t : string) (store : objectStore) :
  db !! t = Some store ->
  exists r, select db (mkDescriptor t None JUndefined None None None) = Some r
    /\ settled r = Fulfilled (Records (records store)).
Proof.
  intros Hdb.
  destruct (select_everything db (mkDescriptor t None JUndefined None None None)
              store Null Hdb eq_refl) as (r & Hr & Hs).
  exists r. split; [exact Hr|]. rewrite Hs. do 2 f_equal.
  unfold visited, openCursor. rewrite walk_all_settle by reflexivity.
  unfold candidates, source_of, direction_of. simpl. unfold store_entries.
  induction (records store) as [|x l IH]; simpl; [reflexivity|now f_equal].
Qed.

End PagingFacts.

(** ** The data methods: reading *)

Module DataReadSpec.
Import IDB Indb IDBData IndbData KeyFacts Vocabulary DataVocabulary.
Import FilterSpec CursorFacts SelectFacts ReadSpec PagingFacts SetFacts RemoveSpec SearchSpec.

Lemma stores_lookup (c : connection) (t : string) :
  stores c !! t = fst <$> c !! t.
Proof. unfold stores. apply lookup_fmap. Qed.

Lemma stores_found (c : connection) (t : string) (sg : stored) :
  c !! t = Some sg -> stores c !! t = Some (fst sg).
Proof.
  intros H. rewrite stores_lookup.
  transitivity (fst <$> Some sg); [|reflexivity]. f_equal. exact H.
Qed.

Lemma stores_missing (c : connection) (t : string) :
  c !! t = None -> stores c !! t = None.
Proof.
  intros H. rewrite stores_lookup.
  transitivity (fst <$> (None : option stored)); [|reflexivity]. f_equal. exact H.
Qed.

Lemma select_missing (db : database) (d : descriptor) :
  db !! table d = None ->
  select db d = Some (mkRun (Rejected NotFoundError) db [CTransaction (table d) readonly]).
Proof. intros H. enter; unfold query. now rewrite (transaction_missing _ _ H). Qed.

(** X1.  [getAll(table)] resolves with what [select({table})] is
    fulfilled with, the records of the table in the order of the store;
    for a table that does not exist both are rejected with a
    NotFoundError.  [getAll] leaves the connection as it is. *)
Theorem getAll_is_select (c : connection) (t : string) :
  conn_after (getAll c t) = c
  /\ exists r, select (stores c) (whole t) = Some r
       /\ match answer_of (getAll c t) with
          | Resolved rows => settled r = Fulfilled (Records rows)
          | Failed e => e = DOM NotFoundError /\ settled r = Rejected NotFoundError
          end.
Proof.
  unfold getAll, open_store. destruct (c !! t) as [sg|] eqn:E; simpl.
  - split; [reflexivity|]. apply (select_whole_table (stores c) t (fst sg)).
    now apply stores_found.
  - split; [reflexivity|]. eexists. split.
    + apply select_missing. simpl. now apply stores_missing.
    + simpl. split; reflexivity.
Qed.

Lemma includes_only_eqb (v k : key) :
  includes (mkRange (Some v) (Some v) false false) k = key_eqb k v.
Proof. apply eq_true_iff_eq. now rewrite includes_only, key_eqb_eq. Qed.

Lemma filter_as_value (k : key) :
  scalar k = true ->
  filter (as_value k) = Return (Range (mkRange (Some k) (Some k) false false)).
Proof. destruct k; try discriminate; reflexivity. Qed.

(** The entries a full [select] for an exact key visits. *)
Lemma visited_exact (store : objectStore) (d : descriptor) (k : key) :
  is_unique (direction_of d) = false -> direction d = None ->
  visited store d (Range (mkRange (Some k) (Some k) false false)) =
  List.filter (fun e => key_eqb (e_key e) k) (source_entries store (source_of store d)).
Proof.
  intros Hu Hd. rewrite visited_all by exact Hu. unfold candidates, direction_of.
  rewrite Hd. simpl. apply filter_ext. intros e. apply includes_only_eqb.
Qed.

Lemma find_unique_key (l : list record) (k : key) :
  List.NoDup (map r_id l) ->
  List.filter (fun r => key_eqb (r_id r) k) l =
  option_list (List.find (fun r => key_eqb (r_id r) k) l).
Proof.
  induction l as [|x l IH]; simpl; [reflexivity|].
  intros H. inversion H as [|? ? Hx Hl]; subst.
  destruct (key_eqb (r_id x) k) eqn:E; [|now apply IH].
  simpl. f_equal. apply key_eqb_eq in E. subst k.
  clear IH H Hl. induction l as [|y l IH]; simpl; [reflexivity|].
  destruct (key_eqb (r_id y) (r_id x)) eqn:E.
  - apply key_eqb_eq in E. exfalso. apply Hx. simpl. now left.
  - apply IH. intros Hin. apply Hx. simpl. now right.
Qed.

(** X2.  [get(table, id)], for a number or string [id] and a table with
    unique primary keys: it resolves with the record whose primary key is
    [id], or with [undefined] when there is none, and [select({table,
    value: id})] is fulfilled with exactly that record, respectively
    with the empty array. *)
Theorem get_is_select_by_key (c : connection) (t : string) (k : key) (sg : stored) :
  c !! t = Some sg -> scalar k = true -> List.NoDup (keys_of (fst sg)) ->
  exists found r,
    answer_of (get c t k) = Resolved found
    /\ conn_after (get c t k) = c
    /\ (forall x, found = Some x <-> In x (records (fst sg)) /\ r_id x = k)
    /\ select (stores c) (by_key t k) = Some r
    /\ settled r = Fulfilled (Records (option_list found)).
Proof.
  intros Hc Hk Hnd.
  destruct (select_everything (stores c) (by_key t k) (fst sg) _
              (stores_found _ _ _ Hc) (filter_as_value k Hk)) as (r & Hr & Hs).
  exists (IDB.get (fst sg) k), r.
  unfold get, open_store. rewrite Hc. simpl.
  split; [reflexivity|]. split; [reflexivity|]. split.
  - intros x. now apply get_record.
  - split; [exact Hr|]. rewrite Hs. do 2 f_equal.
    rewrite visited_exact by reflexivity. simpl. unfold store_entries, IDB.get.
    rewrite <- (find_unique_key (records (fst sg)) k Hnd).
    clear. induction (records (fst sg)) as [|x l IH]; simpl; [reflexivity|].
    destruct (key_eqb (r_id x) k); simpl; now rewrite IH.
Qed.

Lemma get_is_select_by_key_witness :
  exists found r,
    answer_of (get sample_conn "users" (KNum 2)) = Resolved found
    /\ conn_after (get sample_conn "users" (KNum 2)) = sample_conn
    /\ (forall x, found = Some x <-> In x (records (fst users)) /\ r_id x = KNum 2)
    /\ select (stores sample_conn) (by_key "users" (KNum 2)) = Some r
    /\ settled r = Fulfilled (Records (option_list found)).
Proof.
  apply (get_is_select_by_key sample_conn "users" (KNum 2) users); try reflexivity.
  simpl. repeat constructor; simpl; intuition discriminate.
Defined.

(** [count] of a descriptor is the length of its full [select]. *)
Lemma count_is_length_of_select (db : database) (d : descriptor) (store : objectStore)
    (q : query_arg) :
  db !! table d = Some store -> filter (value d) = Return q ->
  is_unique (direction_of d) = false ->
  exists r, count db d = Some r
    /\ settled r = Fulfilled (Number (Z.of_nat (length (visited store d q)))).
Proof.
  intros Hdb Hq Hu. enter; unfold query.
  rewrite (transaction_found _ _ _ Hdb), Hq. eexists. split; [reflexivity|].
  simpl. rewrite (visited_all store d q Hu). unfold candidates.
  rewrite length_in_direction. reflexivity.
Qed.

(** X3.  [findAll(table, index, value)], for an index of the table and a
    number or string [value]: it resolves with the records that
    [select({table, index, value})] is fulfilled with, in the same order,
    and [count] of that descriptor is their number. *)
Theorem findAll_is_select_by_index (c : connection) (t i : string) (k : key)
    (sg : stored) (ix : index_def) :
  c !! t = Some sg -> indexes (fst sg) !! i = Some ix -> scalar k = true ->
  exists rows rs rc,
    answer_of (findAll c t i k) = Resolved (All rows)
    /\ conn_after (findAll c t i k) = c
    /\ select (stores c) (by_index t i k) = Some rs
    /\ settled rs = Fulfilled (Records rows)
    /\ count (stores c) (by_index t i k) = Some rc
    /\ settled rc = Fulfilled (Number (Z.of_nat (length rows))).
Proof.
  intros Hc Hi Hk.
  pose proof (stores_found _ _ _ Hc) as Hdb.
  destruct (select_everything (stores c) (by_index t i k) (fst sg) _ Hdb
              (filter_as_value k Hk)) as (rs & Hrs & Hs).
  destruct (count_is_length_of_select (stores c) (by_index t i k) (fst sg) _ Hdb
              (filter_as_value k Hk) eq_refl) as (rc & Hrc & Hn).
  exists (index_getAll (fst sg) ix k), rs, rc.
  assert (Hv : map e_rec (visited (fst sg) (by_index t i k)
                 (Range (mkRange (Some k) (Some k) false false))) =
               index_getAll (fst sg) ix k).
  { rewrite visited_exact by reflexivity. unfold source_of. simpl. now rewrite Hi. }
  unfold findAll, find, open_store. rewrite Hc, Hi. simpl.
  split; [reflexivity|]. split; [reflexivity|]. split; [exact Hrs|].
  split; [now rewrite Hs, Hv|]. split; [exact Hrc|].
  rewrite Hn, <- Hv, length_map. reflexivity.
Qed.

Lemma findAll_is_select_by_index_witness :
  exists rows rs rc,
    answer_of (findAll sample_conn "users" "name" (KStr (cps "bob"))) = Resolved (All rows)
    /\ conn_after (findAll sample_conn "users" "name" (KStr (cps "bob"))) = sample_conn
    /\ select (stores sample_conn) (by_index "users" "name" (KStr (cps "bob"))) = Some rs
    /\ settled rs = Fulfilled (Records rows)
    /\ count (stores sample_conn) (by_index "users" "name" (KStr (cps "bob"))) = Some rc
    /\ settled rc = Fulfilled (Number (Z.of_nat (length rows))).
Proof.
  apply (findAll_is_select_by_index sample_conn "users" "name" (KStr (cps "bob")) users
           (mkIndex "name" false false)); reflexivity.
Defined.

(** X4.  For an index that the table does not have, [findBy] and
    [findAll] are rejected with the "not index" string and read nothing,
    whereas [select] with the same index name is fulfilled with every
    record of the table. *)
Theorem find_rejects_unknown_index (c : connection) (t i : string) (k : key)
    (m : string) (sg : stored) :
  c !! t = Some sg -> indexes (fst sg) !! i = None ->
  answer_of (find c t i k m) = Failed (NotIndex t i)
  /\ answer_of (findBy c t i k) = Failed (NotIndex t i)
  /\ answer_of (findAll c t i k) = Failed (NotIndex t i)
  /\ conn_after (find c t i k m) = c
  /\ exists r, select (stores c) (with_index (whole t) (Some i)) = Some r
       /\ settled r = Fulfilled (Records (records (fst sg))).
Proof.
  intros Hc Hi. unfold findBy, findAll, find, open_store. rewrite Hc, Hi. simpl.
  repeat (split; [reflexivity|]).
  destruct (select_everything (stores c) (with_index (whole t) (Some i)) (fst sg) Null
              (stores_found _ _ _ Hc) eq_refl) as (r & Hr & Hs).
  exists r. split; [exact Hr|]. rewrite Hs. do 2 f_equal.
  rewrite visited_all by reflexivity. unfold candidates, source_of. simpl.
  rewrite Hi. simpl. unfold store_entries.
  induction (records (fst sg)) as [|x l IH]; simpl; [reflexivity|now f_equal].
Qed.

Lemma find_rejects_unknown_index_witness :
  answer_of (find sample_conn "users" "age" (KNum 30) "by") = Failed (NotIndex "users" "age")
  /\ answer_of (findBy sample_conn "users" "age" (KNum 30)) = Failed (NotIndex "users" "age")
  /\ answer_of (findAll sample_conn "users" "age" (KNum 30)) = Failed (NotIndex "users" "age")
  /\ conn_after (find sample_conn "users" "age" (KNum 30) "by") = sample_conn
  /\ exists r, select (stores sample_conn) (with_index (whole "users") (Some "age"%string))
               = Some r
       /\ settled r = Fulfilled (Records (records (fst users))).
Proof.
  apply (find_rejects_unknown_index sample_conn "users" "age" (KNum 30) "by" users);
    reflexivity.
Defined.

Lemma entry_leb_trans (a b c : entry) :
  entry_leb a b = true -> entry_leb b c = true -> entry_leb a c = true.
Proof.
  unfold entry_leb.
  destruct (key_cmp (e_key a) (e_key b)) eqn:Eab; try discriminate;
    destruct (key_cmp (e_key b) (e_key c)) eqn:Ebc; try discriminate; intros H1 H2.
  - apply key_cmp_eq in Eab, Ebc. rewrite Eab, Ebc, key_cmp_refl.
    apply key_leb_le. apply key_leb_le in H1, H2. eapply key_le_trans; eauto.
  - apply key_cmp_eq in Eab. now rewrite Eab, Ebc.
  - apply key_cmp_eq in Ebc. now rewrite <- Ebc, Eab.
  - now rewrite (key_cmp_trans _ _ _ Eab Ebc).
Qed.

Lemma sort_entries_strongly (l : list entry) :
  StronglySorted (fun a b => entry_leb a b = true) (sort_entries l).
Proof.
  apply Sorted_StronglySorted; [|apply sort_entries_sorted].
  intros a b c. apply entry_leb_trans.
Qed.

Lemma StronglySorted_filter {A} (R : A -> A -> Prop) (p : A -> bool) (l : list A) :
  StronglySorted R l -> StronglySorted R (List.filter p l).
Proof.
  induction 1 as [|x l Hl IH Hx]; simpl; [constructor|].
  destruct (p x); [|exact IH]. constructor; [exact IH|].
  rewrite List.Forall_forall in *. intros y Hy. apply Hx.
  apply filter_In in Hy. tauto.
Qed.

(** X5.  [findBy(table, index, value)], for an index of the table:
    it resolves with [undefined] exactly when no record has [value] among
    its keys in the index, and otherwise with a record that has it and
    whose primary key is the least among the records that have it. *)
Theorem findBy_least_key (c : connection) (t i : string) (k : key)
    (sg : stored) (ix : index_def) :
  c !! t = Some sg -> indexes (fst sg) !! i = Some ix ->
  exists o,
    answer_of (findBy c t i k) = Resolved (One o)
    /\ (o = None <-> forall r, In r (records (fst sg)) -> ~ In k (index_keys ix r))
    /\ (forall r, o = Some r ->
          In r (records (fst sg)) /\ In k (index_keys ix r)
          /\ forall r', In r' (records (fst sg)) -> In k (index_keys ix r') ->
               key_le (r_id r) (r_id r')).
Proof.
  intros Hc Hi. exists (index_get (fst sg) ix k).
  unfold findBy, find, open_store. rewrite Hc, Hi. simpl.
  split; [reflexivity|].
  unfold index_get, index_getAll.
  pose proof (StronglySorted_filter _ (fun e => key_eqb (e_key e) k) _
                (sort_entries_strongly
                   (flat_map (fun r => map (fun k => mkEntry k r) (index_keys ix r))
                      (records (fst sg))))) as Hsorted.
  fold (index_entries (fst sg) ix) in Hsorted.
  assert (Hin : forall e, In e (List.filter (fun e => key_eqb (e_key e) k)
                                  (index_entries (fst sg) ix)) <->
                          In (e_rec e) (records (fst sg)) /\ e_key e = k
                          /\ In k (index_keys ix (e_rec e))).
  { intros e. rewrite filter_In, index_entries_In, key_eqb_eq. split.
    - intros [[H1 H2] H3]. subst k. tauto.
    - intros (H1 & H2 & H3). subst k. tauto. }
  destruct (List.filter (fun e => key_eqb (e_key e) k) (index_entries (fst sg) ix))
    as [|e l] eqn:F; simpl.
  - split; [|discriminate]. split; [|reflexivity]. intros _ r Hr Hk.
    apply (proj2 (Hin (mkEntry k r))). simpl. tauto.
  - split.
    + split; [discriminate|]. intros H. exfalso.
      destruct (proj1 (Hin e) (or_introl eq_refl)) as (H1 & H2 & H3). now apply (H _ H1).
    + intros r [= <-].
      destruct (proj1 (Hin e) (or_introl eq_refl)) as (H1 & H2 & H3).
      split; [exact H1|]. split; [exact H3|]. intros r' Hr' Hk'.
      assert (He' : In (mkEntry k r') (e :: l)) by (apply Hin; simpl; tauto).
      destruct He' as [E|He']; [rewrite E; apply key_le_refl|].
      inversion Hsorted as [|? ? _ Hall]; subst.
      rewrite List.Forall_forall in Hall. specialize (Hall _ He').
      unfold entry_leb in Hall. simpl in Hall. rewrite key_cmp_refl in Hall.
      now apply key_leb_le.
Qed.

Lemma findBy_least_key_witness :
  exists o,
    answer_of (findBy sample_conn "users" "name" (KStr (cps "bob"))) = Resolved (One o)
    /\ (o = None <-> forall r, In r (records (fst users)) ->
                       ~ In (KStr (cps "bob")) (index_keys (mkIndex "name" false false) r))
    /\ (forall r, o = Some r ->
          In r (records (fst users))
          /\ In (KStr (cps "bob")) (index_keys (mkIndex "name" false false) r)
          /\ forall r', In r' (records (fst users)) ->
               In (KStr (cps "bob")) (index_keys (mkIndex "name" false false) r') ->
               key_le (r_id r) (r_id r')).
Proof.
  apply (findBy_least_key sample_conn "users" "name" (KStr (cps "bob")) users
           (mkIndex "name" false false)); reflexivity.
Defined.

End DataReadSpec.

(** ** The data methods: deleting *)

Module DataDeleteSpec.
Import IDB Indb IDBData IndbData KeyFacts Vocabulary DataVocabulary.
Import CursorFacts SelectFacts ReadSpec PagingFacts SetFacts RemoveSpec SearchSpec DataReadSpec.

Lemma conn_insert_eq (c : connection) (t : string) (sg : stored) :
  <[t := sg]> c !! t = Some sg.
Proof. apply lookup_insert_eq. Qed.

Lemma conn_insert_ne (c : connection) (t t' : string) (sg : stored) :
  t' <> t -> <[t := sg]> c !! t' = c !! t'.
Proof. intros H. apply lookup_insert_ne. congruence. Qed.

Lemma conn_insert_insert (c : connection) (t : string) (sg sg' : stored) :
  <[t := sg]> (<[t := sg']> c) = <[t := sg]> c.
Proof. apply insert_insert_eq. Qed.

Lemma conn_insert_id (c : connection) (t : string) (sg : stored) :
  c !! t = Some sg -> <[t := sg]> c = c.
Proof. apply insert_id. Qed.

Lemma stores_insert (c : connection) (t : string) (sg : stored) :
  stores (<[t := sg]> c) = <[t := fst sg]> (stores c).
Proof. unfold stores. apply fmap_insert. Qed.

Lemma find_after_delete (id : key) (l : list record) :
  List.find (fun r => key_eqb (r_id r) id)
    (List.filter (fun r => negb (key_eqb (r_id r) id)) l) = None.
Proof.
  induction l as [|x l IH]; simpl; [reflexivity|].
  destruct (key_eqb (r_id x) id) eqn:E; simpl; [exact IH|]. now rewrite E.
Qed.

Lemma find_other_after_delete (id id' : key) (l : list record) :
  id' <> id ->
  List.find (fun r => key_eqb (r_id r) id')
    (List.filter (fun r => negb (key_eqb (r_id r) id)) l) =
  List.find (fun r => key_eqb (r_id r) id') l.
Proof.
  intros Hne. induction l as [|x l IH]; simpl; [reflexivity|].
  destruct (key_eqb (r_id x) id) eqn:E; simpl.
  - apply key_eqb_eq in E. subst id.
    destruct (key_eqb (r_id x) id') eqn:E'; [|exact IH].
    apply key_eqb_eq in E'. congruence.
  - now rewrite IH.
Qed.

Lemma delete_record_absent (id : key) (s : objectStore) :
  has_key id s = false -> delete_record id s = s.
Proof.
  unfold has_key, delete_record. destruct s as [l ix]. simpl. intros H. f_equal.
  induction l as [|x l IH]; simpl in *; [reflexivity|].
  apply orb_false_elim in H as [H1 H2]. rewrite H1. simpl. f_equal. now apply IH.
Qed.

Lemma get_found (c : connection) (t : string) (id : key) (sg : stored) :
  c !! t = Some sg -> answer_of (get c t id) = Resolved (IDB.get (fst sg) id).
Proof. intros H. unfold get, open_store. now rewrite H. Qed.

Lemma getAll_found (c : connection) (t : string) (sg : stored) :
  c !! t = Some sg -> answer_of (getAll c t) = Resolved (records (fst sg)).
Proof. intros H. unfold getAll, open_store. now rewrite H. Qed.

(** X6.  [delete(table, id)] on a table that exists resolves, whether or
    not there is a record with that key, and afterwards [get(table, id)]
    gives [undefined]; [get] of every other key, every other table, the
    indexes and the key generator are as before; when no record has the
    key, the connection is unchanged. *)
Theorem delete_removes_the_record (c : connection) (t : string) (id : key) (sg : stored) :
  c !! t = Some sg ->
  let c' := conn_after (delete c t id) in
  answer_of (delete c t id) = Resolved tt
  /\ answer_of (get c' t id) = Resolved None
  /\ (forall id', id' <> id -> answer_of (get c' t id') = answer_of (get c t id'))
  /\ (forall t', t' <> t -> c' !! t' = c !! t')
  /\ (exists s', c' !! t = Some (s', snd sg) /\ indexes s' = indexes (fst sg))
  /\ (has_key id (fst sg) = false -> c' = c).
Proof.
  intros Hc c'. subst c'. unfold delete, open_store. rewrite Hc. simpl.
  split; [reflexivity|]. split.
  { erewrite get_found by apply conn_insert_eq. simpl. unfold IDB.get. simpl.
    now rewrite find_after_delete. }
  split.
  { intros id' Hne. erewrite get_found by apply conn_insert_eq.
    rewrite (get_found c t id' sg Hc). simpl. unfold IDB.get. simpl.
    now rewrite find_other_after_delete. }
  split; [intros t' Hne; now apply conn_insert_ne|]. split.
  { eexists. split; [apply conn_insert_eq|reflexivity]. }
  intros Habs. rewrite delete_record_absent by exact Habs.
  apply conn_insert_id. rewrite Hc. now destruct sg.
Qed.

Lemma delete_removes_the_record_witness :
  let c' := conn_after (delete sample_conn "users" (KNum 1)) in
  answer_of (delete sample_conn "users" (KNum 1)) = Resolved tt
  /\ answer_of (get c' "users" (KNum 1)) = Resolved None
  /\ (forall id', id' <> KNum 1 ->
        answer_of (get c' "users" id') = answer_of (get sample_conn "users" id'))
  /\ (forall t', t' <> "users"%string -> c' !! t' = sample_conn !! t')
  /\ (exists s', c' !! "users"%string = Some (s', snd users)
        /\ indexes s' = indexes (fst users))
  /\ (has_key (KNum 1) (fst users) = false -> c' = sample_conn).
Proof.
  apply (delete_removes_the_record sample_conn "users" (KNum 1) users). reflexivity.
Defined.

Lemma delete_each (t : string) (ids : list key) (c : connection) (s : objectStore)
    (g : keyGenerator) :
  fold_left (fun c id => conn_after (delete c t id)) ids (<[t := (s, g)]> c) =
  <[t := (delete_all ids s, g)]> c.
Proof.
  revert s; induction ids as [|id ids IH]; intros s; [reflexivity|].
  simpl. unfold delete at 2, open_store. rewrite conn_insert_eq. simpl.
  rewrite conn_insert_insert. apply IH.
Qed.

(** X7.  [deleteMany(table, ids)] on a table that exists resolves with
    [true] and leaves exactly the records whose primary key is not among
    [ids]; generator and indexes are kept, and the connection is the one
    that deleting the keys one by one with [delete] leaves. *)
Theorem deleteMany_deletes_each (c : connection) (t : string) (ids : list key)
    (sg : stored) :
  c !! t = Some sg ->
  answer_of (deleteMany c t ids) = Resolved true
  /\ conn_after (deleteMany c t ids) = <[t := (without ids (fst sg), snd sg)]> c
  /\ conn_after (deleteMany c t ids) =
     fold_left (fun c id => conn_after (delete c t id)) ids c.
Proof.
  intros Hc. unfold deleteMany, open_store. rewrite Hc. simpl.
  fold (delete_all ids (fst sg)).
  split; [reflexivity|]. split; [now rewrite delete_all_without|].
  rewrite <- (conn_insert_id c t sg Hc) at 2. destruct sg as [s g].
  now rewrite delete_each.
Qed.

Lemma deleteMany_deletes_each_witness :
  answer_of (deleteMany sample_conn "users" [KNum 2; KNum 9]) = Resolved true
  /\ conn_after (deleteMany sample_conn "users" [KNum 2; KNum 9]) =
     <["users"%string := (without [KNum 2; KNum 9] (fst users), snd users)]> sample_conn
  /\ conn_after (deleteMany sample_conn "users" [KNum 2; KNum 9]) =
     fold_left (fun c id => conn_after (delete c "users" id)) [KNum 2; KNum 9] sample_conn.
Proof.
  apply (deleteMany_deletes_each sample_conn "users" [KNum 2; KNum 9] users). reflexivity.
Defined.

(** X8.  [remove] of a descriptor without [offset] and [limit], in
    direction [next] or [prev], leaves the object stores that
    [deleteMany] leaves when it is given the primary keys of the records
    that [select] returns for the descriptor. *)
Theorem remove_is_deleteMany_of_select (c : connection) (d : descriptor)
    (sg : stored) (q : query_arg) :
  offset d = None -> limit d = None -> is_unique (direction_of d) = false ->
  c !! table d = Some sg -> filter (value d) = Return q ->
  exists sel rs rr,
    select (stores c) d = Some rs /\ settled rs = Fulfilled (Records sel)
    /\ remove (stores c) d = Some rr
    /\ db_after rr = stores (conn_after (deleteMany c (table d) (map r_id sel))).
Proof.
  intros Hoff Hlim Hdir Hc Hq.
  pose proof (stores_found _ _ _ Hc) as Hdb.
  destruct (select_page (stores c) d (fst sg) q Hdb Hq) as (rs & Hrs & _ & _ & Hs).
  destruct (remove_all (stores c) d (fst sg) q Hoff Hlim Hdir Hdb Hq)
    as (rr & Hrr & _ & Hafter).
  rewrite Hoff, Hlim, (visited_all (fst sg) d q Hdir) in Hs.
  set (cands := candidates (fst sg) (source_of (fst sg) d) q (direction_of d)) in *.
  exists (map e_rec cands), rs, rr.
  split; [exact Hrs|]. split; [rewrite Hs; now destruct cands|]. split; [exact Hrr|].
  rewrite Hafter.
  destruct (deleteMany_deletes_each c (table d) (map r_id (map e_rec cands)) sg Hc)
    as (_ & -> & _).
  rewrite stores_insert. simpl. now rewrite map_map.
Qed.

Lemma remove_is_deleteMany_of_select_witness :
  exists sel rs rr,
    select (stores sample_conn) (whole "users") = Some rs
    /\ settled rs = Fulfilled (Records sel)
    /\ remove (stores sample_conn) (whole "users") = Some rr
    /\ db_after rr =
       stores (conn_after (deleteMany sample_conn (table (whole "users")) (map r_id sel))).
Proof.
  apply (remove_is_deleteMany_of_select sample_conn (whole "users") users Null);
    reflexivity.
Defined.

Lemma visited_empty (ix : gmap string index_def) (d : descriptor) (q : query_arg) :
  visited (mkStore [] ix) d q = [].
Proof.
  unfold visited, openCursor, candidates.
  assert (E : source_entries (mkStore [] ix) (source_of (mkStore [] ix) d) = [])
    by (destruct (source_of (mkStore [] ix) d); reflexivity).
  rewrite E. simpl. destruct (direction_of d); reflexivity.
Qed.

Lemma count_entries_empty (ix : gmap string index_def) (src : source) (q : query_arg) :
  count_entries (mkStore [] ix) src q = 0.
Proof. destruct src; reflexivity. Qed.

(** X9.  [clear(table)] on a table that exists resolves and leaves the
    table without records but with its indexes and its key generator as
    they were (the numbering of generated keys goes on); other tables are
    untouched; afterwards [getAll] gives the empty array, and for every
    descriptor on the table whose value [filter] accepts [count] gives 0
    and [select] the empty array. *)
Theorem clear_empties_the_table (c : connection) (t : string) (sg : stored) :
  c !! t = Some sg ->
  let c' := conn_after (clear c t) in
  answer_of (clear c t) = Resolved tt
  /\ c' !! t = Some (mkStore [] (indexes (fst sg)), snd sg)
  /\ (forall t', t' <> t -> c' !! t' = c !! t')
  /\ answer_of (getAll c' t) = Resolved []
  /\ (forall d q, table d = t -> filter (value d) = Return q ->
        (exists r, count (stores c') d = Some r /\ settled r = Fulfilled (Number 0))
        /\ (exists r, select (stores c') d = Some r /\ settled r = Fulfilled (Records []))).
Proof.
  intros Hc c'. subst c'. unfold clear, open_store. rewrite Hc. simpl.
  unfold clear_store.
  set (c' := <[t := (mkStore [] (indexes (fst sg)), snd sg)]> c).
  assert (Hc' : c' !! t = Some (mkStore [] (indexes (fst sg)), snd sg))
    by apply conn_insert_eq.
  split; [reflexivity|]. split; [exact Hc'|].
  split; [intros t' Hne; now apply conn_insert_ne|]. split.
  { now rewrite (getAll_found c' t _ Hc'). }
  intros d q Ht Hq. subst t. pose proof (stores_found _ _ _ Hc') as Hdb. simpl in Hdb.
  split.
  - enter; unfold query. rewrite (transaction_found _ _ _ Hdb), Hq.
    eexists. split; [reflexivity|]. cbn [settled]. now rewrite count_entries_empty.
  - destruct (select_page (stores c') d _ q Hdb Hq) as (r & Hr & _ & _ & Hs).
    exists r. split; [exact Hr|]. rewrite Hs, visited_empty, page_nil.
    now destruct (offset d).
Qed.

Lemma clear_empties_the_table_witness :
  let c' := conn_after (clear sample_conn "users") in
  answer_of (clear sample_conn "users") = Resolved tt
  /\ c' !! "users"%string = Some (mkStore [] (indexes (fst users)), snd users)
  /\ (forall t', t' <> "users"%string -> c' !! t' = sample_conn !! t')
  /\ answer_of (getAll c' "users") = Resolved []
  /\ (forall d q, table d = "users"%string -> filter (value d) = Return q ->
        (exists r, count (stores c') d = Some r /\ settled r = Fulfilled (Number 0))
        /\ (exists r, select (stores c') d = Some r /\ settled r = Fulfilled (Records []))).
Proof.
  apply (clear_empties_the_table sample_conn "users" users). reflexivity.
Defined.

End DataDeleteSpec.

(** ** The data methods: writing *)

Module DataWriteSpec.
Import IDB Indb IDBData IndbData KeyFacts Vocabulary DataVocabulary.
Import CursorFacts SelectFacts ReadSpec SetFacts RemoveSpec SearchSpec DataReadSpec DataDeleteSpec.

Lemma has_key_In (k : key) (s : objectStore) :
  has_key k s = true <-> In k (keys_of s).
Proof.
  unfold has_key, keys_of. rewrite existsb_exists, in_map_iff. split.
  - intros (r & Hr & E). apply key_eqb_eq in E. eauto.
  - intros (r & E & Hr). exists r. split; [exact Hr|]. now apply key_eqb_eq.
Qed.

Lemma insert_record_In (r x : record) (l : list record) :
  In x (insert_record r l) <-> x = r \/ In x l.
Proof.
  induction l as [|y l IH]; simpl; [intuition congruence|].
  destruct (key_ltb (r_id r) (r_id y)); simpl; [intuition congruence|].
  rewrite IH. intuition congruence.
Qed.

Lemma find_inserted (r : record) (l : list record) :
  (forall x, In x l -> r_id x <> r_id r) ->
  List.find (fun x => key_eqb (r_id x) (r_id r)) (insert_record r l) = Some r.
Proof.
  induction l as [|y l IH]; simpl; intros H.
  - now rewrite key_eqb_refl.
  - destruct (key_ltb (r_id r) (r_id y)); simpl.
    + now rewrite key_eqb_refl.
    + destruct (key_eqb (r_id y) (r_id r)) eqn:E.
      * apply key_eqb_eq in E. exfalso. apply (H y); auto.
      * apply IH. intros x Hx. apply H. auto.
Qed.

Lemma find_other_inserted (r : record) (k : key) (l : list record) :
  r_id r <> k ->
  List.find (fun x => key_eqb (r_id x) k) (insert_record r l) =
  List.find (fun x => key_eqb (r_id x) k) l.
Proof.
  intros Hne.
  assert (E : key_eqb (r_id r) k = false).
  { destruct (key_eqb (r_id r) k) eqn:E; [|reflexivity]. apply key_eqb_eq in E. congruence. }
  induction l as [|y l IH]; simpl; [now rewrite E|].
  destruct (key_ltb (r_id r) (r_id y)); simpl; [now rewrite E|].
  now rewrite IH.
Qed.

Lemma delete_record_keys (k : key) (s : objectStore) (x : record) :
  In x (records (delete_record k s)) <-> In x (records s) /\ r_id x <> k.
Proof.
  unfold delete_record. simpl. rewrite filter_In, negb_true_iff. split.
  - intros [H E]. split; [exact H|]. intros E'. rewrite E', key_eqb_refl in E.
    discriminate.
  - intros [H E]. split; [exact H|].
    destruct (key_eqb (r_id x) k) eqn:E'; [|reflexivity].
    apply key_eqb_eq in E'. congruence.
Qed.

(** What a request that succeeds has done. *)
Lemma store_record_done (b : bool) (sg sg' : stored) (v : item) (k : key) :
  store_record b sg v = Resolved (k, sg') ->
  exists v' g',
    key_for (snd sg) v = Resolved (k, v', g')
    /\ (b = true -> has_key k (fst sg) = false)
    /\ violates_unique (delete_record k (fst sg)) (mkRecord k v') = false
    /\ sg' = (mkStore (insert_record (mkRecord k v') (records (delete_record k (fst sg))))
                      (indexes (fst sg)), g').
Proof.
  unfold store_record. destruct (key_for (snd sg) v) as [[[k0 v'] g']|e]; [|discriminate].
  destruct (b && has_key k0 (fst sg)) eqn:Hb; [discriminate|].
  destruct (violates_unique (delete_record k0 (fst sg)) (mkRecord k0 v')) eqn:Hv;
    [discriminate|].
  intros [= <- <-]. exists v', g'. repeat split; auto.
  intros ->. exact Hb.
Qed.

Lemma get_after_store (b : bool) (sg sg' : stored) (v : item) (k : key) :
  store_record b sg v = Resolved (k, sg') ->
  (exists v' g', key_for (snd sg) v = Resolved (k, v', g')
     /\ IDB.get (fst sg') k = Some (mkRecord k v'))
  /\ (forall k', k' <> k -> IDB.get (fst sg') k' = IDB.get (fst sg) k')
  /\ indexes (fst sg') = indexes (fst sg).
Proof.
  intros H. apply store_record_done in H as (v' & g' & Hk & _ & _ & ->). simpl.
  split; [|split; [|reflexivity]].
  - exists v', g'. split; [exact Hk|]. unfold IDB.get. simpl.
    apply (find_inserted (mkRecord k v')). intros x Hx. simpl.
    apply (delete_record_keys k (fst sg)) in Hx. tauto.
  - intros k' Hne. unfold IDB.get. simpl.
    rewrite find_other_inserted by (simpl; congruence).
    now apply find_other_after_delete.
Qed.

(** The value as it is stored: the value given, with the generated key
    at the key path when the store has one and the value had no key. *)
Lemma key_for_value (g g' : keyGenerator) (v v' : item) (k : key) :
  key_for g v = Resolved (k, v', g') ->
  v' = v
  \/ exists kp n, key_path g = Some kp /\ get_field kp v = None
       /\ k = KNum n /\ n = current_number g /\ v' = set_field kp (KNum n) v.
Proof.
  unfold key_for, generate. destruct (key_path g) as [kp|].
  - destruct (get_field kp v) as [k0|] eqn:E; [intros [= <- <- <-]; now left|].
    destruct (max_generated <? current_number g); [discriminate|].
    intros [= <- <- <-]. right. exists kp, (current_number g). auto.
  - destruct (max_generated <? current_number g); [discriminate|].
    intros [= <- <- <-]. now left.
Qed.

(** X10.  When [add] or [put] of one object resolves, it resolves with
    the key of the record, and [get] of that key then gives the record:
    its value is the object given, with the generated key set at the key
    path when the object had none; [get] of every other key and every
    other table are as before. *)
Theorem write_then_get (c : connection) (t : string) (v : item) (m : method)
    (w : written) :
  answer_of (write c t (Single v) m) = Resolved w ->
  let c' := conn_after (write c t (Single v) m) in
  exists k r,
    w = Key k
    /\ answer_of (get c' t k) = Resolved (Some r)
    /\ r_id r = k
    /\ (r_fields r = v
        \/ exists kp n sg, c !! t = Some sg /\ key_path (snd sg) = Some kp
             /\ get_field kp v = None /\ k = KNum n
             /\ r_fields r = set_field kp (KNum n) v)
    /\ (forall k', k' <> k -> answer_of (get c' t k') = answer_of (get c t k'))
    /\ (forall t', t' <> t -> c' !! t' = c !! t').
Proof.
  unfold write, open_store. destruct (c !! t) as [sg|] eqn:Hc; [|discriminate].
  destruct (store_record (no_overwrite m) sg v) as [[k sg']|e] eqn:Hs; [|discriminate].
  simpl. intros [= <-].
  destruct (get_after_store _ _ _ _ _ Hs) as ((v' & g' & Hk & Hg) & Hother & _).
  exists k, (mkRecord k v'). split; [reflexivity|]. split.
  { erewrite get_found by apply conn_insert_eq. now rewrite Hg. }
  split; [reflexivity|]. split.
  { destruct (key_for_value _ _ _ _ _ Hk) as [->|(kp & n & H1 & H2 & H3 & _ & H4)];
      [now left|].
    right. exists kp, n, sg. auto. }
  split.
  { intros k' Hne. erewrite get_found by apply conn_insert_eq.
    rewrite (get_found c t k' sg Hc). now rewrite Hother. }
  intros t' Hne. now apply conn_insert_ne.
Qed.

Lemma write_then_get_witness :
  let v := [("name"%string, KStr (cps "cy")); ("mail"%string, KStr (cps "cy@x"))] in
  let c' := conn_after (write sample_conn "users" (Single v) Add) in
  exists k r,
    Key (KNum 3) = Key k
    /\ answer_of (get c' "users" k) = Resolved (Some r)
    /\ r_id r = k
    /\ (r_fields r = v
        \/ exists kp n sg, sample_conn !! "users"%string = Some sg
             /\ key_path (snd sg) = Some kp
             /\ get_field kp v = None /\ k = KNum n
             /\ r_fields r = set_field kp (KNum n) v)
    /\ (forall k', k' <> k ->
          answer_of (get c' "users" k') = answer_of (get sample_conn "users" k'))
    /\ (forall t', t' <> "users"%string -> c' !! t' = sample_conn !! t').
Proof.
  apply (write_then_get sample_conn "users"
           [("name"%string, KStr (cps "cy")); ("mail"%string, KStr (cps "cy@x"))]
           Add (Key (KNum 3))).
  reflexivity.
Defined.

(** X11.  On a store with a key path, [add] of an object whose key is the
    primary key of a record of the table is rejected with a
    ConstraintError and changes nothing, whereas [put] of the same object
    replaces the record, provided that no unique index refuses it. *)
Theorem add_refuses_existing_key (c : connection) (t kp : string) (v : item)
    (k : key) (sg : stored) :
  c !! t = Some sg -> key_path (snd sg) = Some kp -> get_field kp v = Some k ->
  has_key k (fst sg) = true ->
  answer_of (add c t (Single v)) = Failed ConstraintError
  /\ conn_after (add c t (Single v)) = c
  /\ (violates_unique (delete_record k (fst sg)) (mkRecord k v) = false ->
      answer_of (put c t (Single v)) = Resolved (Key k)
      /\ answer_of (get (conn_after (put c t (Single v))) t k)
         = Resolved (Some (mkRecord k v))).
Proof.
  intros Hc Hkp Hv Hk.
  unfold add, put, write, open_store, store_record, key_for. rewrite Hc, Hkp, Hv.
  simpl. rewrite Hk. simpl. split; [reflexivity|]. split; [reflexivity|].
  intros Hu. rewrite Hu. simpl. split; [reflexivity|].
  erewrite get_found by apply conn_insert_eq. simpl. f_equal. unfold IDB.get. simpl.
  apply (find_inserted (mkRecord k v)). intros x Hx. simpl.
  apply (delete_record_keys k (fst sg)) in Hx. tauto.
Qed.

Lemma add_refuses_existing_key_witness :
  let v := [("id"%string, KNum 2); ("mail"%string, KStr (cps "z@x"))] in
  answer_of (add sample_conn "users" (Single v)) = Failed ConstraintError
  /\ conn_after (add sample_conn "users" (Single v)) = sample_conn
  /\ (violates_unique (delete_record (KNum 2) (fst users)) (mkRecord (KNum 2) v) = false ->
      answer_of (put sample_conn "users" (Single v)) = Resolved (Key (KNum 2))
      /\ answer_of (get (conn_after (put sample_conn "users" (Single v))) "users" (KNum 2))
         = Resolved (Some (mkRecord (KNum 2) v))).
Proof.
  apply (add_refuses_existing_key sample_conn "users" "id"
           [("id"%string, KNum 2); ("mail"%string, KStr (cps "z@x"))] (KNum 2) users);
    reflexivity.
Defined.

Lemma generated_key_is_free (sg : stored) :
  generator_ahead sg -> current_number (snd sg) <= max_generated ->
  has_key (KNum (current_number (snd sg))) (fst sg) = false.
Proof.
  intros Ha Hle. destruct (has_key _ (fst sg)) eqn:E; [|reflexivity].
  apply has_key_In, Ha in E. lia.
Qed.

(** X12.  [add] or [put] of an object without a key (the store has no key
    path, or the object lacks the property at the key path), on a store
    whose generator is ahead of its numeric keys: while the generator is
    at most 2^53 and no unique index refuses the record, the call
    resolves with the generator's current number as the key, stores the
    object under it next to the records that were there (with the key set
    at the key path, if any) and advances the generator by one; once the
    generator is beyond 2^53 the call is rejected with a
    ConstraintError. *)
Theorem write_generates_key (c : connection) (t : string) (v : item) (m : method)
    (sg : stored) :
  c !! t = Some sg -> generator_ahead sg ->
  match key_path (snd sg) with Some kp => get_field kp v = None | None => True end ->
  let n := current_number (snd sg) in
  let v' := match key_path (snd sg) with
            | Some kp => set_field kp (KNum n) v
            | None => v
            end in
  (n <= max_generated ->
   violates_unique (fst sg) (mkRecord (KNum n) v') = false ->
   answer_of (write c t (Single v) m) = Resolved (Key (KNum n))
   /\ conn_after (write c t (Single v) m) =
      <[t := (mkStore (insert_record (mkRecord (KNum n) v') (records (fst sg)))
                      (indexes (fst sg)),
              mkGenerator (key_path (snd sg)) (n + 1))]> c)
  /\ (max_generated < n ->
      answer_of (write c t (Single v) m) = Failed ConstraintError
      /\ conn_after (write c t (Single v) m) = c).
Proof.
  intros Hc Ha Hv n v'. subst n v'. split.
  - intros Hle Hu. pose proof (generated_key_is_free sg Ha Hle) as Hfree.
    assert (Hlt : (max_generated <? current_number (snd sg)) = false)
      by (apply Z.ltb_ge; exact Hle).
    unfold write, open_store, store_record, key_for, generate. rewrite Hc.
    pose proof (f_equal records (delete_record_absent _ _ Hfree)) as Hrec.
    simpl in Hrec.
    destruct (key_path (snd sg)) as [kp|]; [rewrite Hv|]; rewrite Hlt; simpl;
      rewrite Hfree, andb_false_r, (delete_record_absent _ _ Hfree), Hu; simpl;
      rewrite Hrec; split; reflexivity.
  - intros Hgt. apply Z.ltb_lt in Hgt.
    unfold write, open_store, store_record, key_for, generate. rewrite Hc.
    destruct (key_path (snd sg)) as [kp|]; [rewrite Hv|]; rewrite Hgt; split; reflexivity.
Qed.

Lemma write_generates_key_witness :
  let v := [("text"%string, KStr (cps "more"))] in
  (2 <= max_generated ->
   violates_unique (fst notes) (mkRecord (KNum 2) v) = false ->
   answer_of (write sample_conn "notes" (Single v) Put) = Resolved (Key (KNum 2))
   /\ conn_after (write sample_conn "notes" (Single v) Put) =
      <["notes"%string :=
          (mkStore (insert_record (mkRecord (KNum 2) v) (records (fst notes)))
                   (indexes (fst notes)),
           mkGenerator (key_path (snd notes)) (2 + 1))]> sample_conn)
  /\ (max_generated < 2 ->
      answer_of (write sample_conn "notes" (Single v) Put) = Failed ConstraintError
      /\ conn_after (write sample_conn "notes" (Single v) Put) = sample_conn).
Proof.
  apply (write_generates_key sample_conn "notes" [("text"%string, KStr (cps "more"))]
           Put notes).
  - reflexivity.
  - intros n [E|[]]. injection E as <-. simpl. unfold max_generated. lia.
  - exact I.
Defined.






End DataWriteSpec.

(** ** The data methods: what the stores keep *)

Module DataInvariants.
Import IDB Indb IDBData IndbData KeyFacts Vocabulary DataVocabulary.
Import SetFacts RemoveSpec SearchSpec DataReadSpec DataDeleteSpec DataWriteSpec.

Lemma keys_of_delete (k : key) (s : objectStore) :
  keys_of (delete_record k s) =
  List.filter (fun x => negb (key_eqb x k)) (keys_of s).
Proof.
  unfold keys_of, delete_record. simpl.
  induction (records s) as [|r l IH]; simpl; [reflexivity|].
  destruct (key_eqb (r_id r) k); simpl; now rewrite IH.
Qed.

Lemma key_lt_of_not (a b : key) : key_ltb a b = false -> a <> b -> key_lt b a.
Proof.
  unfold key_ltb, key_lt. rewrite (key_cmp_antisym a b).
  destruct (key_cmp a b) eqn:E; simpl; try congruence.
  intros _ H. apply key_cmp_eq in E. congruence.
Qed.

Lemma insert_record_sorted (r : record) (l : list record) :
  StronglySorted key_lt (map r_id l) -> ~ In (r_id r) (map r_id l) ->
  StronglySorted key_lt (map r_id (insert_record r l)).
Proof.
  induction l as [|x l IH]; simpl; intros Hs Hn.
  - repeat constructor.
  - inversion Hs as [|? ? Hl Hx]; subst.
    destruct (key_ltb (r_id r) (r_id x)) eqn:E; simpl.
    + constructor; [exact Hs|]. apply key_ltb_lt in E. constructor; [exact E|].
      rewrite List.Forall_forall in *. intros y Hy.
      exact (key_cmp_trans _ _ _ E (Hx y Hy)).
    + constructor; [apply IH; tauto|].
      rewrite List.Forall_forall in *. intros y Hy.
      apply in_map_iff in Hy as (z & <- & Hz). apply insert_record_In in Hz as [->|Hz].
      * apply key_lt_of_not; [exact E|]. intros H. apply Hn. left. congruence.
      * apply Hx. now apply in_map.
Qed.

Lemma violates_unique_false (s : objectStore) (r : record) :
  violates_unique s r = false ->
  forall name ix k r',
    indexes s !! name = Some ix -> unique ix = true ->
    In k (index_keys ix r) -> In r' (records s) -> ~ In k (index_keys ix r').
Proof.
  unfold violates_unique. intros Hv name ix k r' Hix Hu Hk Hr' Hk'.
  assert (Hin : In (name, ix) (map_to_list (indexes s))).
  { apply list_elem_of_In. now apply elem_of_map_to_list. }
  assert (Hc : conflicts ix r (records s) = true).
  { unfold conflicts. rewrite Hu. simpl. apply existsb_exists. exists k.
    split; [exact Hk|]. apply existsb_exists. exists r'. split; [exact Hr'|].
    unfold holds_key. now apply existsb_key_In. }
  assert (Ht : existsb (fun p => conflicts (snd p) r (records s))
                 (map_to_list (indexes s)) = true).
  { apply existsb_exists. exists (name, ix). split; [exact Hin|exact Hc]. }
  congruence.
Qed.

Lemma get_field_set_field (n m : string) (v : key) (fs : item) :
  get_field n (set_field m v fs) = if String.eqb m n then Some v else get_field n fs.
Proof.
  induction fs as [|[a w] fs IH]; simpl.
  - reflexivity.
  - destruct (String.eqb a m) eqn:Eam; simpl.
    + apply String.eqb_eq in Eam. subst a. now destruct (String.eqb m n).
    + rewrite IH. destruct (String.eqb a n) eqn:Ean; [|reflexivity].
      apply String.eqb_eq in Ean. subst a. rewrite String.eqb_sym in Eam.
      now rewrite Eam.
Qed.

Lemma possibly_update_spec (g : keyGenerator) (k : key) :
  key_path (possibly_update g k) = key_path g
  /\ current_number g <= current_number (possibly_update g k)
  /\ (forall n, k = KNum n -> Z.min n max_generated < current_number (possibly_update g k)).
Proof.
  unfold possibly_update. destruct k as [n|s|ks]; simpl.
  - destruct (current_number g <=? Z.min n max_generated) eqn:E; simpl.
    + apply Z.leb_le in E. split; [reflexivity|]. split; [lia|].
      intros n' [= <-]. lia.
    + apply Z.leb_gt in E. split; [reflexivity|]. split; [lia|].
      intros n' [= <-]. lia.
  - split; [reflexivity|]. split; [lia|]. discriminate.
  - split; [reflexivity|]. split; [lia|]. discriminate.
Qed.

Lemma generate_spec (g g' : keyGenerator) (n : Z) :
  generate g = Resolved (n, g') ->
  n = current_number g /\ key_path g' = key_path g /\ current_number g' = n + 1
  /\ n <= max_generated.
Proof.
  unfold generate. destruct (max_generated <? current_number g) eqn:E; [discriminate|].
  apply Z.ltb_ge in E. intros [= <- <-]. simpl. auto.
Qed.

Lemma key_for_keeps_path (g g' : keyGenerator) (v v' : item) (k : key) :
  key_for g v = Resolved (k, v', g') ->
  key_path g' = key_path g
  /\ current_number g <= current_number g'
  /\ (forall kp, key_path g = Some kp -> get_field kp v' = Some k)
  /\ (forall n, k = KNum n -> Z.min n max_generated < current_number g').
Proof.
  unfold key_for.
  destruct (key_path g) as [kp|] eqn:Hkp.
  - destruct (get_field kp v) as [k0|] eqn:Hv.
    + intros [= <- <- <-].
      destruct (possibly_update_spec g k0) as (H1 & H2 & H3).
      split; [congruence|]. split; [exact H2|]. split; [|exact H3].
      now intros kp' [= <-].
    + destruct (generate g) as [[n g1]|e] eqn:Hg; [|discriminate].
      intros [= <- <- <-]. apply generate_spec in Hg as (-> & H1 & H2 & H3).
      split; [congruence|]. split; [lia|]. split.
      * intros kp' [= <-]. rewrite get_field_set_field. now rewrite String.eqb_refl.
      * intros n [= <-]. lia.
  - destruct (generate g) as [[n g1]|e] eqn:Hg; [|discriminate].
    intros [= <- <- <-]. apply generate_spec in Hg as (-> & H1 & H2 & H3).
    split; [congruence|]. split; [lia|]. split; [discriminate|].
    intros n [= <-]. lia.
Qed.

Lemma delete_record_well_formed (k : key) (sg : stored) :
  well_formed sg -> well_formed (delete_record k (fst sg), snd sg).
Proof.
  intros (Ha & Hu & Hi & Hg). unfold well_formed. simpl. repeat split.
  - unfold ascending. rewrite keys_of_delete. now apply StronglySorted_filter.
  - intros name ix r r' k0 Hix Hun Hr Hr'. simpl in Hix.
    apply delete_record_keys in Hr as [Hr _], Hr' as [Hr' _]. eauto.
  - intros kp r Hkp Hr. simpl in *. apply delete_record_keys in Hr as [Hr _]. eauto.
  - intros n Hn. simpl in *. rewrite keys_of_delete in Hn.
    apply filter_In in Hn as [Hn _]. auto.
Qed.

(** A request that succeeds leaves the store well formed. *)
Lemma store_record_well_formed (b : bool) (sg sg' : stored) (v : item) (k : key) :
  well_formed sg -> store_record b sg v = Resolved (k, sg') -> well_formed sg'.
Proof.
  intros Hwf Hs.
  apply store_record_done in Hs as (v' & g' & Hk & _ & Hv & ->).
  destruct (key_for_keeps_path _ _ _ _ _ Hk) as (Hpath & Hmono & Hfield & Hnew).
  destruct (delete_record_well_formed k sg Hwf) as (Ha & Hu & Hi & Hg). simpl in *.
  assert (Habsent : ~ In k (keys_of (delete_record k (fst sg)))).
  { rewrite keys_of_delete, filter_In, key_eqb_refl. simpl. intros [_ H]. discriminate. }
  unfold well_formed. simpl. repeat split.
  - unfold ascending, keys_of. simpl. apply (insert_record_sorted (mkRecord k v')).
    + exact Ha.
    + exact Habsent.
  - intros name ix r r' k0 Hix Hun Hr Hr' Hk0 Hk0'. simpl in *.
    apply insert_record_In in Hr, Hr'.
    destruct Hr as [->|Hr], Hr' as [->|Hr']; try reflexivity.
    + exfalso. exact (violates_unique_false _ _ Hv name ix k0 r' Hix Hun Hk0 Hr' Hk0').
    + exfalso. exact (violates_unique_false _ _ Hv name ix k0 r Hix Hun Hk0' Hr Hk0).
    + exact (Hu name ix r r' k0 Hix Hun Hr Hr' Hk0 Hk0').
  - intros kp r Hkp Hr. simpl in *. rewrite Hpath in Hkp.
    apply insert_record_In in Hr as [->|Hr]; [simpl; now apply Hfield|].
    now apply (Hi kp r).
  - intros n Hn. simpl in *. unfold keys_of in Hn. simpl in Hn.
    apply in_map_iff in Hn as (r & E & Hr).
    apply insert_record_In in Hr as [->|Hr].
    + simpl in E. now apply Hnew.
    + assert (Hold : Z.min n max_generated < current_number (snd sg)).
      { apply Hg. rewrite <- E. now apply in_map. }
      lia.
Qed.

Lemma healthy_insert (c : connection) (t : string) (sg : stored) :
  healthy c -> well_formed sg -> healthy (<[t := sg]> c).
Proof.
  intros Hc Hsg t' sg' H. destruct (decide (t' = t)) as [->|Hne].
  - rewrite conn_insert_eq in H. now injection H as <-.
  - rewrite conn_insert_ne in H by exact Hne. eauto.
Qed.

Lemma write_each_well_formed (m : method) (vs : list item) (sg sg' : stored) :
  well_formed sg -> write_each m sg vs = Resolved sg' -> well_formed sg'.
Proof.
  revert sg; induction vs as [|v vs IH]; intros sg Hwf; simpl.
  - now intros [= <-].
  - destruct (store_record (no_overwrite m) sg v) as [[k sg1]|e] eqn:Hs; [|discriminate].
    apply IH. eapply store_record_well_formed; eauto.
Qed.

Lemma write_healthy (c : connection) (t : string) (data : payload) (m : method) :
  healthy c -> healthy (conn_after (write c t data m)).
Proof.
  intros Hc. unfold write, open_store. destruct (c !! t) as [sg|] eqn:E; [|exact Hc].
  destruct data as [v|vs].
  - destruct (store_record (no_overwrite m) sg v) as [[k sg']|e] eqn:Hs; [|exact Hc].
    simpl. apply healthy_insert; [exact Hc|].
    eapply store_record_well_formed; eauto.
  - destruct (write_each m sg vs) as [sg'|e] eqn:Hs; [|exact Hc].
    simpl. apply healthy_insert; [exact Hc|].
    eapply write_each_well_formed; eauto.
Qed.

Lemma delete_all_well_formed (ids : list key) (s : objectStore) (g : keyGenerator) :
  well_formed (s, g) -> well_formed (fold_left (fun s id => delete_record id s) ids s, g).
Proof.
  revert s; induction ids as [|id ids IH]; intros s Hwf; [exact Hwf|].
  simpl. apply IH. exact (delete_record_well_formed id (s, g) Hwf).
Qed.

Lemma clear_healthy (c : connection) (t : string) :
  healthy c -> healthy (conn_after (clear c t)).
Proof.
  intros Hc. unfold clear, open_store. destruct (c !! t) as [sg|] eqn:E; [|exact Hc].
  simpl. apply healthy_insert; [exact Hc|].
  destruct (Hc t sg E) as (Ha & Hu & Hi & Hg).
  unfold well_formed, clear_store. simpl. repeat split.
  - constructor.
  - intros name ix r r' k _ _ [].
  - intros kp r _ [].
  - intros n [].
Qed.

Lemma import_each_healthy (entries : list (string * payload)) (ow : bool)
    (c : connection) :
  healthy c -> healthy (conn_after (import_each c entries ow)).
Proof.
  revert c; induction entries as [|[key data] rest IH]; intros c Hc; [exact Hc|].
  simpl. destruct (c !! key) as [sg|] eqn:E; [|now apply IH].
  assert (Hcl : healthy (conn_after (if ow then clear c key else mkAfter (Resolved tt) c)))
    by (destruct ow; [now apply clear_healthy|exact Hc]).
  destruct (answer_of (if ow then clear c key else mkAfter (Resolved tt) c));
    [|exact Hcl].
  pose proof (write_healthy _ key data Put Hcl) as Hw. fold (put) in Hw.
  unfold put in *.
  destruct (answer_of (write _ key data Put)); [now apply IH|exact Hw].
Qed.

(** X14.  Every data method keeps the object stores well formed: when in
    every store the primary keys are strictly ascending, no two records
    share a key of a unique index, every record of a store with a key
    path holds its primary key at the key path, and the key generator is
    ahead of the numeric primary keys, then the same is true after
    [add], [put], [update], [delete], [deleteMany], [clear] and
    [importData], whether they resolve or are rejected. *)
Theorem methods_keep_stores_well_formed (c : connection) (t : string) :
  healthy c ->
  (forall data m, healthy (conn_after (write c t data m)))
  /\ (forall data, healthy (conn_after (add c t data)))
  /\ (forall data, healthy (conn_after (put c t data)))
  /\ (forall id data, healthy (conn_after (update c t id data)))
  /\ (forall id, healthy (conn_after (delete c t id)))
  /\ (forall ids, healthy (conn_after (deleteMany c t ids)))
  /\ healthy (conn_after (clear c t))
  /\ (forall json ow, healthy (conn_after (importData c json ow))).
Proof.
  intros Hc.
  split; [intros; now apply write_healthy|].
  split; [intros; now apply write_healthy|].
  split; [intros; now apply write_healthy|].
  split.
  { intros id data. unfold update, open_store.
    destruct (c !! t) as [sg|] eqn:E; [|exact Hc].
    destruct (IDB.get (fst sg) id) as [r|]; [|exact Hc].
    destruct (store_record false sg _) as [[k sg']|e] eqn:Hs; [|exact Hc].
    simpl. apply healthy_insert; [exact Hc|].
    eapply store_record_well_formed; eauto. }
  split.
  { intros id. unfold delete, open_store. destruct (c !! t) as [sg|] eqn:E; [|exact Hc].
    simpl. apply healthy_insert; [exact Hc|].
    apply delete_record_well_formed. eauto. }
  split.
  { intros ids. unfold deleteMany, open_store.
    destruct (c !! t) as [sg|] eqn:E; [|exact Hc].
    simpl. apply healthy_insert; [exact Hc|].
    apply delete_all_well_formed. destruct sg. eauto. }
  split; [now apply clear_healthy|].
  intros [| |entries] ow; [exact Hc|exact Hc|now apply import_each_healthy].
Qed.

Lemma users_well_formed : well_formed users.
Proof.
  unfold well_formed, users. simpl. repeat split.
  - unfold ascending, keys_of. simpl. repeat constructor.
  - intros name ix r r' k Hix Hun Hr Hr' Hk Hk'. simpl in *.
    apply lookup_insert_Some in Hix as [[<- <-]|[_ Hix]].
    + destruct Hr as [<-|[<-|[]]], Hr' as [<-|[<-|[]]];
        try reflexivity; exfalso;
        destruct Hk as [<-|[]]; destruct Hk' as [Hk'|[]]; discriminate.
    + apply lookup_insert_Some in Hix as [[<- <-]|[_ Hix]]; [discriminate|].
      rewrite lookup_empty in Hix. discriminate.
  - intros kp r [= <-] Hr. simpl in *. destruct Hr as [<-|[<-|[]]]; reflexivity.
  - intros n Hn. simpl in *. unfold keys_of in Hn. simpl in Hn.
    destruct Hn as [[= <-]|[[= <-]|[]]]; reflexivity.
Qed.

Lemma notes_well_formed : well_formed notes.
Proof.
  unfold well_formed, notes. simpl. repeat split.
  - unfold ascending, keys_of. simpl. repeat constructor.
  - intros name ix r r' k Hix. simpl in Hix. rewrite lookup_empty in Hix. discriminate.
  - intros kp r Hkp. discriminate.
  - intros n Hn. unfold keys_of in Hn. simpl in Hn.
    destruct Hn as [[= <-]|[]]. reflexivity.
Qed.

Lemma sample_conn_healthy : healthy sample_conn.
Proof.
  intros t sg H. unfold sample_conn in H.
  apply lookup_insert_Some in H as [[_ <-]|[_ H]]; [exact users_well_formed|].
  apply lookup_insert_Some in H as [[_ <-]|[_ H]]; [exact notes_well_formed|].
  now apply lookup_empty_Some in H.
Qed.

Lemma methods_keep_stores_well_formed_witness :
  healthy sample_conn
  /\ healthy (conn_after (put sample_conn "users"
                (Single [("name"%string, KStr (cps "cy")); ("mail"%string, KStr (cps "cy@x"))]))).
Proof.
  split; [exact sample_conn_healthy|].
  apply (methods_keep_stores_well_formed sample_conn "users" sample_conn_healthy).
Defined.

End DataInvariants.

(** ** [update] *)

Module DataUpdateSpec.
Import IDB Indb IDBData IndbData KeyFacts Vocabulary DataVocabulary.
Import DataReadSpec DataDeleteSpec DataWriteSpec DataInvariants.

Lemma get_field_app (n : string) (a b : item) :
  get_field n (a ++ b) =
  match get_field n a with Some v => Some v | None => get_field n b end.
Proof.
  induction a as [|[m w] a IH]; simpl; [reflexivity|].
  now destruct (String.eqb m n).
Qed.

(** [{...target, ...source}]: a property has the value that [source]
    gives it last, and the value of [target] when [source] has none. *)
Lemma merge_field (source target : item) (n : string) :
  get_field n (merge target source) =
  match get_field n (rev source) with
  | Some v => Some v
  | None => get_field n target
  end.
Proof.
  revert target; induction source as [|[m w] source IH]; intros target; simpl.
  - reflexivity.
  - rewrite IH, get_field_app, get_field_set_field. simpl.
    destruct (get_field n (rev source)); [reflexivity|].
    now destruct (String.eqb m n).
Qed.

Lemma get_Some (s : objectStore) (id : key) (r : record) :
  IDB.get s id = Some r -> In r (records s) /\ r_id r = id.
Proof.
  unfold IDB.get. intros H. apply find_some in H as [Hr E].
  apply key_eqb_eq in E. now split.
Qed.

Lemma insert_record_length (r : record) (l : list record) :
  length (insert_record r l) = S (length l).
Proof.
  induction l as [|x l IH]; simpl; [reflexivity|].
  destruct (key_ltb (r_id r) (r_id x)); simpl; [reflexivity|]. now rewrite IH.
Qed.

(** X15.  [update(table, id, data)] on a store with a key path, for a
    record that exists and a [data] without the property of the key path:
    the record is replaced by the record of the same key whose properties
    are those of [data] and, for the properties [data] has not, those of
    the old record; the call resolves with [true], and [get] of the other
    keys is as before, unless a unique index refuses the new record, in
    which case the call is rejected with a ConstraintError and nothing is
    changed. *)
Theorem update_merges_fields (c : connection) (t kp : string) (id : key)
    (data : item) (sg : stored) (r : record) :
  c !! t = Some sg -> inline sg -> key_path (snd sg) = Some kp ->
  get_field kp (rev data) = None ->
  IDB.get (fst sg) id = Some r ->
  let merged := mkRecord id (merge (r_fields r) data) in
  let c' := conn_after (update c t id data) in
  (forall n, get_field n (r_fields merged) =
             match get_field n (rev data) with
             | Some v => Some v
             | None => get_field n (r_fields r)
             end)
  /\ (violates_unique (delete_record id (fst sg)) merged = false ->
      answer_of (update c t id data) = Resolved true
      /\ answer_of (get c' t id) = Resolved (Some merged)
      /\ (forall id', id' <> id -> answer_of (get c' t id') = answer_of (get c t id')))
  /\ (violates_unique (delete_record id (fst sg)) merged = true ->
      answer_of (update c t id data) = Failed ConstraintError /\ c' = c).
Proof.
  intros Hc Hin Hkp Hdata Hget merged c'. subst merged c'.
  destruct (get_Some _ _ _ Hget) as [Hr Hid].
  assert (Hkey : get_field kp (merge (r_fields r) data) = Some id).
  { rewrite merge_field, Hdata, <- Hid. now apply Hin. }
  split; [intros n; apply merge_field|].
  unfold update, open_store, store_record, key_for. rewrite Hc, Hget. simpl.
  rewrite Hkp, Hkey. split.
  - intros Hu. rewrite Hu. simpl. split; [reflexivity|]. split.
    + erewrite get_found by apply conn_insert_eq. simpl. f_equal. unfold IDB.get. simpl.
      apply (find_inserted (mkRecord id (merge (r_fields r) data))). intros x Hx. simpl.
      apply (delete_record_keys id (fst sg)) in Hx. tauto.
    + intros id' Hne. erewrite get_found by apply conn_insert_eq.
      rewrite (get_found c t id' sg Hc). simpl. f_equal. unfold IDB.get. simpl.
      rewrite find_other_inserted by (simpl; congruence).
      now apply find_other_after_delete.
  - intros Hu. rewrite Hu. simpl. split; reflexivity.
Qed.

Lemma update_merges_fields_witness :
  let data := [("name"%string, KStr (cps "bobby"))] in
  let merged := mkRecord (KNum 2) (merge (r_fields (user 2 "bob" "bob@x")) data) in
  let c' := conn_after (update sample_conn "users" (KNum 2) data) in
  (forall n, get_field n (r_fields merged) =
             match get_field n (rev data) with
             | Some v => Some v
             | None => get_field n (r_fields (user 2 "bob" "bob@x"))
             end)
  /\ (violates_unique (delete_record (KNum 2) (fst users)) merged = false ->
      answer_of (update sample_conn "users" (KNum 2) data) = Resolved true
      /\ answer_of (get c' "users" (KNum 2)) = Resolved (Some merged)
      /\ (forall id', id' <> KNum 2 ->
            answer_of (get c' "users" id') = answer_of (get sample_conn "users" id')))
  /\ (violates_unique (delete_record (KNum 2) (fst users)) merged = true ->
      answer_of (update sample_conn "users" (KNum 2) data) = Failed ConstraintError
      /\ c' = sample_conn).
Proof.
  apply (update_merges_fields sample_conn "users" "id" (KNum 2)
           [("name"%string, KStr (cps "bobby"))] users (user 2 "bob" "bob@x")).
  - reflexivity.
  - destruct users_well_formed as (_ & _ & H & _). exact H.
  - reflexivity.
  - reflexivity.
  - reflexivity.
Defined.

(** X16.  [update] on a store without a key path does not replace the
    record: the merged object is stored under the next generated key, so
    that, when no unique index refuses it, the call resolves with [true],
    [get(table, id)] still gives the old record, the merged object is a
    new record and the table has one record more. *)
Theorem update_without_key_path_adds_copy (c : connection) (t : string) (id : key)
    (data : item) (sg : stored) (r : record) :
  c !! t = Some sg -> key_path (snd sg) = None -> generator_ahead sg ->
  IDB.get (fst sg) id = Some r ->
  let n := current_number (snd sg) in
  let copy := mkRecord (KNum n) (merge (r_fields r) data) in
  let c' := conn_after (update c t id data) in
  n <= max_generated ->
  violates_unique (fst sg) copy = false ->
  answer_of (update c t id data) = Resolved true
  /\ answer_of (get c' t id) = Resolved (Some r)
  /\ answer_of (get c' t (KNum n)) = Resolved (Some copy)
  /\ (exists rows, answer_of (getAll c' t) = Resolved rows
        /\ length rows = S (length (records (fst sg)))).
Proof.
  intros Hc Hkp Ha Hget n copy c' Hle Hu. subst n copy c'.
  pose proof (generated_key_is_free sg Ha Hle) as Hfree.
  destruct (get_Some _ _ _ Hget) as [Hr Hid].
  assert (Hne : KNum (current_number (snd sg)) <> id).
  { intros E. rewrite <- E in Hid.
    assert (H : has_key (KNum (current_number (snd sg))) (fst sg) = true).
    { apply has_key_In. rewrite <- Hid. unfold keys_of. now apply in_map. }
    congruence. }
  assert (Hlt : (max_generated <? current_number (snd sg)) = false)
    by (apply Z.ltb_ge; exact Hle).
  pose proof (f_equal records (delete_record_absent _ _ Hfree)) as Hrec.
  simpl in Hrec.
  unfold update, open_store, store_record, key_for, generate. rewrite Hc, Hget. simpl.
  rewrite Hkp, Hlt. simpl. rewrite (delete_record_absent _ _ Hfree), Hu. simpl.
  rewrite Hrec.
  split; [reflexivity|]. split; [|split].
  - erewrite get_found by apply conn_insert_eq. simpl. f_equal. unfold IDB.get. simpl.
    rewrite find_other_inserted by (simpl; exact Hne). exact Hget.
  - erewrite get_found by apply conn_insert_eq. simpl. f_equal. unfold IDB.get. simpl.
    apply (find_inserted (mkRecord (KNum (current_number (snd sg)))
                            (merge (r_fields r) data))).
    intros x Hx E. simpl in E.
    assert (H : has_key (KNum (current_number (snd sg))) (fst sg) = true).
    { apply has_key_In. rewrite <- E. unfold keys_of. now apply in_map. }
    congruence.
  - eexists. split; [apply getAll_found, conn_insert_eq|]. simpl.
    apply insert_record_length.
Qed.

Lemma update_without_key_path_adds_copy_witness :
  let data := [("text"%string, KStr (cps "bye"))] in
  let copy := mkRecord (KNum 2) data in
  let c' := conn_after (update sample_conn "notes" (KNum 1) data) in
  answer_of (update sample_conn "notes" (KNum 1) data) = Resolved true
  /\ answer_of (get c' "notes" (KNum 1))
     = Resolved (Some (mkRecord (KNum 1) [("text"%string, KStr (cps "hello"))]))
  /\ answer_of (get c' "notes" (KNum 2)) = Resolved (Some copy)
  /\ (exists rows, answer_of (getAll c' "notes") = Resolved rows
        /\ length rows = S (length (records (fst notes)))).
Proof.
  apply (update_without_key_path_adds_copy sample_conn "notes" (KNum 1)
           [("text"%string, KStr (cps "bye"))] notes
           (mkRecord (KNum 1) [("text"%string, KStr (cps "hello"))])).
  - reflexivity.
  - reflexivity.
  - destruct notes_well_formed as (_ & _ & _ & H). exact H.
  - reflexivity.
  - unfold max_generated. simpl. lia.
  - reflexivity.
Defined.

End DataUpdateSpec.

(** ** [exportData] and [importData] *)

Module DataTransferSpec.
Import IDB Indb IDBData IndbData KeyFacts Vocabulary DataVocabulary.
Import RemoveSpec DataReadSpec DataDeleteSpec DataWriteSpec DataInvariants DataUpdateSpec.

Lemma names_In (c : connection) (t : string) :
  In t (objectStoreNames c) <-> exists sg, c !! t = Some sg.
Proof.
  unfold objectStoreNames. rewrite in_map_iff. split.
  - intros ([t' sg] & <- & H). exists sg. simpl.
    apply list_elem_of_In in H. now apply elem_of_map_to_list in H.
  - intros (sg & H). exists (t, sg). split; [reflexivity|].
    apply list_elem_of_In. now apply elem_of_map_to_list.
Qed.

Lemma export_fold (c : connection) (names : list string)
    (acc : gmap string (list record)) :
  (forall n, In n names -> exists sg, c !! n = Some sg) ->
  exists data,
    fold_left
      (fun acc name =>
         match acc with
         | Failed e => Failed e
         | Resolved data =>
             match answer_of (getAll c name) with
             | Resolved rows => Resolved (<[name := rows]> data)
             | Failed e => Failed e
             end
         end) names (Resolved acc) = Resolved data
    /\ forall t, (In t names -> data !! t = rows_of <$> (c !! t))
              /\ (~ In t names -> data !! t = acc !! t).
Proof.
  revert acc; induction names as [|n rest IH]; intros acc Hn; simpl.
  - exists acc. split; [reflexivity|]. intros t. split; [intros []|reflexivity].
  - destruct (Hn n (or_introl eq_refl)) as (sg & Hsg).
    rewrite (getAll_found c n sg Hsg).
    destruct (IH (<[n := records (fst sg)]> acc)) as (data & Hd & Ht).
    { intros m Hm. apply Hn. now right. }
    exists data. split; [exact Hd|]. intros t. destruct (Ht t) as [Hin Hout].
    destruct (in_dec string_dec t rest) as [Hr|Hr].
    + split; [intros _; now apply Hin|]. intros H. exfalso. apply H. now right.
    + split.
      * intros [->|H]; [|contradiction]. rewrite (Hout Hr), lookup_insert_eq.
        transitivity (rows_of <$> Some sg); [reflexivity|]. f_equal. now symmetry.
      * intros H. rewrite (Hout Hr). apply lookup_insert_ne. intros ->. apply H. now left.
Qed.

Lemma all_rows_found (c : connection) (t : string) (sg : stored) :
  c !! t = Some sg -> all_rows c !! t = Some (rows_of sg).
Proof.
  intros H. unfold all_rows. rewrite lookup_fmap.
  transitivity (rows_of <$> Some sg); [|reflexivity]. f_equal. exact H.
Qed.

Lemma all_rows_missing (c : connection) (t : string) :
  c !! t = None -> all_rows c !! t = None.
Proof.
  intros H. unfold all_rows. rewrite lookup_fmap.
  transitivity (rows_of <$> (None : option stored)); [|reflexivity]. f_equal. exact H.
Qed.

Lemma export_answer (c : connection) :
  answer_of (exportData c) = Resolved (all_rows c).
Proof.
  unfold exportData. simpl.
  destruct (export_fold c (objectStoreNames c) ∅) as (data & -> & Ht).
  { intros n Hn. now apply names_In. }
  f_equal. apply map_eq. intros t. destruct (Ht t) as [Hin Hout].
  destruct (c !! t) as [sg|] eqn:E.
  - rewrite (all_rows_found c t sg E). apply Hin, names_In. now exists sg.
  - rewrite (all_rows_missing c t E), Hout; [apply lookup_empty|].
    intros H. apply names_In in H as (sg & H). congruence.
Qed.

(** X17.  [exportData()] never fails and changes nothing; the object it
    resolves with has one property per table of the database and no
    other, and the property of a table holds what [getAll] of the table
    resolves with. *)
Theorem exportData_gives_every_table (c : connection) :
  answer_of (exportData c) = Resolved (all_rows c)
  /\ conn_after (exportData c) = c
  /\ forall t rows,
       all_rows c !! t = Some rows <-> answer_of (getAll c t) = Resolved rows.
Proof.
  split; [apply export_answer|]. split; [reflexivity|].
  intros t rows. destruct (c !! t) as [sg|] eqn:E.
  - rewrite (getAll_found c t sg E), (all_rows_found c t sg E).
    unfold rows_of. split; congruence.
  - rewrite (all_rows_missing c t E). unfold getAll, open_store. rewrite E. simpl.
    split; discriminate.
Qed.

Lemma known_insert (c : connection) (t : string) (sg sg' : stored)
    (e : string * payload) :
  c !! t = Some sg -> known (<[t := sg']> c) e = known c e.
Proof.
  intros H. unfold known. destruct (decide (fst e = t)) as [->|Hne].
  - now rewrite conn_insert_eq, H.
  - now rewrite conn_insert_ne.
Qed.


Lemma known_write (c : connection) (t : string) (d : payload) (m : method)
    (e : string * payload) :
  known (conn_after (write c t d m)) e = known c e.
Proof.
  unfold write, open_store. destruct (c !! t) as [sg|] eqn:Hc; [|reflexivity].
  destruct d as [v|vs].
  - destruct (store_record (no_overwrite m) sg v) as [[k sg']|e']; [|reflexivity].
    simpl. now apply (known_insert c t sg).
  - destruct (write_each m sg vs) as [sg'|e']; [|reflexivity].
    simpl. now apply (known_insert c t sg).
Qed.

Lemma known_clear (c : connection) (t : string) (e : string * payload) :
  known (conn_after (clear c t)) e = known c e.
Proof.
  unfold clear, open_store. destruct (c !! t) as [sg|] eqn:Hc; [|reflexivity].
  simpl. now apply (known_insert c t sg).
Qed.

Lemma import_each_skips (entries : list (string * payload)) (ow : bool)
    (c c0 : connection) :
  (forall e, known c0 e = known c e) ->
  import_each c entries ow = import_each c (List.filter (known c0) entries) ow.
Proof.
  revert c; induction entries as [|[key data] rest IH]; intros c Hk; [reflexivity|].
  simpl. specialize (Hk (key, data)) as Hkey. unfold known in Hkey at 2. simpl in Hkey.
  destruct (c !! key) as [sg|] eqn:Hc; rewrite Hkey.
  - simpl. rewrite Hc.
    destruct (answer_of (if ow then clear c key else mkAfter (Resolved tt) c));
      [|reflexivity].
    destruct (answer_of (put _ key data)); [|reflexivity].
    apply IH. intros e. rewrite Hk. unfold put. rewrite known_write.
    destruct ow; [now rewrite known_clear|reflexivity].
  - now apply IH.
Qed.

(** X18.  [importData] ignores the properties of [json] that do not name
    a table of the database: the call does what it does for [json]
    without them; with no property that names a table it resolves with
    [true] and changes nothing. *)
Theorem importData_skips_unknown_tables (c : connection)
    (entries : list (string * payload)) (ow : bool) :
  importData c (Object entries) ow = importData c (Object (List.filter (known c) entries)) ow
  /\ (List.filter (known c) entries = [] ->
      importData c (Object entries) ow = mkAfter (Resolved true) c).
Proof.
  assert (H : import_each c entries ow
              = import_each c (List.filter (known c) entries) ow)
    by now apply import_each_skips.
  split; [exact H|]. intros E. simpl. now rewrite H, E.
Qed.



Lemma sorted_before (pre post : list record) (r : record) :
  StronglySorted key_lt (map r_id (pre ++ r :: post)) ->
  forall x, In x pre -> key_lt (r_id x) (r_id r).
Proof.
  induction pre as [|y pre IH]; simpl; intros Hs x Hx; [contradiction|].
  inversion Hs as [|? ? Hl Hy]; subst. destruct Hx as [->|Hx]; [|now apply IH].
  rewrite List.Forall_forall in Hy. apply Hy. rewrite map_app, in_app_iff.
  right. now left.
Qed.

Lemma insert_record_last (r : record) (l : list record) :
  (forall x, In x l -> key_lt (r_id x) (r_id r)) -> insert_record r l = l ++ [r].
Proof.
  induction l as [|y l IH]; simpl; intros H; [reflexivity|].
  assert (E : key_ltb (r_id r) (r_id y) = false).
  { unfold key_ltb. rewrite (key_cmp_antisym (r_id y) (r_id r)).
    now rewrite (H y (or_introl eq_refl)). }
  rewrite E. f_equal. apply IH. auto.
Qed.

Lemma violates_unique_true (s : objectStore) (r : record) :
  violates_unique s r = true ->
  exists name ix k r',
    indexes s !! name = Some ix /\ unique ix = true
    /\ In k (index_keys ix r) /\ In r' (records s) /\ In k (index_keys ix r').
Proof.
  unfold violates_unique. intros H.
  apply existsb_exists in H as ([name ix] & Hin & Hc). simpl in Hc.
  unfold conflicts in Hc. apply andb_true_iff in Hc as [Hu Hc].
  apply existsb_exists in Hc as (k & Hk & Hc).
  apply existsb_exists in Hc as (r' & Hr' & Hc).
  unfold holds_key in Hc. apply existsb_key_In in Hc.
  exists name, ix, k, r'. repeat split; auto.
  apply list_elem_of_In in Hin. now apply elem_of_map_to_list in Hin.
Qed.

Lemma record_eta (r : record) : mkRecord (r_id r) (r_fields r) = r.
Proof. now destruct r. Qed.

(** [put] of the values of the records of a well-formed table with a key
    path, in their order, rebuilds the records. *)
Lemma write_each_sorted (ix : gmap string index_def) (kp : string)
    (post pre : list record) (g : keyGenerator) :
  key_path g = Some kp ->
  StronglySorted key_lt (map r_id (pre ++ post)) ->
  (forall r, In r post -> get_field kp (r_fields r) = Some (r_id r)) ->
  unique_respected (mkStore (pre ++ post) ix) ->
  exists g', key_path g' = Some kp
    /\ write_each Put (mkStore pre ix, g) (map r_fields post)
       = Resolved (mkStore (pre ++ post) ix, g').
Proof.
  revert pre g; induction post as [|r post IH]; intros pre g Hkp Hs Hin Hu.
  - exists g. rewrite app_nil_r. auto.
  - pose proof (sorted_before pre post r Hs) as Hlt.
    assert (Hfree : has_key (r_id r) (mkStore pre ix) = false).
    { destruct (has_key (r_id r) (mkStore pre ix)) eqn:E; [|reflexivity].
      apply has_key_In in E. unfold keys_of in E. simpl in E.
      apply in_map_iff in E as (x & E & Hx). specialize (Hlt x Hx).
      unfold key_lt in Hlt. rewrite E, key_cmp_refl in Hlt. discriminate. }
    assert (Hv : violates_unique (mkStore pre ix) r = false).
    { destruct (violates_unique (mkStore pre ix) r) eqn:E; [|reflexivity].
      apply violates_unique_true in E as (name & ix0 & k & r' & H1 & H2 & H3 & H4 & H5).
      simpl in H1, H4.
      assert (Eid : r_id r = r_id r').
      { apply (Hu name ix0 r r' k); simpl; auto; rewrite in_app_iff; simpl; auto. }
      specialize (Hlt r' H4). unfold key_lt in Hlt.
      rewrite Eid, key_cmp_refl in Hlt. discriminate. }
    destruct (IH (pre ++ [r]) (possibly_update g (r_id r))) as (g' & Hg' & Hw).
    + destruct (possibly_update_spec g (r_id r)) as (H & _). congruence.
    + now rewrite <- app_assoc.
    + intros x Hx. apply Hin. now right.
    + now rewrite <- app_assoc.
    + exists g'. split; [exact Hg'|].
      cbn [map write_each]. unfold store_record, key_for. cbn [fst snd no_overwrite].
      rewrite Hkp, (Hin r (or_introl eq_refl)). cbn [andb].
      rewrite (delete_record_absent _ _ Hfree), record_eta, Hv.
      cbn [records indexes]. rewrite (insert_record_last r pre Hlt), Hw.
      now rewrite <- app_assoc.
Qed.

Lemma same_schema_found (c c2 : connection) (t : string) (sg : stored) :
  same_schema c c2 -> c !! t = Some sg ->
  exists sg2 : stored, c2 !! t = Some sg2
    /\ indexes (fst sg) = indexes (fst sg2) /\ key_path (snd sg) = key_path (snd sg2).
Proof.
  intros H Hc. unfold same_schema in H. specialize (H t). fold stored in *.
  rewrite Hc in H.
  destruct (c2 !! t) as [sg2|]; [|contradiction]. now exists sg2.
Qed.

Lemma same_schema_missing (c c2 : connection) (t : string) :
  same_schema c c2 -> c !! t = None -> c2 !! t = None.
Proof.
  intros H Hc. unfold same_schema in H. specialize (H t). fold stored in *.
  rewrite Hc in H.
  destruct (c2 !! t) as [sg2|]; [contradiction|reflexivity].
Qed.

Lemma same_schema_insert (c c2 : connection) (t : string) (sg sg2 : stored) :
  same_schema c c2 -> c !! t = Some sg ->
  indexes (fst sg) = indexes (fst sg2) -> key_path (snd sg) = key_path (snd sg2) ->
  same_schema c (<[t := sg2]> c2).
Proof.
  intros H Hc Hi Hk t'. unfold same_schema in H. fold stored in *.
  destruct (decide (t' = t)) as [->|Hne].
  - rewrite Hc, conn_insert_eq. auto.
  - rewrite conn_insert_ne by exact Hne. apply H.
Qed.

Lemma import_each_restores (c : connection) (entries : list (string * payload))
    (c2 : connection) :
  healthy c -> keys_in_line c ->
  List.NoDup (map fst entries) ->
  (forall t p, In (t, p) entries -> exists sg, c !! t = Some sg /\ p = exported sg) ->
  same_schema c c2 ->
  answer_of (import_each c2 entries true) = Resolved true
  /\ forall t,
       (In t (map fst entries) ->
        answer_of (getAll (conn_after (import_each c2 entries true)) t)
        = answer_of (getAll c t))
       /\ (~ In t (map fst entries) ->
           conn_after (import_each c2 entries true) !! t = c2 !! t).
Proof.
  intros Hh Hkl. revert c2; induction entries as [|[t0 p0] rest IH];
    intros c2 Hnd Hent Hs.
  - split; [reflexivity|]. intros t. split; [intros []|reflexivity].
  - destruct (Hent t0 p0 (or_introl eq_refl)) as (sg & Hc & ->).
    destruct (same_schema_found c c2 t0 sg Hs Hc) as (sg2 & Hc2 & Hix & Hkp).
    destruct (Hkl t0 sg Hc) as (kp & Hpath).
    destruct (Hh t0 sg Hc) as (Ha & Hu & Hi & _).
    destruct (write_each_sorted (indexes (fst sg2)) kp (records (fst sg)) []
                (snd sg2)) as (g' & Hg' & Hw).
    { congruence. }
    { exact Ha. }
    { intros r Hr. now apply (Hi kp r). }
    { intros name ix r r' k H1. simpl in H1. rewrite <- Hix in H1.
      simpl. intros H2 H3 H4 H5 H6. exact (Hu name ix r r' k H1 H2 H3 H4 H5 H6). }
    simpl in Hw.
    inversion Hnd as [|? ? Hnot Hnd']; subst.
    set (c2b := <[t0 := (mkStore (records (fst sg)) (indexes (fst sg2)), g')]> c2).
    assert (Hstep : import_each c2 ((t0, exported sg) :: rest) true
                    = import_each c2b rest true).
    { cbn [import_each]. rewrite Hc2.
      assert (Hcl : clear c2 t0
                    = mkAfter (Resolved tt) (<[t0 := (clear_store (fst sg2), snd sg2)]> c2)).
      { unfold clear, open_store. now rewrite Hc2. }
      rewrite Hcl. cbn [answer_of conn_after].
      assert (Hput : put (<[t0 := (clear_store (fst sg2), snd sg2)]> c2) t0 (exported sg)
                     = mkAfter (Resolved Completed) c2b).
      { unfold put, write, open_store, exported. rewrite conn_insert_eq.
        cbn [fst snd clear_store]. unfold clear_store. rewrite Hw.
        unfold c2b. now rewrite conn_insert_insert. }
      rewrite Hput. reflexivity. }
    rewrite Hstep.
    destruct (IH c2b Hnd') as (Hans & Ht).
    { intros t p Hp. apply Hent. now right. }
    { apply (same_schema_insert c c2 t0 sg); auto. simpl. congruence. }
    split; [exact Hans|]. intros t. destruct (Ht t) as [Hin Hout]. split.
    + simpl. intros [<-|H]; [|now apply Hin].
      rewrite (getAll_found c t0 sg Hc).
      rewrite (getAll_found _ t0
                 (mkStore (records (fst sg)) (indexes (fst sg2)), g'));
        [reflexivity|].
      rewrite (Hout Hnot). unfold c2b. apply conn_insert_eq.
    + simpl. intros H. rewrite Hout by tauto. unfold c2b.
      apply conn_insert_ne. intros ->. apply H. now left.
Qed.

Lemma as_json_In (data : gmap string (list record)) (t : string) (p : payload) :
  In (t, p) (as_json data) <->
  exists rows, data !! t = Some rows /\ p = Array (map r_fields rows).
Proof.
  unfold as_json. rewrite in_map_iff. split.
  - intros ([t' rows] & [= <- <-] & H). exists rows. split; [|reflexivity].
    apply list_elem_of_In in H. now apply elem_of_map_to_list in H.
  - intros (rows & H & ->). exists (t, rows). split; [reflexivity|].
    apply list_elem_of_In. now apply elem_of_map_to_list.
Qed.

Lemma as_json_NoDup (data : gmap string (list record)) :
  List.NoDup (map fst (as_json data)).
Proof.
  unfold as_json. rewrite map_map. simpl.
  apply NoDup_ListNoDup. apply (NoDup_fst_map_to_list data).
Qed.

(** X20.  Export and import are a round trip for tables with in-line
    keys: when every table of a database was created with [increment]
    and is well formed, [importData] with [overwrite] of what
    [exportData] resolved with, the tables in any order, into a database
    of the same schema resolves with [true], and afterwards [getAll] of
    every table gives what it gives in the exported database, whatever
    the importing database held. *)
Theorem export_then_import_restores (c c2 : connection)
    (data : gmap string (list record)) (entries : list (string * payload)) :
  healthy c -> keys_in_line c -> same_schema c c2 ->
  answer_of (exportData c) = Resolved data ->
  Permutation entries (as_json data) ->
  let a := importData c2 (Object entries) true in
  answer_of a = Resolved true
  /\ forall t, answer_of (getAll (conn_after a) t) = answer_of (getAll c t).
Proof.
  intros Hh Hkl Hs Hexp Hperm. rewrite export_answer in Hexp. injection Hexp as <-.
  simpl.
  destruct (import_each_restores c entries c2 Hh Hkl) as (Hans & Ht).
  - apply (Permutation_NoDup (l := map fst (as_json (all_rows c)))).
    + apply Permutation_map. now apply Permutation_sym.
    + apply as_json_NoDup.
  - intros t p Hp. apply (Permutation_in _ Hperm) in Hp.
    apply as_json_In in Hp as (rows & Hrows & ->).
    destruct (c !! t) as [sg|] eqn:E.
    + rewrite (all_rows_found c t sg E) in Hrows. injection Hrows as <-.
      now exists sg.
    + rewrite (all_rows_missing c t E) in Hrows. discriminate.
  - exact Hs.
  - split; [exact Hans|]. intros t. destruct (Ht t) as [Hin Hout].
    destruct (c !! t) as [sg|] eqn:E.
    + apply Hin. apply (Permutation_in _ (Permutation_map fst (Permutation_sym Hperm))).
      apply in_map_iff. exists (t, exported sg). split; [reflexivity|].
      apply as_json_In. exists (rows_of sg). split; [|reflexivity].
      now apply all_rows_found.
    + assert (Hnot : ~ In t (map fst entries)).
      { intros H. apply (Permutation_in _ (Permutation_map fst Hperm)) in H.
        apply in_map_iff in H as ([t' p] & <- & H). simpl in *.
        apply as_json_In in H as (rows & H & _).
        rewrite (all_rows_missing c t' E) in H. discriminate. }
      unfold getAll, open_store. rewrite (Hout Hnot), E.
      now rewrite (same_schema_missing c c2 t Hs E).
Qed.

Lemma users_only_healthy : healthy users_only.
Proof.
  intros t sg H. unfold users_only in H.
  apply lookup_insert_Some in H as [[_ <-]|[_ H]]; [exact users_well_formed|].
  now apply lookup_empty_Some in H.
Qed.

Lemma users_only_in_line : keys_in_line users_only.
Proof.
  intros t sg H. unfold users_only in H.
  apply lookup_insert_Some in H as [[_ <-]|[_ H]]; [now exists "id"%string|].
  now apply lookup_empty_Some in H.
Qed.

Lemma users_same_schema : same_schema users_only other_users.
Proof.
  intros t. unfold users_only, other_users. fold stored.
  destruct (decide (t = "users"%string)) as [->|Hne].
  - rewrite !conn_insert_eq. split; reflexivity.
  - rewrite !conn_insert_ne by exact Hne. reflexivity.
Qed.

Lemma export_then_import_restores_witness :
  let a := importData other_users (Object (as_json (all_rows users_only))) true in
  answer_of a = Resolved true
  /\ forall t, answer_of (getAll (conn_after a) t) = answer_of (getAll users_only t).
Proof.
  apply (export_then_import_restores users_only other_users (all_rows users_only)
           (as_json (all_rows users_only))).
  - exact users_only_healthy.
  - exact users_only_in_line.
  - exact users_same_schema.
  - apply export_answer.
  - apply Permutation_refl.
Defined.

End DataTransferSpec.

(** ** Pages of [select], and the queries that cannot run *)

Module PagingSpec.
Import IDB Indb KeyFacts Vocabulary CursorFacts SelectFacts ReadSpec PagingFacts.

(** X21.  A page is a slice of the full result: on a table that exists,
    for a value that [filter] accepts, a [limit] of at least 1 and either
    no [offset] or an [offset] between 1 and 2^32-1, [select] fulfils
    with the records that [select] without [offset] and [limit] fulfils
    with, [offset] of them skipped and at most [limit] of them taken. *)
Theorem select_page_is_slice (db : database) (d : descriptor) (store : objectStore)
    (q : query_arg) (off : option Z) (lim : Z) :
  db !! table d = Some store -> filter (value d) = Return q ->
  1 <= lim ->
  match off with Some n => valid_count n = true | None => True end ->
  exists all r rp,
    select db (unpaged d) = Some r /\ settled r = Fulfilled (Records all)
    /\ select db (with_page d off (Some lim)) = Some rp
    /\ settled rp = Fulfilled (Records
         (firstn (Z.to_nat lim)
            (skipn (match off with Some n => Z.to_nat n | None => O end) all))).
Proof.
  intros Hdb Hq Hlim Hoff.
  destruct (select_everything db d store q Hdb Hq) as (r & Hr & Hs).
  destruct (select_slice db d store q off lim Hdb Hq Hlim Hoff) as (rp & Hrp & Hsp).
  exists (map e_rec (visited store d q)), r, rp. auto.
Qed.

Lemma select_page_is_slice_witness :
  exists all r rp,
    select sample_db (unpaged all_songs) = Some r /\ settled r = Fulfilled (Records all)
    /\ select sample_db (with_page all_songs (Some 1) (Some 2)) = Some rp
    /\ settled rp = Fulfilled (Records
         (firstn (Z.to_nat 2) (skipn (Z.to_nat 1) all))).
Proof.
  apply (select_page_is_slice sample_db all_songs songs Null (Some 1) 2).
  - reflexivity.
  - reflexivity.
  - lia.
  - reflexivity.
Defined.

Lemma nth_slices {A} (f : nat -> list A) (k i : nat) :
  (i <= k)%nat -> nth i (map f (seq 0 (S k))) [] = f i.
Proof.
  intros Hi. rewrite (nth_indep _ [] (f O)) by (rewrite length_map, length_seq; lia).
  rewrite (map_nth f (seq 0 (S k)) O i), seq_nth by lia. reflexivity.
Qed.

(** X22.  Pagination with pages of [n >= 1] records, the first page asked
    for without [offset] and page [i >= 1] with [offset: i * n] (at most
    2^32-1): the pages [0..k] are all delivered, and one after the other
    they are the first [(k + 1) * n] records of the full result, hence
    the full result once it has no more records than that. *)
Theorem pages_make_up_the_result (db : database) (d : descriptor) (store : objectStore)
    (q : query_arg) (n k : nat) :
  db !! table d = Some store -> filter (value d) = Return q ->
  (1 <= n)%nat -> Z.of_nat (k * n) <= 4294967295 ->
  let off i := match i with O => None | _ => Some (Z.of_nat (i * n)) end in
  exists all r pages,
    select db (unpaged d) = Some r /\ settled r = Fulfilled (Records all)
    /\ length pages = S k
    /\ (forall i, (i <= k)%nat ->
          exists rp, select db (with_page d (off i) (Some (Z.of_nat n))) = Some rp
            /\ settled rp = Fulfilled (Records (nth i pages [])))
    /\ concat pages = firstn (S k * n) all
    /\ ((length all <= S k * n)%nat -> concat pages = all).
Proof.
  intros Hdb Hq Hn Hk off.
  destruct (select_everything db d store q Hdb Hq) as (r & Hr & Hs).
  set (all := map e_rec (visited store d q)) in *.
  exists all, r, (map (fun i => firstn n (skipn (i * n) all)) (seq 0 (S k))).
  split; [exact Hr|]. split; [exact Hs|].
  split; [now rewrite length_map, length_seq|]. split.
  - intros i Hi. rewrite (nth_slices (fun i => firstn n (skipn (i * n) all)) k i Hi).
    exact (pages_reconstruct db d store q n k Hdb Hq Hn Hk i Hi).
  - split; [apply slices_concat|].
    intros Hlen. rewrite slices_concat. now apply firstn_all2.
Qed.

Lemma pages_make_up_the_result_witness :
  let off i := match i with O => None | _ => Some (Z.of_nat (i * 2)) end in
  exists all r pages,
    select sample_db (unpaged all_songs) = Some r /\ settled r = Fulfilled (Records all)
    /\ length pages = 2%nat
    /\ (forall i, (i <= 1)%nat ->
          exists rp, select sample_db (with_page all_songs (off i) (Some (Z.of_nat 2)))
                     = Some rp
            /\ settled rp = Fulfilled (Records (nth i pages [])))
    /\ concat pages = firstn (2 * 2) all
    /\ ((length all <= 2 * 2)%nat -> concat pages = all).
Proof.
  apply (pages_make_up_the_result sample_db all_songs songs Null 2 1).
  - reflexivity.
  - reflexivity.
  - lia.
  - simpl. lia.
Defined.

Lemma settle_cons (dir : IDB.direction) (e : entry) (l : list entry) :
  exists c, settle dir (e :: l) = Some c.
Proof. destruct dir; simpl; eauto. Qed.

Lemma query_invalid_offset (db : database) (ty : qtype) (d : descriptor)
    (store : objectStore) (q : query_arg) (off : Z) (lim : option Z) :
  db !! table d = Some store -> filter (value d) = Return q ->
  valid_count off = false -> ty <> TCount ->
  candidates store (source_of store d) q (direction_of d) <> [] ->
  exists r, query db ty (with_page d (Some off) lim) = Some r
    /\ settled r = Pending TypeError /\ db_after r = db
    /\ existsb (fun c => match c with CDelete _ => true | _ => false end) (calls r) = false.
Proof.
  intros Hdb Hq Hv Hty Hne. unfold query. cbn [table index value direction with_page].
  rewrite (transaction_found _ _ _ Hdb), Hq.
  fold (source_of store d). fold (direction_of d).
  set (src := source_of store d) in *. set (dir := direction_of d) in *.
  unfold openCursor. destruct (candidates store src q dir) as [|e l] eqn:Hc; [congruence|].
  destruct (settle_cons dir e l) as (c & Hs). rewrite Hs.
  unfold enough. cbn [onsuccess offset advanceFlag with_page].
  rewrite (advance_invalid _ _ _ Hv).
  destruct ty; [|congruence|]; eexists; (split; [reflexivity|]); simpl; auto.
Qed.

(** X23.  An [offset] that [cursor.advance] refuses (0, a negative number
    or a number above 2^32-1) on a range that is not empty: [select] and
    [remove] never settle, the exception leaves the cursor handler; the
    database is as before and [remove] has deleted nothing. *)
Theorem invalid_offset_never_settles (db : database) (d : descriptor)
    (store : objectStore) (q : query_arg) (off : Z) (lim : option Z) :
  db !! table d = Some store -> filter (value d) = Return q ->
  valid_count off = false ->
  candidates store (source_of store d) q (direction_of d) <> [] ->
  exists rs rr,
    select db (with_page d (Some off) lim) = Some rs
    /\ remove db (with_page d (Some off) lim) = Some rr
    /\ settled rs = Pending TypeError /\ settled rr = Pending TypeError
    /\ db_after rs = db /\ db_after rr = db
    /\ existsb (fun c => match c with CDelete _ => true | _ => false end) (calls rr) = false.
Proof.
  intros Hdb Hq Hv Hne.
  destruct (query_invalid_offset db TSelect d store q off lim Hdb Hq Hv) as (rs & H1 & H2 & H3 & _);
    [discriminate|exact Hne|].
  destruct (query_invalid_offset db TDelete d store q off lim Hdb Hq Hv) as (rr & H4 & H5 & H6 & H7);
    [discriminate|exact Hne|].
  exists rs, rr. enter. auto 10.
Qed.

Lemma invalid_offset_never_settles_witness :
  exists rs rr,
    select sample_db (with_page all_songs (Some (-1)) (Some 2)) = Some rs
    /\ remove sample_db (with_page all_songs (Some (-1)) (Some 2)) = Some rr
    /\ settled rs = Pending TypeError /\ settled rr = Pending TypeError
    /\ db_after rs = sample_db /\ db_after rr = sample_db
    /\ existsb (fun c => match c with CDelete _ => true | _ => false end) (calls rr) = false.
Proof.
  apply (invalid_offset_never_settles sample_db all_songs songs Null (-1) (Some 2)).
  - reflexivity.
  - reflexivity.
  - reflexivity.
  - discriminate.
Defined.

(** X24.  On a table that the database does not have, [select], [count]
    and [remove] are rejected with a NotFoundError whatever the rest of
    the descriptor is; they open no cursor and leave the database as it
    was. *)
Theorem unknown_table_is_rejected (db : database) (ty : qtype) (d : descriptor) :
  db !! table d = None ->
  exists r, query db ty d = Some r
    /\ settled r = Rejected NotFoundError
    /\ db_after r = db
    /\ calls r = [CTransaction (table d) (if is_delete ty then readwrite else readonly)].
Proof.
  intros Hdb. unfold query. rewrite (transaction_missing _ _ Hdb).
  eexists. split; [reflexivity|]. simpl. auto.
Qed.

Lemma unknown_table_is_rejected_witness :
  exists r, query sample_db TDelete (whole_table "albums") = Some r
    /\ settled r = Rejected NotFoundError
    /\ db_after r = sample_db
    /\ calls r = [CTransaction "albums" readwrite].
Proof.
  apply (unknown_table_is_rejected sample_db TDelete (whole_table "albums")).
  reflexivity.
Defined.

End PagingSpec.

(** ** [remove] with a limit *)

Module RemoveLimitSpec.
Import IDB Indb KeyFacts Vocabulary CursorFacts SelectFacts ReadSpec SetFacts RemoveSpec.
Import PagingFacts.

Section deleting_some.
Variables (input : descriptor) (dir : IDB.direction) (lim : Z).
Hypothesis Hoff : offset input = None.
Hypothesis Hlim : limit input = Some lim.
Hypothesis Hdir : is_unique dir = false.

(** The deleting handler with a limit: it deletes the records of the
    entries it meets until as many are deleted as the limit says, and at
    least one. *)
Lemma onsuccess_delete_some (R : list entry) (seen : list key) (store : objectStore)
    (st : closure) (log : list call) (fuel : nat) :
  (length R < fuel)%nat ->
  exists log',
    onsuccess fuel TDelete input dir store st log
      (settle dir (List.filter (fun x => negb (existsb (key_eqb (e_pk x)) seen)) R)) =
    Some (Fulfilled (Number (count_var st
            + Z.of_nat (length (firstn (Z.to_nat (Z.max 1 (lim - count_var st)))
                                  (set_from key_eqb seen (map e_pk R)))))),
          delete_all (firstn (Z.to_nat (Z.max 1 (lim - count_var st)))
                        (set_from key_eqb seen (map e_pk R))) store,
          log ++ log').
Proof.
  revert seen store st log fuel.
  induction R as [|x R IH]; intros seen store st log fuel Hf.
  - destruct fuel as [|fuel]; [simpl in Hf; lia|].
    exists []. simpl. rewrite firstn_nil. simpl. rewrite Z.add_0_r, app_nil_r. reflexivity.
  - simpl List.filter. simpl map. simpl set_from.
    destruct (existsb (key_eqb (e_pk x)) seen) eqn:E; simpl negb; cbv iota.
    + apply IH. simpl in Hf. lia.
    + assert (Hs : forall l, settle dir (x :: l) = Some (x, l))
        by (intros l; destruct dir; try discriminate; reflexivity).
      rewrite Hs. destruct fuel as [|fuel]; [simpl in Hf; lia|].
      simpl onsuccess. rewrite Hoff, Hlim.
      destruct (count_var st + 1 >=? lim) eqn:Hge.
      * exists [CDelete (e_pk x)]. apply Z.geb_le in Hge.
        replace (Z.to_nat (Z.max 1 (lim - count_var st))) with 1%nat by lia.
        reflexivity.
      * assert (Hlt : count_var st + 1 < lim).
        { destruct (Z.geb_spec (count_var st + 1) lim); [discriminate|lia]. }
        unfold continue, beyond. rewrite Hdir. simpl snd. simpl fst.
        rewrite filter_seen.
        edestruct (IH (e_pk x :: seen) (delete_record (e_pk x) store)
                     (mkClosure (count_var st + 1) (data_var st) (advanceFlag st))
                     ((log ++ [CDelete (e_pk x)]) ++ [CContinue]) fuel) as (log' & Heq).
        { simpl in Hf. lia. }
        exists ([CDelete (e_pk x); CContinue] ++ log').
        rewrite Heq. simpl count_var.
        replace (Z.to_nat (Z.max 1 (lim - count_var st)))
          with (S (Z.to_nat (Z.max 1 (lim - (count_var st + 1))))) by lia.
        simpl firstn. simpl length. simpl delete_all.
        rewrite <- !app_assoc. simpl.
        rewrite Nat2Z.inj_succ, <- Z.add_1_l, Z.add_assoc. reflexivity.
Qed.
End deleting_some.

(** X25.  [remove] with a [limit] and without [offset], in direction
    [next] or [prev]: of the records that [select] without [offset] and
    [limit] returns, it deletes the first [limit] different ones, and the
    first one when [limit] is less than 1; it fulfils with their number
    and leaves the table without them. *)
Theorem remove_deletes_up_to_limit (db : database) (d : descriptor)
    (store : objectStore) (q : query_arg) (lim : Z) :
  offset d = None -> limit d = Some lim ->
  is_unique (direction_of d) = false ->
  db !! table d = Some store -> filter (value d) = Return q ->
  exists all rs rr,
    select db (unpaged d) = Some rs /\ settled rs = Fulfilled (Records all)
    /\ remove db d = Some rr
    /\ let ids := firstn (Z.to_nat (Z.max 1 lim)) (new_Set key_eqb (map r_id all)) in
       settled rr = Fulfilled (Number (Z.of_nat (length ids)))
       /\ db_after rr = <[table d := without ids store]> db.
Proof.
  intros Hoff Hlim Hdir Hdb Hq.
  destruct (select_everything db d store q Hdb Hq) as (rs & Hrs & Hs).
  rewrite (visited_all store d q Hdir) in Hs.
  set (cands := candidates store (source_of store d) q (direction_of d)) in *.
  assert (Hids : map r_id (map e_rec cands) = map e_pk cands)
    by (rewrite map_map; reflexivity).
  exists (map e_rec cands), rs.
  enter; unfold query. rewrite (transaction_found _ _ _ Hdb), Hq.
  fold (source_of store d). fold (direction_of d). fold cands.
  unfold openCursor. fold cands.
  replace (settle (direction_of d) cands)
    with (settle (direction_of d)
            (List.filter (fun x => negb (existsb (key_eqb (e_pk x)) [])) cands))
    by (now rewrite filter_none_seen).
  edestruct (onsuccess_delete_some d (direction_of d) lim Hoff Hlim Hdir cands []
               store (mkClosure 0 [] false)
               ([CTransaction (table d) (if is_delete TDelete then readwrite else readonly)]
                  ++ [COpenCursor (source_of store d) q (direction_of d)])
               (enough cands)) as (log' & Heq).
  { unfold enough. lia. }
  rewrite Heq. eexists. split; [exact Hrs|]. split; [exact Hs|].
  split; [reflexivity|]. simpl. rewrite Hids, Z.sub_0_r. fold (new_Set key_eqb (map e_pk cands)).
  split; [reflexivity|]. now rewrite delete_all_without.
Qed.

Lemma remove_deletes_up_to_limit_witness :
  exists all rs rr,
    select sample_db (unpaged (with_page all_songs None (Some 2))) = Some rs
    /\ settled rs = Fulfilled (Records all)
    /\ remove sample_db (with_page all_songs None (Some 2)) = Some rr
    /\ let ids := firstn (Z.to_nat (Z.max 1 2)) (new_Set key_eqb (map r_id all)) in
       settled rr = Fulfilled (Number (Z.of_nat (length ids)))
       /\ db_after rr
          = <[table (with_page all_songs None (Some 2)) := without ids songs]> sample_db.
Proof.
  apply (remove_deletes_up_to_limit sample_db (with_page all_songs None (Some 2))
           songs Null 2).
  - reflexivity.
  - reflexivity.
  - reflexivity.
  - reflexivity.
  - reflexivity.
Defined.

End RemoveLimitSpec.

(** ** [search] for one word *)

Module SearchFindSpec.
Import IDB Indb IDBData IndbData KeyFacts Vocabulary DataVocabulary.
Import SetFacts RemoveSpec SearchSpec DataReadSpec.

Lemma set_from_id (l seen : list key) :
  List.NoDup l -> (forall x, In x l -> ~ In x seen) -> set_from key_eqb seen l = l.
Proof.
  revert seen; induction l as [|x l IH]; intros seen Hnd Hs; [reflexivity|].
  inversion Hnd as [|? ? Hx Hl]; subst. simpl.
  assert (E : existsb (key_eqb x) seen = false).
  { destruct (existsb (key_eqb x) seen) eqn:E; [|reflexivity].
    apply existsb_key_In in E. exfalso. apply (Hs x); simpl; auto. }
  rewrite E. f_equal. apply IH; [exact Hl|].
  intros y Hy [<-|H]; [contradiction|]. apply (Hs y); simpl; auto.
Qed.

Lemma hydrate_entries (store : objectStore) (es : list entry) :
  List.NoDup (map r_id (records store)) ->
  (forall e, In e es -> In (e_rec e) (records store)) ->
  map (IDB.get store) (map e_pk es) = map Some (map e_rec es).
Proof.
  intros Hnd. induction es as [|e es IH]; intros H; [reflexivity|].
  simpl. f_equal; [|apply IH; intros; apply H; simpl; auto].
  apply (get_record store Hnd). split; [apply H; simpl; auto|reflexivity].
Qed.

(** X26.  [search] for a query of one word is [findAll] of the word: on a
    table whose primary keys are unique numbers or strings and for an
    index of the table, when [tokens] makes the single word [w] of the
    query, [search], with "and" as with "or", fulfils with the records
    that [findAll(table, index, w)] resolves with, in the same order. *)
Theorem search_one_word_is_findAll is_L is_N toLowerCase (c : connection)
    (t i : string) (query : jsval key) (op : string) (w : jsstring) (sg : stored)
    (ix : index_def) :
  c !! t = Some sg -> indexes (fst sg) !! i = Some ix ->
  List.NoDup (map r_id (records (fst sg))) ->
  Forall (fun r => scalar (r_id r) = true) (records (fst sg)) ->
  tokens is_L is_N toLowerCase query = [w] ->
  exists rows,
    answer_of (findAll c t i (KStr w)) = Resolved (All rows)
    /\ settled (search is_L is_N toLowerCase (stores c) t i query op)
       = Fulfilled (map Some rows).
Proof.
  intros Hc Hix Hnd Hsc Htok.
  exists (index_getAll (fst sg) ix (KStr w)). split.
  - unfold findAll, find, open_store. rewrite Hc, Hix. reflexivity.
  - unfold search. rewrite Htok.
    unfold transaction. rewrite (stores_found c t sg Hc), Hix.
    change (map (fun word => getAllKeys (fst sg) ix (KStr word)) [w])
      with (key_sets (fst sg) ix [w]).
    rewrite (combine_key_sets (fst sg) ix Hsc op [w]).
    assert (Hkeys : (if String.eqb op "or"
                     then new_Set key_eqb (concat (key_sets (fst sg) ix [w]))
                     else match key_sets (fst sg) ix [w] with
                          | [] => []
                          | first :: rest => in_all first rest
                          end) = getAllKeys (fst sg) ix (KStr w)).
    { destruct (String.eqb op "or"); simpl.
      - rewrite app_nil_r. apply set_from_id; [|tauto].
        now apply getAllKeys_distinct.
      - unfold in_all. simpl.
        induction (getAllKeys (fst sg) ix (KStr w)) as [|x l IH]; simpl;
          [reflexivity|now f_equal]. }
    rewrite Hkeys.
    assert (Hrows : map (IDB.get (fst sg)) (getAllKeys (fst sg) ix (KStr w))
                    = map Some (index_getAll (fst sg) ix (KStr w))).
    { unfold getAllKeys, index_getAll. apply hydrate_entries; [exact Hnd|].
      intros e He. apply filter_In in He as [He _].
      now apply index_entries_In in He as [He _]. }
    destruct (getAllKeys (fst sg) ix (KStr w)) as [|k ks] eqn:E.
    + simpl. simpl in Hrows. now rewrite <- Hrows.
    + simpl. now rewrite <- Hrows.
Qed.

Lemma search_one_word_is_findAll_witness :
  exists rows,
    answer_of (findAll sample_conn "users" "name" (KStr (cps "ann")))
    = Resolved (All rows)
    /\ settled (search ascii_is_L ascii_is_N ascii_toLowerCase (stores sample_conn)
                  "users" "name" (JString (cps "Ann")) "or")
       = Fulfilled (map Some rows).
Proof.
  apply (search_one_word_is_findAll ascii_is_L ascii_is_N ascii_toLowerCase
           sample_conn "users" "name" (JString (cps "Ann")) "or" (cps "ann") users
           (mkIndex "name" false false)).
  - reflexivity.
  - reflexivity.
  - simpl. repeat constructor; simpl; intuition discriminate.
  - repeat constructor.
  - vm_compute. reflexivity.
Defined.

End SearchFindSpec.
